(** * getPVAliases: a shallow embedding of [scripts/getPVAliases.py]

    The script gathers record/alias associations of an IOC from three text
    sources.  Its core is string surgery: Python [str] methods and regular
    expressions of the [re] module.  This file embeds

    - the [str] methods the script calls ([replace], [strip], [split],
      [startswith], [in], [join], indexing),
    - the fragment of [re] its patterns are written in (a parser for the
      pattern text and a backtracking matcher with Python's leftmost,
      greedy semantics),
    - a [json.loads] for the documents the script loads,
    - the functions [search_file], [fix_json], [find_ioc], [fix_dir],
      [acquire_aliases] and [process_alias_template],
    - the functions [find_parent_ioc] and [clean_ansi], and the prompts
      [simple_prompt] and [request_file_dest] over the lines of the
      standard input,

    and states the properties of the design document about them.

    Text is a list of characters; a character is a code point below 256
    ([ascii], read as Latin-1), and the character classes [\w], [\s], [\d]
    are those of Python on these code points. *)

From Stdlib Require Import String Ascii.
From Stdlib Require Import List Bool Arith ZArith Lia.
Import ListNotations.

Set Implicit Arguments.

(** ** Text *)

Definition text := list ascii.

Definition T (s : string) : text := list_ascii_of_string s.
Coercion T : string >-> text.

Local Open Scope string_scope.
Local Open Scope nat_scope.
Local Open Scope list_scope.

(** The double quote, the newline and the escape character. *)
Definition DQ : ascii := "034"%char.
Definition NL : ascii := "010"%char.
Definition ESC : ascii := "027"%char.

Definition code (c : ascii) : nat := nat_of_ascii c.

Definition in_range (lo hi : nat) (c : ascii) : bool :=
  (lo <=? code c) && (code c <=? hi).

(** [str.isspace] and [\s] on code points below 256. *)
Definition is_space (c : ascii) : bool :=
  in_range 9 13 c || in_range 28 32 c || (code c =? 133) || (code c =? 160).

(** [\d]. *)
Definition is_digit (c : ascii) : bool := in_range 48 57 c.

(** [\w] on code points below 256. *)
Definition is_word (c : ascii) : bool :=
  in_range 48 57 c || in_range 65 90 c || (code c =? 95) || in_range 97 122 c
  || (code c =? 170) || in_range 178 179 c || (code c =? 181)
  || in_range 185 186 c || in_range 188 190 c || in_range 192 214 c
  || in_range 216 246 c || in_range 248 255 c.

Fixpoint text_eqb (a b : text) : bool :=
  match a, b with
  | [], [] => true
  | x :: a', y :: b' => Ascii.eqb x y && text_eqb a' b'
  | _, _ => false
  end.

(** [strip_prefix p s] is [Some r] when [s = p ++ r]. *)
Fixpoint strip_prefix (p s : text) : option text :=
  match p with
  | [] => Some s
  | c :: p' =>
      match s with
      | [] => None
      | d :: s' => if Ascii.eqb c d then strip_prefix p' s' else None
      end
  end.

(** [s.startswith(p)] *)
Definition startswith (p s : text) : bool :=
  match strip_prefix p s with Some _ => true | None => false end.

(** [sub in s] *)
Fixpoint contains (sub s : text) : bool :=
  startswith sub s ||
  match s with
  | [] => false
  | _ :: s' => contains sub s'
  end.

(** [s.replace(old, new)] for a non-empty [old]: occurrences are taken
    from the left and do not overlap.  The fuel is the length of the text
    that is left, never exhausted. *)
Fixpoint replace_fuel (fuel : nat) (old new s : text) : text :=
  match fuel with
  | O => s
  | S fuel' =>
      match s with
      | [] => []
      | c :: s' =>
          match strip_prefix old s with
          | Some rest =>
              if length rest <? length s
              then new ++ replace_fuel fuel' old new rest
              else c :: replace_fuel fuel' old new s'
          | None => c :: replace_fuel fuel' old new s'
          end
      end
  end.

Definition replace (old new s : text) : text :=
  replace_fuel (length s) old new s.

Fixpoint lstrip (s : text) : text :=
  match s with
  | c :: s' => if is_space c then lstrip s' else s
  | [] => []
  end.

Definition rstrip (s : text) : text := rev (lstrip (rev s)).

(** [s.strip()] *)
Definition strip (s : text) : text := rstrip (lstrip s).

(** [s.split(sep)] for a one-character separator: the fields between the
    separators, at least one. *)
Fixpoint split_on (sep : ascii) (s : text) : list text :=
  match s with
  | [] => [[]]
  | c :: s' =>
      if Ascii.eqb c sep then [] :: split_on sep s'
      else match split_on sep s' with
           | f :: fs => (c :: f) :: fs
           | [] => [[c]]
           end
  end.

(** [s.split()]: the maximal runs of characters that are not white space. *)
Fixpoint split_ws_aux (cur : text) (s : text) : list text :=
  match s with
  | [] => match cur with [] => [] | _ => [rev cur] end
  | c :: s' =>
      if is_space c
      then match cur with
           | [] => split_ws_aux [] s'
           | _ => rev cur :: split_ws_aux [] s'
           end
      else split_ws_aux (c :: cur) s'
  end.

Definition split_ws (s : text) : list text := split_ws_aux [] s.

(** [sep.join(l)] *)
Fixpoint join (sep : text) (l : list text) : text :=
  match l with
  | [] => []
  | [x] => x
  | x :: l' => x ++ sep ++ join sep l'
  end.

(** [f.readlines()]: the lines of a text, each with its newline; the last
    one has none when the text does not end in one. *)
Fixpoint readlines_aux (cur : text) (s : text) : list text :=
  match s with
  | [] => match cur with [] => [] | _ => [rev cur] end
  | c :: s' =>
      if Ascii.eqb c NL then rev (c :: cur) :: readlines_aux [] s'
      else readlines_aux (c :: cur) s'
  end.

Definition readlines (s : text) : list text := readlines_aux [] s.

(** ** Outcomes of a call

    A call returns a value or raises.  [OutOfModel] marks an input on which
    the library function modelled here is not followed (a construct of
    [re] or [json] this file does not embed). *)

Inductive exn : Type :=
| ValueError
| IndexError
| TypeError
| JSONDecodeError
| ReError
| OutOfModel.

Inductive result (A : Type) : Type :=
| Ret (a : A)
| Raise (e : exn).

Arguments Ret {A} a.
Arguments Raise {A} e.

Definition bind {A B} (m : result A) (f : A -> result B) : result B :=
  match m with
  | Ret a => f a
  | Raise e => Raise e
  end.

Notation "x <- m ;; k" := (bind m (fun x => k))
  (at level 61, m at next level, right associativity).

(** [s[-1]] *)
Definition last_char (s : text) : result ascii :=
  match rev s with
  | c :: _ => Ret c
  | [] => Raise IndexError
  end.

(** ** Regular expressions: the fragment of [re] the script is written in

    Literals, [.], the classes [\w \d \s] and their complements, grouping,
    alternation, the greedy quantifiers [* + ?], the anchors [^ $] and the
    four look-around assertions.  [r+] is [r r*] and [r?] is [r|]. *)

Inductive cclass : Type :=
| CAny                      (* .  : any character but a newline *)
| CWord | CDigit | CSpace   (* \w \d \s *)
| CNotWord | CNotDigit | CNotSpace
| CChar (c : ascii).

Inductive regex : Type :=
| Eps
| Cls (c : cclass)
| Seq (r1 r2 : regex)
| Alt (r1 r2 : regex)
| Star (r : regex)
| Ahead (positive : bool) (r : regex)     (* (?=r)  (?!r)  *)
| Behind (positive : bool) (r : regex)    (* (?<=r) (?<!r) *)
| Bol                                     (* ^ *)
| Eol.                                    (* $ *)

Definition in_class (k : cclass) (c : ascii) : bool :=
  match k with
  | CAny => negb (Ascii.eqb c NL)
  | CWord => is_word c
  | CDigit => is_digit c
  | CSpace => is_space c
  | CNotWord => negb (is_word c)
  | CNotDigit => negb (is_digit c)
  | CNotSpace => negb (is_space c)
  | CChar d => Ascii.eqb c d
  end.

(** The width of a pattern when it is fixed, as look-behind needs it. *)
Fixpoint width (r : regex) : option nat :=
  match r with
  | Eps | Bol | Eol | Ahead _ _ | Behind _ _ => Some 0
  | Cls _ => Some 1
  | Seq r1 r2 =>
      match width r1, width r2 with
      | Some a, Some b => Some (a + b)
      | _, _ => None
      end
  | Alt r1 r2 =>
      match width r1, width r2 with
      | Some a, Some b => if a =? b then Some a else None
      | _, _ => None
      end
  | Star r1 =>
      match width r1 with
      | Some O => Some O
      | _ => None
      end
  end.

(** *** Parsing a pattern *)

Definition is_ascii_alnum (c : ascii) : bool :=
  in_range 48 57 c || in_range 65 90 c || in_range 97 122 c.

(** The character after a backslash. *)
Definition parse_escape (c : ascii) : result regex :=
  if Ascii.eqb c "w" then Ret (Cls CWord)
  else if Ascii.eqb c "W" then Ret (Cls CNotWord)
  else if Ascii.eqb c "d" then Ret (Cls CDigit)
  else if Ascii.eqb c "D" then Ret (Cls CNotDigit)
  else if Ascii.eqb c "s" then Ret (Cls CSpace)
  else if Ascii.eqb c "S" then Ret (Cls CNotSpace)
  else if Ascii.eqb c "n" then Ret (Cls (CChar NL))
  else if Ascii.eqb c "t" then Ret (Cls (CChar "009"))
  else if Ascii.eqb c "r" then Ret (Cls (CChar "013"))
  else if Ascii.eqb c "f" then Ret (Cls (CChar "012"))
  else if Ascii.eqb c "v" then Ret (Cls (CChar "011"))
  else if Ascii.eqb c "a" then Ret (Cls (CChar "007"))
  else if is_ascii_alnum c then Raise OutOfModel
  else Ret (Cls (CChar c)).

(** An anchor cannot be repeated: [re] raises "nothing to repeat". *)
Definition is_anchor (a : regex) : bool :=
  match a with
  | Bol | Eol => true
  | _ => false
  end.

(** The quantifiers after an atom.  A second quantifier ([a**], or the
    lazy and possessive forms) and counted repetition are not embedded. *)
Definition parse_quant (a : regex) (s : text) : result (regex * text) :=
  let after (q : regex) (s' : text) :=
    if is_anchor a then Raise ReError
    else
      match s' with
      | "*" :: _ | "+" :: _ | "?" :: _ => Raise OutOfModel
      | "{" :: d :: _ =>
          if is_digit d || Ascii.eqb d "," then Raise OutOfModel
          else Ret (q, s')
      | _ => Ret (q, s')
      end%char in
  match s with
  | "*" :: s' => after (Star a) s'
  | "+" :: s' => after (Seq a (Star a)) s'
  | "?" :: s' => after (Alt a Eps) s'
  | "{" :: d :: _ =>
      if is_digit d || Ascii.eqb d "," then Raise OutOfModel else Ret (a, s)
  | _ => Ret (a, s)
  end%char.

Fixpoint parse_alt (fuel : nat) (s : text) : result (regex * text) :=
  match fuel with
  | O => Raise OutOfModel
  | S f =>
      p <- parse_seq f s ;;
      match snd p with
      | "|"%char :: s2 =>
          q <- parse_alt f s2 ;;
          Ret (Alt (fst p) (fst q), snd q)
      | _ => Ret p
      end
  end
with parse_seq (fuel : nat) (s : text) : result (regex * text) :=
  match fuel with
  | O => Raise OutOfModel
  | S f =>
      match s with
      | [] => Ret (Eps, s)
      | "|"%char :: _ => Ret (Eps, s)
      | ")"%char :: _ => Ret (Eps, s)
      | _ =>
          a <- parse_atom f s ;;
          q <- parse_quant (fst a) (snd a) ;;
          rest <- parse_seq f (snd q) ;;
          Ret (Seq (fst q) (fst rest), snd rest)
      end
  end
with parse_atom (fuel : nat) (s : text) : result (regex * text) :=
  let closed (wrap : regex -> result regex) (p : result (regex * text)) :=
    p <- p ;;
    match snd p with
    | ")"%char :: s' => r <- wrap (fst p) ;; Ret (r, s')
    | _ => Raise ReError
    end in
  let behind (positive : bool) (r : regex) :=
    match width r with
    | Some _ => Ret (Behind positive r)
    | None => Raise ReError
    end in
  match fuel with
  | O => Raise OutOfModel
  | S f =>
      match s with
      | [] => Raise ReError
      | "(" :: "?" :: ":" :: s' => closed (fun r => Ret r) (parse_alt f s')
      | "(" :: "?" :: "=" :: s' => closed (fun r => Ret (Ahead true r)) (parse_alt f s')
      | "(" :: "?" :: "!" :: s' => closed (fun r => Ret (Ahead false r)) (parse_alt f s')
      | "(" :: "?" :: "<" :: "=" :: s' => closed (behind true) (parse_alt f s')
      | "(" :: "?" :: "<" :: "!" :: s' => closed (behind false) (parse_alt f s')
      | "(" :: "?" :: _ => Raise OutOfModel
      | "(" :: s' => closed (fun r => Ret r) (parse_alt f s')
      | "[" :: _ => Raise OutOfModel
      | "*" :: _ | "+" :: _ | "?" :: _ => Raise ReError
      | "{" :: d :: s' =>
          if is_digit d || Ascii.eqb d "," then Raise OutOfModel
          else Ret (Cls (CChar "{"), d :: s')
      | "." :: s' => Ret (Cls CAny, s')
      | "^" :: s' => Ret (Bol, s')
      | "$" :: s' => Ret (Eol, s')
      | "\" :: c :: s' => r <- parse_escape c ;; Ret (r, s')
      | "\" :: [] => Raise ReError
      | c :: s' => Ret (Cls (CChar c), s')
      end%char
  end.

(** [re.compile(pattern)] *)
Definition re_compile (pattern : text) : result regex :=
  p <- parse_alt (3 * length pattern + 3) pattern ;;
  match snd p with
  | [] => Ret (fst p)
  | _ => Raise ReError
  end.

(** *** Matching

    A position in a text is the reversed text before it and the text after
    it.  [re_match r pre suf k] matches [r] at the position [(pre, suf)] and
    hands every end position, in the order of Python's backtracking, to the
    continuation [k] until it accepts one. *)

Definition cont (R : Type) : Type := text -> text -> option R.

(** The loop of a greedy star: one more round of [step] first, the
    continuation when that fails.  After a round that consumes nothing the
    loop is left for the continuation at once, as [re] does, so
    [S (length suf)] rounds are never all used. *)
Fixpoint star_loop (R : Type) (step : text -> text -> cont R -> option R)
    (fuel : nat) (pre suf : text) (k : cont R) : option R :=
  match fuel with
  | O => k pre suf
  | S fuel' =>
      match step pre suf
              (fun p s => if length s <? length suf
                          then star_loop step fuel' p s k else k p s) with
      | Some x => Some x
      | None => k pre suf
      end
  end.

(** Steps [n] characters back from a position. *)
Fixpoint back (n : nat) (pre suf : text) : option (text * text) :=
  match n with
  | O => Some (pre, suf)
  | S n' =>
      match pre with
      | [] => None
      | c :: pre' => back n' pre' (c :: suf)
      end
  end.

Definition is_some (A : Type) (o : option A) : bool :=
  match o with Some _ => true | None => false end.

Fixpoint re_match (r : regex) (R : Type) (pre suf : text) (k : cont R)
    {struct r} : option R :=
  match r with
  | Eps => k pre suf
  | Cls c =>
      match suf with
      | x :: suf' => if in_class c x then k (x :: pre) suf' else None
      | [] => None
      end
  | Seq r1 r2 => re_match r1 pre suf (fun p s => re_match r2 p s k)
  | Alt r1 r2 =>
      match re_match r1 pre suf k with
      | Some x => Some x
      | None => re_match r2 pre suf k
      end
  | Star r1 =>
      star_loop (fun p s k' => re_match r1 p s k') (S (length suf)) pre suf k
  | Ahead positive r1 =>
      if Bool.eqb positive
           (is_some (re_match r1 pre suf (fun _ _ => Some tt)))
      then k pre suf else None
  | Behind positive r1 =>
      let found :=
        match width r1 with
        | Some w =>
            match back w pre suf with
            | Some (p0, s0) =>
                is_some (re_match r1 p0 s0
                           (fun _ s => if length s =? length suf
                                       then Some tt else None))
            | None => false
            end
        | None => false
        end in
      if Bool.eqb positive found then k pre suf else None
  | Bol => match pre with [] => k pre suf | _ => None end
  | Eol =>
      match suf with
      | [] => k pre suf
      | [c] => if Ascii.eqb c NL then k pre suf else None
      | _ => None
      end
  end.

(** One match attempt at a position: the length of the match.  [advance]
    refuses the empty match, as Python does right after an empty match at
    the same position. *)
Definition match_len (r : regex) (advance : bool) (pre suf : text)
  : option nat :=
  re_match r pre suf
    (fun _ s => if advance && (length s =? length suf)
                then None else Some (length suf - length s)).

(** [re.search(r, s) is not None]: a match starts somewhere. *)
Fixpoint search_from (r : regex) (pre suf : text) : bool :=
  is_some (match_len r false pre suf) ||
  match suf with
  | [] => false
  | c :: suf' => search_from r (c :: pre) suf'
  end.

Definition search (r : regex) (s : text) : bool := search_from r [] s.

(** The scan of [re.sub] and [re.findall]: the matches from the left,
    without overlap, and the characters between them.  [skip] counts the
    characters of the current match that are still to be passed. *)
Inductive piece : Type :=
| Copy (c : ascii)
| Match (m : text).

Fixpoint scan (r : regex) (skip : nat) (pre suf : text) : list piece :=
  match suf with
  | [] =>
      match skip, match_len r false pre [] with
      | O, Some _ => [Match []]
      | _, _ => []
      end
  | c :: suf' =>
      match skip with
      | S n => scan r n (c :: pre) suf'
      | O =>
          match match_len r false pre suf with
          | Some (S n) => Match (firstn (S n) suf) :: scan r n (c :: pre) suf'
          | Some O =>
              Match [] ::
              match match_len r true pre suf with
              | Some (S n) =>
                  Match (firstn (S n) suf) :: scan r n (c :: pre) suf'
              | _ => Copy c :: scan r 0 (c :: pre) suf'
              end
          | None => Copy c :: scan r 0 (c :: pre) suf'
          end
      end
  end.

Fixpoint matches (l : list piece) : list text :=
  match l with
  | [] => []
  | Copy _ :: l' => matches l'
  | Match m :: l' => m :: matches l'
  end.

(** [re.findall(r, s)] for a pattern without groups. *)
Definition findall (r : regex) (s : text) : list text :=
  matches (scan r 0 [] s).

(** A replacement template: literal characters and [\g<0>], the match. *)
Inductive titem : Type :=
| TChar (c : ascii)
| TWhole.

Fixpoint parse_template (repl : text) : result (list titem) :=
  match repl with
  | [] => Ret []
  | "\" :: "g" :: "<" :: "0" :: ">" :: t =>
      l <- parse_template t ;; Ret (TWhole :: l)
  | "\" :: "\" :: t => l <- parse_template t ;; Ret (TChar "\" :: l)
  | "\" :: "n" :: t => l <- parse_template t ;; Ret (TChar NL :: l)
  | "\" :: "t" :: t => l <- parse_template t ;; Ret (TChar "009" :: l)
  | "\" :: "r" :: t => l <- parse_template t ;; Ret (TChar "013" :: l)
  | "\" :: "f" :: t => l <- parse_template t ;; Ret (TChar "012" :: l)
  | "\" :: "v" :: t => l <- parse_template t ;; Ret (TChar "011" :: l)
  | "\" :: "a" :: t => l <- parse_template t ;; Ret (TChar "007" :: l)
  | "\" :: "b" :: t => l <- parse_template t ;; Ret (TChar "008" :: l)
  | "\" :: c :: t =>
      if in_range 48 57 c || Ascii.eqb c "g" then Raise OutOfModel
      else if is_ascii_alnum c then Raise ReError
      else l <- parse_template t ;; Ret (TChar "\" :: TChar c :: l)
  | "\" :: [] => Raise ReError
  | c :: t => l <- parse_template t ;; Ret (TChar c :: l)
  end%char.

Fixpoint expand (t : list titem) (matched : text) : text :=
  match t with
  | [] => []
  | TChar c :: t' => c :: expand t' matched
  | TWhole :: t' => matched ++ expand t' matched
  end.

Fixpoint rewrite (t : list titem) (l : list piece) : text :=
  match l with
  | [] => []
  | Copy c :: l' => c :: rewrite t l'
  | Match m :: l' => expand t m ++ rewrite t l'
  end.

Definition sub (r : regex) (t : list titem) (s : text) : text :=
  rewrite t (scan r 0 [] s).

(** [re.sub(pattern, repl, s)] *)
Definition re_sub (pattern repl s : text) : result text :=
  r <- re_compile pattern ;;
  t <- parse_template repl ;;
  Ret (sub r t s).

(** [re.findall(pattern, s)] *)
Definition re_findall (pattern s : text) : result (list text) :=
  r <- re_compile pattern ;;
  Ret (findall r s).

(** [re.search(pattern, s)] as a truth value *)
Definition re_search (pattern s : text) : result bool :=
  r <- re_compile pattern ;;
  Ret (search r s).

(** ** [json.loads]

    The documents of the script are objects of strings, integers and
    booleans.  Numbers with a fraction or an exponent, [NaN], [Infinity] and
    [\u] escapes are outside this embedding ([OutOfModel]). *)

#[local] Set Warnings "-register-all".

Inductive json : Type :=
| JNull
| JBool (b : bool)
| JInt (z : Z)
| JStr (s : text)
| JList (l : list json)
| JDict (d : list (text * json)).

(** [d[key] = v] on a dict, whose keys keep their insertion order. *)
Fixpoint dict_set (key : text) (v : json) (d : list (text * json))
  : list (text * json) :=
  match d with
  | [] => [(key, v)]
  | (k, w) :: d' =>
      if text_eqb k key then (k, v) :: d' else (k, w) :: dict_set key v d'
  end.

(** [d.get(key)] *)
Fixpoint dict_get (key : text) (d : list (text * json)) : option json :=
  match d with
  | [] => None
  | (k, w) :: d' => if text_eqb k key then Some w else dict_get key d'
  end.

Definition is_json_space (c : ascii) : bool :=
  (code c =? 32) || (code c =? 9) || (code c =? 10) || (code c =? 13).

Fixpoint skip_ws (s : text) : text :=
  match s with
  | c :: s' => if is_json_space c then skip_ws s' else s
  | [] => []
  end.

(** The characters of a string up to its closing quote. *)
Fixpoint json_string (s : text) : result (text * text) :=
  match s with
  | [] => Raise JSONDecodeError
  | "\" :: c :: s' =>
      let esc (x : ascii) := r <- json_string s' ;; Ret (x :: fst r, snd r) in
      if Ascii.eqb c DQ then esc DQ
      else if Ascii.eqb c "\" then esc "\"
      else if Ascii.eqb c "/" then esc "/"
      else if Ascii.eqb c "b" then esc "008"
      else if Ascii.eqb c "f" then esc "012"
      else if Ascii.eqb c "n" then esc NL
      else if Ascii.eqb c "r" then esc "013"
      else if Ascii.eqb c "t" then esc "009"
      else if Ascii.eqb c "u" then Raise OutOfModel
      else Raise JSONDecodeError
  | "\" :: [] => Raise JSONDecodeError
  | c :: s' =>
      if Ascii.eqb c DQ then Ret ([], s')
      else if (code c <? 32)%nat then Raise JSONDecodeError
      else r <- json_string s' ;; Ret (c :: fst r, snd r)
  end%char.

Fixpoint digits (acc : Z) (s : text) : Z * text :=
  match s with
  | c :: s' =>
      if is_digit c
      then digits (10 * acc + Z.of_nat (code c - 48)) s'
      else (acc, s)
  | [] => (acc, [])
  end.

(** What follows the integer part makes the number a float. *)
Definition float_follows (s : text) : bool :=
  match s with
  | "." :: d :: _ => is_digit d
  | e :: d :: rest =>
      (Ascii.eqb e "e" || Ascii.eqb e "E") &&
      (is_digit d ||
       ((Ascii.eqb d "+" || Ascii.eqb d "-") &&
        match rest with d' :: _ => is_digit d' | [] => false end))
  | _ => false
  end%char.

(** An integer: a minus sign if any, then [0] or a digit run that does not
    start with [0]. *)
Definition json_number (s : text) : result (json * text) :=
  let unsigned (sign : Z) (s : text) :=
    match s with
    | d :: s' =>
        if Ascii.eqb d "0"%char
        then if float_follows s' then Raise OutOfModel
             else Ret (JInt 0, s')
        else if is_digit d
        then let r := digits 0 s in
             if float_follows (snd r) then Raise OutOfModel
             else Ret (JInt (sign * fst r), snd r)
        else if startswith "Infinity" s then Raise OutOfModel
        else Raise JSONDecodeError
    | [] => Raise JSONDecodeError
    end in
  match s with
  | "-"%char :: s' => unsigned (-1)%Z s'
  | _ => unsigned 1%Z s
  end.

Definition json_literal (w : text) (v : json) (s : text)
  : result (json * text) :=
  match strip_prefix w s with
  | Some rest => Ret (v, rest)
  | None => Raise JSONDecodeError
  end.

Fixpoint json_value (fuel : nat) (s : text) : result (json * text) :=
  match fuel with
  | O => Raise OutOfModel
  | S f =>
      match s with
      | [] => Raise JSONDecodeError
      | c :: s' =>
          if Ascii.eqb c DQ
          then r <- json_string s' ;; Ret (JStr (fst r), snd r)
          else if Ascii.eqb c "{"%char
          then match skip_ws s' with
               | "}"%char :: rest => Ret (JDict [], rest)
               | s'' => r <- json_members f [] s'' ;; Ret (JDict (fst r), snd r)
               end
          else if Ascii.eqb c "["%char
          then match skip_ws s' with
               | "]"%char :: rest => Ret (JList [], rest)
               | s'' => r <- json_elements f s'' ;; Ret (JList (fst r), snd r)
               end
          else if Ascii.eqb c "n"%char then json_literal "null" JNull s
          else if Ascii.eqb c "t"%char then json_literal "true" (JBool true) s
          else if Ascii.eqb c "f"%char then json_literal "false" (JBool false) s
          else if Ascii.eqb c "N"%char
          then if startswith "NaN" s then Raise OutOfModel
               else Raise JSONDecodeError
          else if Ascii.eqb c "I"%char
          then if startswith "Infinity" s then Raise OutOfModel
               else Raise JSONDecodeError
          else json_number s
      end
  end
with json_members (fuel : nat) (acc : list (text * json)) (s : text)
  : result (list (text * json) * text) :=
  match fuel with
  | O => Raise OutOfModel
  | S f =>
      match s with
      | c :: s1 =>
          if negb (Ascii.eqb c DQ) then Raise JSONDecodeError
          else
            k <- json_string s1 ;;
            match skip_ws (snd k) with
            | ":"%char :: s2 =>
                v <- json_value f (skip_ws s2) ;;
                let acc' := dict_set (fst k) (fst v) acc in
                match skip_ws (snd v) with
                | "}"%char :: rest => Ret (acc', rest)
                | ","%char :: s3 => json_members f acc' (skip_ws s3)
                | _ => Raise JSONDecodeError
                end
            | _ => Raise JSONDecodeError
            end
      | [] => Raise JSONDecodeError
      end
  end
with json_elements (fuel : nat) (s : text) : result (list json * text) :=
  match fuel with
  | O => Raise OutOfModel
  | S f =>
      v <- json_value f s ;;
      match skip_ws (snd v) with
      | "]"%char :: rest => Ret ([fst v], rest)
      | ","%char :: s' =>
          r <- json_elements f (skip_ws s') ;; Ret (fst v :: fst r, snd r)
      | _ => Raise JSONDecodeError
      end
  end.

(** [json.loads(s)] *)
Definition json_loads (s : text) : result json :=
  r <- json_value (2 * length s + 2) (skip_ws s) ;;
  match skip_ws (snd r) with
  | [] => Ret (fst r)
  | _ => Raise JSONDecodeError
  end.

(** ** Printing and the file system

    A function that prints yields the lines it printed with its outcome.
    The file system is the list of its regular files, each with the text
    [open(..., encoding='utf-8')] reads from it, in the order in which a
    directory listing yields them. *)

Definition io (A : Type) : Type := (list text * result A)%type.

Definition io_ret {A} (a : A) : io A := ([], Ret a).

Definition io_bind {A B} (m : io A) (f : A -> io B) : io B :=
  match snd m with
  | Ret a => (fst m ++ fst (f a), snd (f a))
  | Raise e => (fst m, Raise e)
  end.

Definition print (line : text) : io unit := ([line], Ret tt).
Definition raise {A} (e : exn) : io A := ([], Raise e).
Definition lift {A} (r : result A) : io A := ([], r).

Notation "x <~ m ;; k" := (io_bind m (fun x => k))
  (at level 61, m at next level, right associativity).

Fixpoint mapM {A B} (f : A -> result B) (l : list A) : result (list B) :=
  match l with
  | [] => Ret []
  | a :: l' => b <- f a ;; bs <- mapM f l' ;; Ret (b :: bs)
  end.

Definition filesystem : Type := list (text * text).

Fixpoint read_file (fs : filesystem) (path : text) : option text :=
  match fs with
  | [] => None
  | (p, content) :: fs' =>
      if text_eqb p path then Some content else read_file fs' path
  end.

(** [os.path.isfile] and [os.path.exists], on regular files. *)
Definition isfile (fs : filesystem) (path : text) : bool :=
  is_some (read_file fs path).

(** [colorama]'s [Fore.RED] and [Style.RESET_ALL]. *)
Definition Fore_RED : text := ESC :: T "[31m".
Definition Style_RESET_ALL : text := ESC :: T "[0m".

(** ** [search_file] *)

(** The loop over the lines: the lines the pattern is found in, each with
    its matches rewritten by the template. *)
Fixpoint search_lines (patt repl : text) (lines : list text)
  : result (list text) :=
  match lines with
  | [] => Ret []
  | line :: rest =>
      hit <- re_search patt line ;;
      if hit
      then l <- re_sub patt repl line ;;
           output <- search_lines patt repl rest ;;
           Ret (l :: output)
      else search_lines patt repl rest
  end.

Definition search_file (fs : filesystem) (file patt prefix : text)
    (color_wrap : option text) : io text :=
  let color := match color_wrap with Some c => c | None => [] end in
  let reset := match color_wrap with Some _ => Style_RESET_ALL | None => [] end in
  match read_file fs file with
  | None => _ <~ print (file ++ T " does not exist") ;; io_ret []
  | Some content =>
      output <~ lift (search_lines patt (color ++ T "\g<0>" ++ reset)
                        (readlines content)) ;;
      io_ret (prefix ++ join prefix output)
  end.

(** ** [fix_json] *)

Definition fix_json (raw_data : text) : result (list text) :=
  (* clean empty rows and white space *)
  let _temp := strip (replace " " "" raw_data) in
  (* capture and fix the keys not properly formatted to str *)
  _temp <- re_sub "(?<!'|\w)\w+(?!')(?=:\s?)" "'\g<0>'" raw_data ;;
  (* capture boolean tokens and fix them for json format *)
  _temp <- re_sub "True" "true" _temp ;;
  _temp <- re_sub "False" "false" _temp ;;
  (* then capture and fix digits not formatted to str *)
  _temp <- re_sub "(?<=:)\d+" "'\g<0>'" _temp ;;
  (* then properly convert to list of json obj *)
  Ret (split_on NL
         (strip
            (replace " {" "{"
               (replace "}," "}"
                  (replace "'" [DQ] _temp))))).

(** ** [find_ioc] *)

Definition hutch_list : list text :=
  map T ["xpp"; "xcs"; "cxi"; "mfx"; "mec"; "tmo"; "rix"; "xrt";
         "aux"; "det"; "fee"; "hpl"; "icl"; "las"; "lfe"; "kfe";
         "tst"; "txi"; "thz"; "all"].

Definition text_in (x : text) (l : list text) : bool :=
  existsb (text_eqb x) l.

Definition config_root : text := "/cds/group/pcds/pyps/config/".

(** [gb.glob('/cds/group/pcds/pyps/config/*/iocmanager.cfg')]: the star
    stands for one directory name, not hidden. *)
Definition glob_match (path : text) : bool :=
  match strip_prefix config_root path with
  | Some rest =>
      match split_on "/" rest with
      | [(c :: _) as d; f] =>
          negb (Ascii.eqb c ".") && text_eqb f "iocmanager.cfg"
      | _ => false
      end
  | None => false
  end.

Definition glob_configs (fs : filesystem) : list text :=
  filter glob_match (map fst fs).

(** The loop over the files of [find_ioc]. *)
Fixpoint search_files (fs : filesystem) (patt : text) (several : bool)
    (path : list text) : io (list text) :=
  match path with
  | [] => io_ret []
  | _file :: rest =>
      let prefix := if several then _file ++ T ":" else [] in
      output <~ search_file fs _file patt prefix None ;;
      result <~ search_files fs patt several rest ;;
      io_ret (if negb (text_eqb output prefix) then output :: result
              else result)
  end.

(** [for _i, _d in enumerate(output): _d['hutch'] = hutch_cfgs[_i]] *)
Fixpoint tag_hutches (output : list json) (hutch_cfgs : list text)
  : result (list json) :=
  match output with
  | [] => Ret []
  | _d :: output' =>
      match hutch_cfgs with
      | [] => Raise IndexError
      | h :: hutch_cfgs' =>
          match _d with
          | JDict d =>
              rest <- tag_hutches output' hutch_cfgs' ;;
              Ret (JDict (dict_set "hutch" (JStr h) d) :: rest)
          | _ => Raise TypeError
          end
      end
  end.

(** The files [find_ioc] reads for a valid hutch code. *)
Definition config_paths (fs : filesystem) (hutch : text) : list text :=
  if text_eqb hutch "all" then glob_configs fs
  else [config_root ++ hutch ++ T "/iocmanager.cfg"].

Definition invalid_entry : text :=
  T "Invalid entry. Please choose a valid hutch:" ++ [NL]
  ++ join "," hutch_list.

Definition no_results (patt hutch : text) : text :=
  Fore_RED ++ T "No results found for " ++ Style_RESET_ALL ++ patt
  ++ Fore_RED ++ T " in" ++ Style_RESET_ALL ++ hutch.

Definition find_ioc (fs : filesystem) (hutch patt : option text)
  : io (option (list json)) :=
  let invalid := _ <~ print invalid_entry ;; raise ValueError in
  (* check hutches *)
  match hutch with
  | None => invalid
  | Some hutch =>
      if negb (text_in hutch hutch_list) then invalid
      else
        (* create file paths *)
        let path := config_paths fs hutch in
        (* check patt and generate the regex pattern *)
        match patt with
        | None =>
            _ <~ print "No regex pattern supplied" ;;
            raise ValueError
        | Some patt =>
            let patt := T "{.*" ++ patt ++ T ".*}" in
            (* iterate and capture results *)
            result <~ search_files fs patt (negb (length path =? 1)) path ;;
            (* reconstruct the list of str *)
            let _temp := concat result in
            if length _temp =? 0
            then _ <~ print (no_results patt hutch) ;; io_ret None
            else
              (* capture the hutch from the cfg path if hutch = all *)
              hutch_cfgs <~ lift
                (if text_eqb hutch "all"
                 then l <- re_findall "/.*cfg\:" _temp ;;
                      mapM (fun s => r <- re_findall "(?<=/)\w+(?=/ioc)" s ;;
                                     Ret (concat r)) l
                 else Ret []) ;;
              (* strip the file information *)
              _temp <~ lift (re_sub ".*cfg\:" "" _temp) ;;
              (* now convert back to json and load *)
              lines <~ lift (fix_json _temp) ;;
              output <~ lift (mapM json_loads lines) ;;
              (* and add the hutches back into the dicts *)
              if text_eqb hutch "all"
              then output <~ lift (tag_hutches output hutch_cfgs) ;;
                   io_ret (Some output)
              else io_ret (Some output)
        end
  end.

(** ** [fix_dir] *)

Definition fix_dir (dir_path : text) : result text :=
  let output_dir :=
    if startswith "ioc/" dir_path
    then T "/cds/group/pcds/epics/" ++ dir_path
    else if contains "common" dir_path
         then dir_path ++ T "/children"
         else dir_path in
  c <- last_char output_dir ;;
  if negb (Ascii.eqb c "/"%char) then Ret (output_dir ++ T "/")
  else Ret output_dir.


(** ** [acquire_aliases] *)

Record pair : Type := { record : text; alias : text }.

(** What [acquire_aliases] returns: the empty string when the script is
    missing, the pairs otherwise. *)
Inductive aliases : Type :=
| NoScript
| Pairs (l : list pair).

(** [s[0]] *)
Definition first_field (s : list text) : result text :=
  match s with
  | f :: _ => Ret f
  | [] => Raise IndexError
  end.

(** [s[-1]] *)
Definition last_field (s : list text) : result text :=
  match rev s with
  | f :: _ => Ret f
  | [] => Raise IndexError
  end.

Definition record_pattern : text := DQ :: T "RECORD=.*" ++ [DQ].
Definition punctuation_pattern : text :=
  T "\" ++ DQ :: T "|\)|RECORD\=|ALIAS\=".

Definition acquire_aliases (fs : filesystem) (dir_path ioc : text)
  : io aliases :=
  _d <~ lift (fix_dir dir_path) ;;
  let _f := _d ++ T "build/iocBoot/" ++ ioc ++ T "/st.cmd" in
  if negb (isfile fs _f)
  then _ <~ print (_f ++ T " does not exist") ;; io_ret NoScript
  else
    search_result <~ search_file fs _f "db/alias.db" [] None ;;
    _temp <~ lift (re_findall record_pattern search_result) ;;
    output <~ lift (mapM (fun s => r <- re_sub punctuation_pattern [] s ;;
                                   Ret (split_on "," r)) _temp) ;;
    l <~ lift (mapM (fun s => r <- first_field s ;;
                              a <- last_field s ;;
                              Ret {| record := r; alias := a |}) output) ;;
    io_ret (Pairs l).

(** ** [process_alias_template] *)

Definition process_alias_template (fs : filesystem)
    (parent_release record alias : text) : io (option (list (list text))) :=
  let _target_file := parent_release ++ T "/db/alias.db" in
  match read_file fs _target_file with
  | None =>
      _ <~ print (parent_release ++ T " does not exist") ;; io_ret None
  | Some _temp =>
      (* remove the 'alias' prefix from the tuple *)
      _temp <~ lift (re_sub "alias\(| +" [] _temp) ;;
      _temp <~ lift (re_sub "\)\s*\n" [NL] _temp) ;;
      (* then make the substitutions *)
      _temp <~ lift (re_sub "\$\(RECORD\)" record _temp) ;;
      _temp <~ lift (re_sub "\$\(ALIAS\)" alias _temp) ;;
      io_ret (Some (map (fun s => split_on "," (replace [DQ] [] s))
                      (split_ws _temp)))
  end.

(** ** [find_parent_ioc] *)

(** The text before and after the last [sep] of [s], when there is one. *)
Fixpoint rpartition (sep : ascii) (s : text) : option (text * text) :=
  match s with
  | [] => None
  | c :: s' =>
      match rpartition sep s' with
      | Some (h, t) => Some (c :: h, t)
      | None => if Ascii.eqb c sep then Some ([], s') else None
      end
  end.

(** [s.rsplit(sep, maxsplit=1)] for a one-character separator. *)
Definition rsplit1 (sep : ascii) (s : text) : list text :=
  match rpartition sep s with
  | Some (h, t) => [h; t]
  | None => [s]
  end.

Definition find_parent_ioc (fs : filesystem) (file path : text) : io text :=
  file_dir <~ lift (fix_dir path) ;;
  if negb (isfile fs (file_dir ++ file ++ T ".cfg"))
  then io_ret (T "Invalid. Child does not exist.")
  else
    found <~ search_file fs (file_dir ++ file ++ T ".cfg") "^RELEASE" [] None ;;
    let parent_ioc_release := strip found in
    lift (last_field (rsplit1 "=" parent_ioc_release)).

(** ** [clean_ansi]

    The pattern has character sets; a set is the alternation of its
    characters. *)

(** The characters with codes [lo] to [hi]. *)
Definition chars_between (lo hi : nat) : list ascii :=
  map ascii_of_nat (seq lo (S hi - lo)).

(** A pattern that matches nowhere: the empty set. *)
Definition never : regex := Ahead false Eps.

Fixpoint one_of (l : list ascii) : regex :=
  match l with
  | [] => never
  | c :: l' =>
      match l' with
      | [] => Cls (CChar c)
      | _ => Alt (Cls (CChar c)) (one_of l')
      end
  end.

(** The pattern [\x1B(?:[@-Z\\-_]|\[[0-?]*[ -/]*[@-~])]: the first set
    holds the codes 64 to 90 and 92 to 95. *)
Definition ansi_escape : regex :=
  Seq (Cls (CChar ESC))
    (Seq (Alt (Seq (one_of (chars_between 64 90 ++ chars_between 92 95)) Eps)
              (Seq (Cls (CChar "["))
                 (Seq (Star (one_of (chars_between 48 63)))
                    (Seq (Star (one_of (chars_between 32 47)))
                       (Seq (one_of (chars_between 64 126)) Eps)))))
       Eps).

Definition clean_ansi (s : text) : text := sub ansi_escape [] s.

(** ** The prompts

    The standard input is the list of the lines still to be read, each
    without its newline; [input] raises [EOFError] at its end.  A prompt
    yields what it wrote, in order, with its outcome: the value returned and
    the lines left, the end of the input, or an exception. *)

Inductive shown : Type :=
| Asked (prompt : text)
| Printed (line : text).

Inductive reply (A : Type) : Type :=
| Reply (a : A) (stdin : list text)
| EndOfInput
| Failed (e : exn).

Arguments EndOfInput {A}.
Arguments Failed {A} e.

(** [str.lower] on code points below 256. *)
Definition lower_char (c : ascii) : ascii :=
  if in_range 65 90 c || in_range 192 214 c || in_range 216 222 c
  then ascii_of_nat (code c + 32)
  else c.

Definition lower (s : text) : text := map lower_char s.

Definition invalid_choice : text := "Invalid Entry. Please choose again.".

Fixpoint simple_prompt (prompt default : text) (stdin : list text)
  : list shown * reply bool :=
  match stdin with
  | [] => ([Asked prompt], EndOfInput)
  | line :: stdin' =>
      let p := lower (strip line) in
      let p := if text_eqb p [] then lower default else p in
      match p, lower p with
      | c :: _, c' :: _ =>
          if Ascii.eqb c "y" then ([Asked prompt], Reply true stdin')
          else if Ascii.eqb c' "n" then ([Asked prompt], Reply false stdin')
          else
            let r := simple_prompt prompt default stdin' in
            (Asked prompt :: Printed invalid_choice :: fst r, snd r)
      | _, _ => ([Asked prompt], Failed IndexError)
      end
  end.

(** [colorama]'s [Fore.LIGHTYELLOW_EX]. *)
Definition Fore_LIGHTYELLOW_EX : text := ESC :: T "[93m".

(** The loop of [request_file_dest].  Every round reads two lines or more;
    the fuel is above the number of lines, never exhausted. *)
Fixpoint request_file_dest_loop (fuel : nat) (prompt default : text)
    (stdin : list text) : list shown * reply text :=
  match fuel with
  | O => ([], Failed OutOfModel)
  | S fuel' =>
      let ask := Asked (prompt ++ T "(default = " ++ default ++ T "): ") in
      match stdin with
      | [] => ([ask], EndOfInput)
      | p :: stdin' =>
          (* Check for default *)
          let result := if text_eqb p [] then default else p in
          let confirm :=
            simple_prompt
              (T "Is " ++ Fore_LIGHTYELLOW_EX ++ result ++ T " "
               ++ Style_RESET_ALL ++ T "correct? (y/N): ") "N" stdin' in
          match snd confirm with
          | Reply true rest => (ask :: fst confirm, Reply result rest)
          | Reply false rest =>
              let r := request_file_dest_loop fuel' prompt default rest in
              (ask :: fst confirm ++ fst r, snd r)
          | EndOfInput => (ask :: fst confirm, EndOfInput)
          | Failed e => (ask :: fst confirm, Failed e)
          end
      end
  end.

Definition request_file_dest (prompt default : text) (stdin : list text)
  : list shown * reply text :=
  request_file_dest_loop (S (length stdin)) prompt default stdin.

(** * Statements

    ** Vocabulary of the statements *)

(** A text written with ['] where it has a double quote. *)
Definition dq (s : text) : text :=
  map (fun c => if Ascii.eqb c "'" then DQ else c) s.

(** A path with a trailing separator appended when it has none. *)
Definition terminated (s : text) : text :=
  match rev s with
  | c :: _ => if Ascii.eqb c "/" then s else s ++ T "/"
  | [] => s ++ T "/"
  end.

(** A hutch code [find_ioc] accepts. *)
Definition valid_hutch (hutch : option text) : bool :=
  match hutch with
  | Some h => text_in h hutch_list
  | None => false
  end.

(** Some character of [s] that satisfies [p] is immediately followed by
    one that satisfies [q]. *)
Fixpoint has_pair (p q : ascii -> bool) (s : text) : bool :=
  match s with
  | [] => false
  | a :: s' =>
      (p a && match s' with b :: _ => q b | [] => false end)
      || has_pair p q s'
  end.

Definition is_char (c : ascii) : ascii -> bool := Ascii.eqb c.


(** The pattern of a literal word. *)
Fixpoint lit (w : text) : regex :=
  match w with
  | [] => Eps
  | c :: w' => Seq (Cls (CChar c)) (lit w')
  end.

(** [r+] *)
Definition plus (r : regex) : regex := Seq r (Star r).

(** The patterns of [fix_json], parsed: the key pattern
    [(?<!'|\w)\w+(?!')(?=:\s?)] and the digit pattern [(?<=:)\d+]. *)
Definition key_regex : regex :=
  Seq (Behind false (Alt (lit "'") (Seq (Cls CWord) Eps)))
    (Seq (plus (Cls CWord))
       (Seq (Ahead false (lit "'"))
          (Seq (Ahead true (Seq (Cls (CChar ":"))
                              (Seq (Alt (Cls CSpace) Eps) Eps)))
             Eps))).

Definition digit_regex : regex :=
  Seq (Behind true (lit ":")) (Seq (plus (Cls CDigit)) Eps).

(** What follows [\w+] in the key pattern: no quote next, a colon next. *)
Definition colon_ahead (R : Type) (k : cont R) : cont R :=
  fun p s =>
    re_match
      (Seq (Ahead false (lit "'"))
         (Seq (Ahead true (Seq (Cls (CChar ":"))
                             (Seq (Alt (Cls CSpace) Eps) Eps)))
            Eps)) p s k.

(** The pattern of a literal word followed by a pattern. *)
Fixpoint lit_then (w : text) (r : regex) : regex :=
  match w with
  | [] => r
  | c :: w' => Seq (Cls (CChar c)) (lit_then w' r)
  end.

(** The text a piece of a scan stands for. *)
Definition piece_text (p : piece) : text :=
  match p with Copy c => [c] | Match m => m end.

(** No character of [s] is [c]. *)
Definition no_char (c : ascii) (s : text) : bool :=
  forallb (fun x => negb (Ascii.eqb x c)) s.

(** One round of the star of [.]. *)
Definition any_step (R : Type) : text -> text -> cont R -> option R :=
  fun p s k' => re_match (Cls CAny) p s k'.

(** ** Startup scripts

    The patterns of [acquire_aliases], parsed: [db/alias.db], the record
    pattern (a double quote, [RECORD=.*], a double quote) and the pattern of
    what is stripped from a clause (the double quote, [\)], [RECORD\=],
    [ALIAS\=]). *)
Definition alias_db_regex : regex :=
  lit_then "db/alias" (Seq (Cls CAny) (lit "db")).

Definition record_word : text := DQ :: T "RECORD=".

Definition record_regex : regex :=
  lit_then record_word (Seq (Star (Cls CAny)) (lit [DQ])).

Definition punctuation_regex : regex :=
  Alt (lit [DQ]) (Alt (lit ")") (Alt (lit "RECORD=") (lit "ALIAS="))).

(** A value of a clause: no double quote, closing parenthesis, comma or
    newline in it, and neither marker. *)
Definition value_char (c : ascii) : bool :=
  negb (Ascii.eqb c DQ || Ascii.eqb c ")" || Ascii.eqb c "," || Ascii.eqb c NL).

Definition value (v : text) : bool :=
  forallb value_char v && negb (contains "RECORD=" v)
  && negb (contains "ALIAS=" v).

(** A line of a startup script: a line [db/alias.db] is not found in, or a
    line that loads the alias database, with the text before its clause,
    the values of the clause and the text after it. *)
Inductive script_line : Type :=
| Other (l : text)
| Load (before first : text) (middle : list text) (last after : text).

Definition with_comma (v : text) : text := ","%char :: v.

(** Fields with commas between them. *)
Definition fields_text (first : text) (more : list text) : text :=
  first ++ concat (map with_comma more).

(** The quoted clause [RECORD=<first>,<middle>...,ALIAS=<last>]. *)
Definition clause (first : text) (middle : list text) (last : text) : text :=
  DQ :: T "RECORD=" ++ fields_text first (middle ++ [T "ALIAS=" ++ last])
  ++ [DQ].

(** The text of a script line without its newline, and with it. *)
Definition line_body (l : script_line) : text :=
  match l with
  | Other l => l
  | Load b f m l a => b ++ clause f m l ++ a
  end.

Definition script_text (l : script_line) : text :=
  match l with
  | Other l => l ++ [NL]
  | Load b f m l a => b ++ clause f m l ++ a ++ [NL]
  end.

(** A line of the first kind has no newline inside and [db/alias.db] is
    not found in it.  In a line of the second kind [db/alias.db] is found;
    the text before the clause has no newline and no double quote right
    before an [R]; the fields are values; the text after the clause has no
    newline and no double quote. *)
Definition well_formed (l : script_line) : bool :=
  match l with
  | Other l => no_char NL l && negb (search alias_db_regex (l ++ [NL]))
  | Load b f m l a =>
      search alias_db_regex (script_text (Load b f m l a))
      && no_char NL b && negb (has_pair (is_char DQ) (is_char "R") b)
      && value f && forallb value m && value l
      && no_char NL a && no_char DQ a
  end.

Definition is_load (l : script_line) : bool :=
  match l with Load _ _ _ _ _ => true | Other _ => false end.

(** The clauses of a script, their fields, and the pairs of their first
    and last values, in the order of the lines. *)
Definition clauses (s : list script_line) : list text :=
  flat_map (fun l => match l with
                     | Other _ => []
                     | Load _ f m l _ => [clause f m l]
                     end) s.

Definition fields_of (s : list script_line) : list (list text) :=
  flat_map (fun l => match l with
                     | Other _ => []
                     | Load _ f m l _ => [f :: m ++ [l]]
                     end) s.

Definition pairs_of (s : list script_line) : list pair :=
  flat_map (fun l => match l with
                     | Other _ => []
                     | Load _ f _ l _ => [ {| record := f; alias := l |} ]
                     end) s.

(** What [re.sub] with the empty replacement leaves of a text from a
    position on, for the pattern of the stripped punctuation. *)
Definition out (pre s : text) : text :=
  rewrite [] (scan punctuation_regex 0 pre s).

(** ** Alias templates *)

(** [re.sub] turns [s] into [s'], whatever precedes [s]. *)
Definition rewrites (r : regex) (t : list titem) (s s' : text) : Prop :=
  forall pre, rewrite t (scan r 0 pre s) = s'.

(** The text is empty or its first character satisfies [p]. *)
Definition starts (p : ascii -> bool) (s : text) : bool :=
  match s with
  | [] => true
  | c :: _ => p c
  end.

(** The patterns of [process_alias_template], parsed. *)
Definition wrapper_regex : regex :=
  Alt (lit "alias(") (Seq (plus (Cls (CChar " "))) Eps).
Definition closing_regex : regex :=
  lit_then ")" (Seq (Star (Cls CSpace)) (lit [NL])).

(** A piece of a template field: a plain character or a placeholder. *)
Inductive token : Type :=
| Plain (c : ascii)
| RecordTok
| AliasTok.

Definition plain (c : ascii) : bool :=
  negb (is_space c || Ascii.eqb c "," || Ascii.eqb c "(" || Ascii.eqb c ")"
        || Ascii.eqb c "$" || Ascii.eqb c "\" || Ascii.eqb c DQ).

Definition token_ok (k : token) : bool :=
  match k with
  | Plain c => plain c
  | _ => true
  end.

Definition field : Type := list token.

(** An entry of a template: the field of the PV name and the further
    fields, each with the number of blanks before it. *)
Record entry : Type := { pv : field; others : list (nat * field) }.

Definition entry_ok (e : entry) : bool :=
  match pv e with [] => false | _ => true end
  && forallb token_ok (pv e)
  && forallb (fun o => forallb token_ok (snd o)) (others e).

Section Render.
Variable pfx : text.
Variable gap : nat -> text.
Variable tok : token -> text.
Variable sfx : text.

Definition rfield (f : field) : text := concat (map tok f).

Definition rother (o : nat * field) : text :=
  ","%char :: gap (fst o) ++ rfield (snd o).

Definition rothers (l : list (nat * field)) : text :=
  concat (map rother l).

Definition rentry (e : entry) : text :=
  pfx ++ rfield (pv e) ++ rothers (others e) ++ sfx ++ [NL].

Definition rtext (l : list entry) : text := concat (map rentry l).
End Render.

Definition blanks (n : nat) : text := repeat " "%char n.
Definition no_gap (n : nat) : text := [].

Definition placeholder (k : token) : text :=
  match k with
  | Plain c => [c]
  | RecordTok => "$(RECORD)"
  | AliasTok => "$(ALIAS)"
  end.

(** A token with the record, then also the alias, put in. *)
Definition with_record (record : text) (k : token) : text :=
  match k with
  | RecordTok => record
  | _ => placeholder k
  end.

Definition expand_token (record alias : text) (k : token) : text :=
  match k with
  | Plain c => [c]
  | RecordTok => record
  | AliasTok => alias
  end.

(** The text of a template file. *)
Definition template_text : list entry -> text :=
  rtext "alias(" blanks placeholder ")".

(** The fields of an entry with the record and the alias put in. *)
Definition expand_entry (record alias : text) (e : entry) : list text :=
  rfield (expand_token record alias) (pv e)
  :: map (fun o => rfield (expand_token record alias) (snd o)) (others e).

(** One round of the star of a blank, and of [\s]. *)
Definition blank_step (R : Type) : text -> text -> cont R -> option R :=
  fun p s k' => re_match (Cls (CChar " ")) p s k'.

Definition space_step (R : Type) : text -> text -> cont R -> option R :=
  fun p s k' => re_match (Cls CSpace) p s k'.

(** The line of an entry after the four substitutions. *)
Definition entry_body (record alias : text) (e : entry) : text :=
  fields_text (rfield (expand_token record alias) (pv e))
    (map (fun o => rfield (expand_token record alias) (snd o)) (others e)).

(** *** Searching files *)

(** The lines of a file, none when it is missing. *)
Definition file_lines (fs : filesystem) (file : text) : list text :=
  match read_file fs file with
  | Some content => readlines content
  | None => []
  end.

(** The prefix [find_ioc] gives to the lines of a file. *)
Definition line_prefix (several : bool) (file : text) : text :=
  if several then file ++ T ":" else [].

(** The files of a list that are missing. *)
Definition missing (fs : filesystem) (path : list text) : list text :=
  filter (fun f => negb (isfile fs f)) path.

(** The pattern [^RELEASE], parsed. *)
Definition release_regex : regex := Seq Bol (lit "RELEASE").

(** A text that does not end in white space. *)
Definition ends_clean (s : text) : bool :=
  match rev s with
  | c :: _ => negb (is_space c)
  | [] => true
  end.

(** *** Coloured text *)

(** A control sequence: escape, bracket, parameters, final character. *)
Definition csi (params : text) (final : ascii) : text :=
  ESC :: "["%char :: params ++ [final].

(** One round of the star of a character set. *)
Definition set_step (l : list ascii) (R : Type)
  : text -> text -> cont R -> option R :=
  fun p s k' => re_match (one_of l) p s k'.

(** A piece of coloured text: plain text, or a control sequence. *)
Inductive ansi_piece : Type :=
| Shown (s : text)
| Control (params : text) (final : ascii).

Definition ansi_text (p : ansi_piece) : text :=
  match p with
  | Shown s => s
  | Control params final => csi params final
  end.

Definition shown_text (p : ansi_piece) : text :=
  match p with
  | Shown s => s
  | Control _ _ => []
  end.

(** Plain text has no escape character; the parameters of a control
    sequence are in [0-?] and its final character in [@-~]. *)
Definition ansi_piece_ok (p : ansi_piece) : bool :=
  match p with
  | Shown s => no_char ESC s
  | Control params final =>
      forallb (in_range 48 63) params && in_range 64 126 final
  end.

(** [s] is [s'] with control sequences put in. *)
Definition coloured (s s' : text) : Prop :=
  exists l,
    forallb ansi_piece_ok l = true
    /\ s = concat (map ansi_text l) /\ s' = concat (map shown_text l).

(** The template [color + r'\g<0>' + reset] of [search_file]. *)
Definition colour_template (color : text) : list titem :=
  map TChar color ++ TWhole :: map TChar Style_RESET_ALL.

(** *** Expanded fields *)

(** A field that holds no quote, no comma and no white space. *)
Definition clean_field (f : text) : bool :=
  forallb (fun c => negb (Ascii.eqb c DQ) && negb (Ascii.eqb c ",")
                    && negb (is_space c)) f.

(** *** Answers to a prompt *)

(** What a line answers with: the line without the white space around it,
    the default when nothing is left. *)
Definition entered (default line : text) : text :=
  match strip line with
  | [] => default
  | s => s
  end.

(** The first letter of [s] is [c], in either case. *)
Definition first_is (c : ascii) (s : text) : bool :=
  match s with
  | x :: _ => Ascii.eqb (lower_char x) c
  | [] => false
  end.

Definition says_yes (default line : text) : bool :=
  first_is "y" (entered default line).

Definition says_no (default line : text) : bool :=
  first_is "n" (entered default line).

(** A line that answers neither yes nor no. *)
Definition undecided (default line : text) : bool :=
  match entered default line with
  | [] => false
  | _ => negb (says_yes default line) && negb (says_no default line)
  end.

(** What [n] refused lines make [simple_prompt] write. *)
Definition retries (prompt : text) (n : nat) : list shown :=
  concat (repeat [Asked prompt; Printed invalid_choice] n).

(** A round of [request_file_dest]: the path typed, the lines the
    confirmation refuses, and the line that answers it. *)
Record round : Type := { typed : text; again : list text; answer : text }.

Definition round_lines (r : round) : list text :=
  typed r :: again r ++ [answer r].

Definition proposal (default : text) (r : round) : text :=
  match typed r with
  | [] => default
  | p => p
  end.

Definition round_ok (yes : bool) (r : round) : bool :=
  forallb (undecided "N") (again r)
  && (if yes then says_yes "N" (answer r) else says_no "N" (answer r)).

(** *** Inside and outside the strings of a JSON text *)

(** Where a position of a JSON text stands: outside the strings, inside
    one, or inside one right after a backslash. *)
Inductive lexical : Type :=
| Outside
| Inside
| Escaped.

(** Where one stands after a character. *)
Definition lexical_step (st : lexical) (c : ascii) : lexical :=
  match st with
  | Outside => if Ascii.eqb c DQ then Inside else Outside
  | Inside =>
      if Ascii.eqb c DQ then Outside
      else if Ascii.eqb c "\" then Escaped else Inside
  | Escaped => Inside
  end.

(** The first character of [s], if any, satisfies [p]. *)
Definition first_in (p : ascii -> bool) (s : text) : bool :=
  match s with
  | x :: _ => p x
  | [] => false
  end.

(** The first character of [s] is [c]. *)
Definition head_is (c : ascii) (s : text) : bool :=
  first_in (fun x => Ascii.eqb x c) s.

(** A blank followed by a brace stands inside a string. *)
Fixpoint blank_brace_in_string (st : lexical) (s : text) : bool :=
  match s with
  | [] => false
  | c :: s' =>
      match st with
      | Outside => false
      | _ => Ascii.eqb c " " && head_is "{" s'
      end
      || blank_brace_in_string (lexical_step st c) s'
  end.

(** [tidied st t t']: [t'] is [t] without some blanks that stand before a
    brace outside the strings, and without white space at its end. *)
Inductive tidied : lexical -> text -> text -> Prop :=
| tidied_end st t : forallb is_space t = true -> tidied st t []
| tidied_keep st c t t' :
    tidied (lexical_step st c) t t' -> tidied st (c :: t) (c :: t')
| tidied_brace t t' :
    tidied Outside t t' ->
    tidied Outside (" "%char :: "{"%char :: t) ("{"%char :: t').

(** [thinned t t']: [t'] is [t] without some of its blanks. *)
Inductive thinned : text -> text -> Prop :=
| thinned_nil : thinned [] []
| thinned_keep c t t' : thinned t t' -> thinned (c :: t) (c :: t')
| thinned_drop t t' : thinned t t' -> thinned (" "%char :: t) t'.

(** The characters of [str.isspace] below 256. *)
Definition space_chars : list ascii :=
  map ascii_of_nat [9; 10; 11; 12; 13; 28; 29; 30; 31; 32; 133; 160].

(** The number after its sign, as [json_number] reads it. *)
Definition json_unsigned (sign : Z) (s : text) : result (json * text) :=
  match s with
  | d :: s' =>
      if Ascii.eqb d "0"%char
      then if float_follows s' then Raise OutOfModel
           else Ret (JInt 0, s')
      else if is_digit d
      then let r := digits 0 s in
           if float_follows (snd r) then Raise OutOfModel
           else Ret (JInt (sign * fst r), snd r)
      else if startswith "Infinity" s then Raise OutOfModel
      else Raise JSONDecodeError
  | [] => Raise JSONDecodeError
  end.

(** The conditions under which [fix_json] changes what a document says:
    a word character right before a colon, a digit right after one, [True],
    [False], ['], [},], a blank before a brace inside a string, a newline
    inside the document. *)
Definition conditions (t : text) : list bool :=
  [ has_pair is_word (is_char ":") t;
    has_pair (is_char ":") is_digit t;
    contains "True" t;
    contains "False" t;
    contains "'" t;
    contains "}," t;
    blank_brace_in_string Outside t;
    contains [NL] (strip t) ].

(** ** Sample inputs *)

(** An inventory line with a space after the colons, as [iocmanager.cfg]
    has them. *)
Definition spaced_line : text := "{id: 'ioc-a', port: 30001}".

(** The same line without white space. *)
Definition dense_line : text := "{id:'ioc-a',port:30001}".

(** A valid JSON document with a number in it. *)
Definition json_with_number : text := dq "{'a':1}".

(** A valid JSON document, nested, with a blank before its braces and a
    newline at its end. *)
Definition json_laid_out : text :=
  dq " {'id': {'host': 'ioc-a', 'up': true}}" ++ [NL].

(** Valid JSON documents, one for each condition under which [fix_json]
    changes what a document says. *)
Definition json_colon_key : text := dq "{'a:b':'c'}".
Definition json_true_word : text := dq "{'a':'True'}".
Definition json_false_word : text := dq "{'a':'False'}".
Definition json_apostrophe : text := dq "{'a':'it" ++ T "'" ++ dq "s'}".
Definition json_two_objects : text := dq "[{'a':'b'},{'c':'d'}]".
Definition json_blank_brace : text := dq "{'a':' {'}".
Definition json_two_lines : text := dq "{'a':" ++ [NL] ++ dq "'b'}".

Definition xpp_cfg : text := "/cds/group/pcds/pyps/config/xpp/iocmanager.cfg".
Definition xcs_cfg : text := "/cds/group/pcds/pyps/config/xcs/iocmanager.cfg".

(** Two inventories; the last line of the first has no newline. *)
Definition two_hutches : filesystem :=
  [ (xpp_cfg, T "{id:'a'}");
    (xcs_cfg, T "{id:'b'}" ++ [NL]) ].

(** Two inventories of lines that end in a newline. *)
Definition two_hutches_terminated : filesystem :=
  [ (xpp_cfg, T "{id:'a'}" ++ [NL]);
    (xcs_cfg, T "{id:'b'}" ++ [NL]) ].

(** One inventory only. *)
Definition one_hutch : filesystem :=
  [ (xpp_cfg, T "{id:'a'}" ++ [NL]) ].

(** One inventory whose only line ends in [cfg:]. *)
Definition cfg_line_hutch : filesystem :=
  [ (xpp_cfg, T "{id}cfg:") ].

(** A startup script with the record clause of the design document. *)
Definition st_cmd : text :=
  T "dbLoadRecords(" ++ dq "'db/alias.db', " ++
  dq "'RECORD=LM1K2:MCS2:01:m1,ALIAS=LM2K2:INJ_MP1_MR1'" ++ T ")" ++ [NL].

(** The same script, line by line. *)
Definition st_cmd_lines : list script_line :=
  [ Load (T "dbLoadRecords(" ++ dq "'db/alias.db', ")
      "LM1K2:MCS2:01:m1" [] "LM2K2:INJ_MP1_MR1" ")" ].

Definition child_release : filesystem :=
  [ (T "/r/build/iocBoot/ioc1/st.cmd", st_cmd) ].

(** The same script with a quoted remark after the clause. *)
Definition st_cmd_remark : text :=
  T "dbLoadRecords(" ++ dq "'db/alias.db', " ++
  dq "'RECORD=LM1K2:MCS2:01:m1,ALIAS=LM2K2:INJ_MP1_MR1'" ++ T ") # " ++
  dq "'motor 1'" ++ [NL].

Definition remark_release : filesystem :=
  [ (T "/r/build/iocBoot/ioc1/st.cmd", st_cmd_remark) ].

(** A script with two clauses on one line. *)
Definition st_cmd_two_clauses : text :=
  T "dbLoadRecords(" ++ dq "'db/alias.db', 'RECORD=A,ALIAS=B'" ++
  T "); dbLoadRecords(" ++ dq "'db/alias.db', 'RECORD=C,ALIAS=D'" ++
  T ")" ++ [NL].

Definition two_clauses_release : filesystem :=
  [ (T "/r/build/iocBoot/ioc1/st.cmd", st_cmd_two_clauses) ].

(** The template line of the design document, field by field. *)
Definition doc_template : list entry :=
  [ {| pv := [RecordTok];
       others := [ (1, RecordTok :: map Plain (T ".RBV"));
                   (1, AliasTok :: map Plain (T ".RBV")) ] |} ].

(** A parent release whose template is the line of the design document. *)
Definition parent_release : filesystem :=
  [ (T "/p/db/alias.db",
     T "alias($(RECORD), $(RECORD).RBV, $(ALIAS).RBV)" ++ [NL]) ].

(** The same template, its line not ended by a newline. *)
Definition unterminated_release : filesystem :=
  [ (T "/p/db/alias.db",
     T "alias($(RECORD), $(RECORD).RBV, $(ALIAS).RBV)") ].

(** A template line with a tab after its comma. *)
Definition tabbed_release : filesystem :=
  [ (T "/p/db/alias.db",
     T "alias($(RECORD)," ++ [ascii_of_nat 9] ++ T "$(ALIAS))" ++ [NL]) ].

(** A child configuration that points to its parent's release. *)
Definition release_line : text :=
  T "RELEASE = /reg/g/pcds/epics/ioc/common/smaract/R1.0.20" ++ [NL].

Definition child_cfg : filesystem :=
  [ (T "/r/ioc1.cfg", release_line ++ T "ENGINEER = someone" ++ [NL]) ].

(** A column header as [main] colours it. *)
Definition coloured_header : list ansi_piece :=
  [ Control "93" "m"; Shown "parent_ioc"; Control "0" "m" ].

(** Two parsed inventory records, and their hutches. *)
Definition two_records : list (list (text * json)) :=
  [ [ (T "id", JStr "a") ]; [ (T "id", JStr "b"); (T "hutch", JStr "?") ] ].

(** A first proposal that is refused, then the default, confirmed after a
    refused answer. *)
Definition refused_round : round :=
  {| typed := "/tmp/a"; again := []; answer := "no" |}.

Definition confirmed_round : round :=
  {| typed := []; again := [T "maybe"]; answer := " Yes" |}.

(** * Proofs

    ** The path resolver *)

Lemma last_char_app (s : text) (c : ascii) : last_char (s ++ [c]) = Ret c.
Proof. unfold last_char. now rewrite rev_app_distr. Qed.

Lemma terminate_nonempty (o : text) :
  o <> [] ->
  (c <- last_char o ;;
   if negb (Ascii.eqb c "/") then Ret (o ++ T "/") else Ret o)
  = Ret (terminated o).
Proof.
  intros Ho. unfold last_char, terminated.
  destruct (rev o) as [|c t] eqn:E.
  - apply (f_equal (@rev ascii)) in E. rewrite rev_involutive in E.
    now elim Ho.
  - simpl. now destruct (Ascii.eqb c "/").
Qed.

Lemma terminated_last (o : text) : last_char (terminated o) = Ret "/"%char.
Proof.
  unfold terminated. destruct (rev o) as [|c t] eqn:E.
  - apply last_char_app.
  - destruct (Ascii.eqb_spec c "/") as [->|_].
    + unfold last_char. now rewrite E.
    + apply last_char_app.
Qed.

Lemma fix_dir_short_form (s : text) :
  startswith "ioc/" s = true ->
  fix_dir s = Ret (terminated (T "/cds/group/pcds/epics/" ++ s)).
Proof.
  intros H. unfold fix_dir. rewrite H. now apply terminate_nonempty.
Qed.

Lemma fix_dir_common (s : text) :
  startswith "ioc/" s = false -> contains "common" s = true ->
  fix_dir s = Ret (terminated (s ++ T "/children")).
Proof.
  intros H1 H2. unfold fix_dir. rewrite H1, H2. apply terminate_nonempty.
  now destruct s.
Qed.

Lemma fix_dir_other (s : text) :
  startswith "ioc/" s = false -> contains "common" s = false -> s <> [] ->
  fix_dir s = Ret (terminated s).
Proof.
  intros H1 H2 H3. unfold fix_dir. rewrite H1, H2.
  now apply terminate_nonempty.
Qed.

(** On every path that is not empty the path resolver applies its rules in
    order and the first that applies wins: a path that starts with [ioc/]
    gets the release root in front; otherwise a path that contains [common]
    gets [/children] behind; otherwise the path is kept; and a trailing [/]
    is appended when there is none.  The three paths of the design document
    resolve as it says. *)
Lemma fix_dir_rules :
  (forall s : text,
      startswith "ioc/" s = true ->
      fix_dir s = Ret (terminated (T "/cds/group/pcds/epics/" ++ s)))
  /\ (forall s : text,
      startswith "ioc/" s = false -> contains "common" s = true ->
      fix_dir s = Ret (terminated (s ++ T "/children")))
  /\ (forall s : text,
      startswith "ioc/" s = false -> contains "common" s = false ->
      s <> [] ->
      fix_dir s = Ret (terminated s))
  /\ fix_dir "ioc/foo" = Ret (T "/cds/group/pcds/epics/ioc/foo/")
  /\ fix_dir "/a/common/b" = Ret (T "/a/common/b/children/")
  /\ fix_dir "/a/b/" = Ret (T "/a/b/").
Proof.
  split; [exact fix_dir_short_form|].
  split; [exact fix_dir_common|].
  split; [exact fix_dir_other|].
  repeat split.
Qed.

(** The rules of [fix_dir_rules] at three paths, the first of which also
    contains [common]: the first rule wins. *)
Lemma fix_dir_rules_witness :
  fix_dir "ioc/common/x" = Ret (T "/cds/group/pcds/epics/ioc/common/x/")
  /\ fix_dir "/r/common" = Ret (T "/r/common/children/")
  /\ fix_dir "/r/x" = Ret (T "/r/x/").
Proof.
  destruct fix_dir_rules as (H1 & H2 & H3 & _).
  split; [exact (H1 (T "ioc/common/x") eq_refl)|].
  split; [exact (H2 (T "/r/common") eq_refl eq_refl)|].
  refine (H3 (T "/r/x") eq_refl eq_refl _). discriminate.
Defined.

(** Whenever [fix_dir] is given a path that is not empty it returns, and
    what it returns ends in [/]. *)
Lemma fix_dir_nonempty (s : text) :
  s <> [] ->
  exists r, fix_dir s = Ret r /\ last_char r = Ret "/"%char /\ r <> [].
Proof.
  intros Hs.
  assert (H : exists o, fix_dir s = Ret (terminated o)).
  { destruct (startswith "ioc/" s) eqn:H1.
    - eexists. now apply fix_dir_short_form.
    - destruct (contains "common" s) eqn:H2.
      + eexists. now apply fix_dir_common.
      + eexists. now apply fix_dir_other. }
  destruct H as [o Ho]. exists (terminated o).
  split; [exact Ho|]. split; [apply terminated_last|].
  intros E. pose proof (terminated_last o) as L. now rewrite E in L.
Qed.

(** C8.  The empty path starts with no [ioc/] and contains no [common], so
    it is to be kept and given its trailing [/]; the separator is not
    appended: the test on the last character raises [IndexError]. *)
Theorem fix_dir_separator_not_appended :
  startswith "ioc/" [] = false
  /\ contains "common" [] = false
  /\ terminated [] = T "/"
  /\ fix_dir [] = Raise IndexError.
Proof. repeat split. Qed.

(** C9.  On the empty path [fix_dir] does not return: indexing the last
    character of the empty string raises [IndexError]. *)
Theorem fix_dir_empty_raises : fix_dir [] = Raise IndexError.
Proof. reflexivity. Qed.

(** ** The normalizer on concrete inputs *)

(** C10.  On the empty text [fix_json] yields one string, the empty one:
    [''.split('\n')] is [['']]. *)
Theorem fix_json_empty : fix_json [] = Ret [[]].
Proof. reflexivity. Qed.

(** C10 as stated fails: the sequence [fix_json] yields on the empty text
    is not the empty sequence. *)
Lemma fix_json_empty_not_nil : fix_json [] <> Ret [].
Proof. discriminate. Qed.

(** [find_ioc] can hand [fix_json] the empty text: the test for no results
    comes before the file information is stripped.  A matched line that
    ends in [cfg:] is deleted whole by that step, and parsing the empty
    string [fix_json] yields fails. *)
Lemma find_ioc_hands_empty_text :
  re_sub ".*cfg\:" "" "{id}cfg:" = Ret []
  /\ (l <- fix_json [] ;; mapM json_loads l) = Raise JSONDecodeError
  /\ find_ioc cfg_line_hutch (Some (T "xpp")) (Some (T "id"))
     = ([], Raise JSONDecodeError).
Proof. repeat split. Qed.

(** C4.  The text with the blanks removed is computed and dropped: the keys
    are quoted in the raw text.  On a line with blanks the result keeps
    them, and differs from what the rewriting yields on the line without
    blanks. *)
Theorem fix_json_quotes_keys_in_raw_text :
  fix_json spaced_line = Ret [dq "{'id': 'ioc-a', 'port': 30001}"]
  /\ strip (replace " " "" spaced_line) = dense_line
  /\ fix_json dense_line = Ret [dq "{'id':'ioc-a','port':'30001'}"].
Proof. repeat split. Qed.

(** C3.  A line of the dialect with a blank after its colons: the port
    comes back as the number 30001, not as a string. *)
Theorem fix_json_port_stays_number :
  (l <- fix_json spaced_line ;; mapM json_loads l)
  = Ret [JDict [(T "id", JStr "ioc-a"); (T "port", JInt 30001)]].
Proof. reflexivity. Qed.

(** Without the blank the port is a string. *)
Lemma fix_json_port_string_when_dense :
  (l <- fix_json dense_line ;; mapM json_loads l)
  = Ret [JDict [(T "id", JStr "ioc-a"); (T "port", JStr "30001")]].
Proof. reflexivity. Qed.

(** C2 as stated fails, in eight ways.  Each of these valid JSON documents
    parses, and after [fix_json] parses to something else or not at all: a
    number after a colon comes back as a string; a key with a colon in it,
    an apostrophe in a string, a [},] between two objects and a newline
    inside the document break the parse; [True] and [False] in a string
    lose their capital; a blank before a brace in a string is lost. *)
Lemma fix_json_changes_valid_json :
  (json_loads json_with_number = Ret (JDict [(T "a", JInt 1)])
   /\ (l <- fix_json json_with_number ;; mapM json_loads l)
      = Ret [JDict [(T "a", JStr "1")]])
  /\ (json_loads json_colon_key = Ret (JDict [(T "a:b", JStr "c")])
      /\ (l <- fix_json json_colon_key ;; mapM json_loads l)
         = Raise JSONDecodeError)
  /\ (json_loads json_true_word = Ret (JDict [(T "a", JStr "True")])
      /\ (l <- fix_json json_true_word ;; mapM json_loads l)
         = Ret [JDict [(T "a", JStr "true")]])
  /\ (json_loads json_false_word = Ret (JDict [(T "a", JStr "False")])
      /\ (l <- fix_json json_false_word ;; mapM json_loads l)
         = Ret [JDict [(T "a", JStr "false")]])
  /\ (json_loads json_apostrophe = Ret (JDict [(T "a", JStr "it's")])
      /\ (l <- fix_json json_apostrophe ;; mapM json_loads l)
         = Raise JSONDecodeError)
  /\ (json_loads json_two_objects
      = Ret (JList [JDict [(T "a", JStr "b")]; JDict [(T "c", JStr "d")]])
      /\ (l <- fix_json json_two_objects ;; mapM json_loads l)
         = Raise JSONDecodeError)
  /\ (json_loads json_blank_brace = Ret (JDict [(T "a", JStr " {")])
      /\ (l <- fix_json json_blank_brace ;; mapM json_loads l)
         = Ret [JDict [(T "a", JStr "{")]])
  /\ (json_loads json_two_lines = Ret (JDict [(T "a", JStr "b")])
      /\ (l <- fix_json json_two_lines ;; mapM json_loads l)
         = Raise JSONDecodeError).
Proof. repeat split. Qed.

(** Each of the eight documents meets one of the conditions and no other;
    the document with a blank before its braces and a newline at its end
    meets none. *)
Lemma conditions_one_each :
  map conditions
    [ json_colon_key; json_with_number; json_true_word; json_false_word;
      json_apostrophe; json_two_objects; json_blank_brace; json_two_lines;
      json_laid_out ]
  = [ [true; false; false; false; false; false; false; false];
      [false; true; false; false; false; false; false; false];
      [false; false; true; false; false; false; false; false];
      [false; false; false; true; false; false; false; false];
      [false; false; false; false; true; false; false; false];
      [false; false; false; false; false; true; false; false];
      [false; false; false; false; false; false; true; false];
      [false; false; false; false; false; false; false; true];
      [false; false; false; false; false; false; false; false] ].
Proof. reflexivity. Qed.

(** ** The inventory matcher on concrete inputs *)

(** C1.  Two inventories, one line each, the first without a final
    newline: the two prefixed lines run together, one tag is recovered for
    them, the first record is lost with its prefix, and the record of [xcs]
    is tagged [xppxcs]. *)
Theorem find_ioc_misaligned_tags :
  find_ioc two_hutches (Some (T "all")) (Some (T "id"))
  = ([], Ret (Some [JDict [(T "id", JStr "b"); (T "hutch", JStr "xppxcs")]])).
Proof. vm_compute. reflexivity. Qed.

(** When every line ends in a newline the two records are tagged with
    their hutches. *)
Lemma find_ioc_tags_terminated_lines :
  find_ioc two_hutches_terminated (Some (T "all")) (Some (T "id"))
  = ([], Ret (Some [JDict [(T "id", JStr "a"); (T "hutch", JStr "xpp")];
                    JDict [(T "id", JStr "b"); (T "hutch", JStr "xcs")]])).
Proof. vm_compute. reflexivity. Qed.

(** When the glob finds one inventory only, no prefix is written, no tag is
    recovered and the tagging loop raises [IndexError]. *)
Lemma find_ioc_single_inventory :
  find_ioc one_hutch (Some (T "all")) (Some (T "id")) = ([], Raise IndexError).
Proof. vm_compute. reflexivity. Qed.

(** ** The inventory matcher: selector, pattern and the empty result *)

Lemma text_eqb_refl (a : text) : text_eqb a a = true.
Proof.
  induction a as [|c a IH]; simpl; [reflexivity|].
  now rewrite Ascii.eqb_refl.
Qed.

Lemma text_eqb_eq (a b : text) : text_eqb a b = true -> a = b.
Proof.
  revert b. induction a as [|c a IH]; intros [|d b]; simpl; try discriminate.
  - reflexivity.
  - intros H. apply andb_prop in H as [H1 H2].
    apply Ascii.eqb_eq in H1. apply IH in H2. now subst.
Qed.

Lemma search_lines_no_hit (patt repl : text) (r : regex) (lines : list text) :
  re_compile patt = Ret r ->
  (forall line, In line lines -> search r line = false) ->
  search_lines patt repl lines = Ret [].
Proof.
  intros Hc. induction lines as [|line rest IH]; intros H; simpl.
  - reflexivity.
  - unfold re_search. rewrite Hc. simpl.
    rewrite (H line (or_introl eq_refl)).
    apply IH. intros l Hl. apply H. now right.
Qed.

(** A file without a hit yields the bare prefix, a missing file the empty
    text. *)
Lemma search_file_no_hit (fs : filesystem) (file patt prefix : text)
    (r : regex) :
  re_compile patt = Ret r ->
  (forall content line,
      read_file fs file = Some content -> In line (readlines content) ->
      search r line = false) ->
  snd (search_file fs file patt prefix None) = Ret prefix
  \/ snd (search_file fs file patt prefix None) = Ret [].
Proof.
  intros Hc H. unfold search_file.
  destruct (read_file fs file) as [content|] eqn:E.
  - left. erewrite search_lines_no_hit; [|exact Hc|].
    + simpl. now rewrite app_nil_r.
    + intros line Hl. exact (H content line eq_refl Hl).
  - right. reflexivity.
Qed.

Lemma search_files_no_hit (fs : filesystem) (patt : text) (several : bool)
    (r : regex) (path : list text) :
  re_compile patt = Ret r ->
  (forall file content line,
      In file path -> read_file fs file = Some content ->
      In line (readlines content) -> search r line = false) ->
  exists l, snd (search_files fs patt several path) = Ret l /\ concat l = [].
Proof.
  intros Hc. induction path as [|file rest IH]; intros H.
  - exists []. split; reflexivity.
  - destruct IH as (l & Hl & Hnil).
    { intros f c line Hf. apply H. now right. }
    cbn [search_files]. unfold io_bind at 1.
    set (prefix := if several then file ++ T ":" else []).
    destruct (@search_file_no_hit fs file patt prefix r Hc) as [E|E].
    { intros c line. apply H. now left. }
    + rewrite E. unfold io_bind. rewrite Hl. cbn [snd io_ret].
      rewrite text_eqb_refl. exists l. now split.
    + rewrite E. unfold io_bind. rewrite Hl. cbn [snd io_ret].
      destruct (negb (text_eqb [] prefix)).
      * exists ([] :: l). now split.
      * exists l. now split.
Qed.

(** C5.  [find_ioc] raises [ValueError], after the invalid-entry message,
    when the hutch code is missing or unknown; it raises [ValueError]
    whenever no pattern is given, after the no-pattern message when the
    hutch code is valid; and for a valid hutch code and a pattern that
    compiles and is found in no line of the files it reads, it returns
    [None]: neither an exception nor an empty list of records. *)
Theorem find_ioc_selector_pattern_empty :
  (forall fs hutch patt,
      valid_hutch hutch = false ->
      find_ioc fs hutch patt = ([invalid_entry], Raise ValueError))
  /\ (forall fs hutch, snd (find_ioc fs hutch None) = Raise ValueError)
  /\ (forall fs hutch,
      valid_hutch (Some hutch) = true ->
      find_ioc fs (Some hutch) None
      = ([T "No regex pattern supplied"], Raise ValueError))
  /\ (forall fs hutch patt r,
      valid_hutch (Some hutch) = true ->
      re_compile (T "{.*" ++ patt ++ T ".*}") = Ret r ->
      (forall file content line,
          In file (config_paths fs hutch) ->
          read_file fs file = Some content ->
          In line (readlines content) -> search r line = false) ->
      snd (find_ioc fs (Some hutch) (Some patt)) = Ret None).
Proof.
  split; [|split; [|split]].
  - intros fs [h|] patt Hv; [|reflexivity].
    cbn [valid_hutch] in Hv. unfold find_ioc. now rewrite Hv.
  - intros fs [h|]; [|reflexivity].
    unfold find_ioc. now destruct (text_in h hutch_list).
  - intros fs h Hv. cbn [valid_hutch] in Hv. unfold find_ioc. now rewrite Hv.
  - intros fs h patt r Hv Hc H. cbn [valid_hutch] in Hv. unfold find_ioc.
    rewrite Hv. cbn [negb].
    destruct (@search_files_no_hit fs _
                (negb (length (config_paths fs h) =? 1)) r _ Hc H)
      as (l & Hl & Hnil).
    unfold io_bind at 1. rewrite Hl, Hnil. reflexivity.
Qed.

Lemma find_ioc_selector_pattern_empty_witness :
  find_ioc two_hutches_terminated (Some (T "lcls")) (Some (T "id"))
  = ([invalid_entry], Raise ValueError)
  /\ snd (find_ioc two_hutches_terminated None None) = Raise ValueError
  /\ find_ioc two_hutches_terminated (Some (T "xpp")) None
     = ([T "No regex pattern supplied"], Raise ValueError)
  /\ snd (find_ioc two_hutches_terminated (Some (T "all")) (Some (T "port")))
     = Ret None.
Proof.
  destruct find_ioc_selector_pattern_empty as (H1 & H2 & H3 & H4).
  split; [apply H1; reflexivity|].
  split; [apply H2|].
  split; [apply H3; reflexivity|].
  eapply H4; [reflexivity|reflexivity|].
  intros file content line [<-|[<-|[]]] Hr;
    vm_compute in Hr; injection Hr as <-;
    (intros [<-|[]]); reflexivity.
Defined.

(** ** Facts about the scan *)

Lemma rewrite_copy (t : list titem) (s : text) : rewrite t (map Copy s) = s.
Proof. induction s as [|c s IH]; simpl; [reflexivity|now rewrite IH]. Qed.

(** A pattern that matches at no position of a text leaves it alone. *)
Lemma scan_copy_all (r : regex) (suf pre : text) :
  (forall a b, suf = a ++ b -> match_len r false (rev a ++ pre) b = None) ->
  scan r 0 pre suf = map Copy suf.
Proof.
  revert pre. induction suf as [|c suf IH]; intros pre H.
  - pose proof (H [] [] eq_refl) as E. simpl in E. simpl. now rewrite E.
  - pose proof (H [] (c :: suf) eq_refl) as E. simpl in E.
    simpl. rewrite E. f_equal.
    apply IH. intros a b Eab.
    specialize (H (c :: a) b). simpl in H. rewrite <- app_assoc in H.
    apply H. now rewrite Eab.
Qed.

Lemma sub_no_match (r : regex) (t : list titem) (s : text) :
  (forall a b, s = a ++ b -> match_len r false (rev a) b = None) ->
  sub r t s = s.
Proof.
  intros H. unfold sub. rewrite scan_copy_all.
  - apply rewrite_copy.
  - intros a b E. rewrite app_nil_r. now apply H.
Qed.

(** A literal word matches where the text starts with it. *)
Lemma re_match_lit (w : text) (R : Type) (pre suf : text) (k : cont R) :
  re_match (lit w) pre suf k
  = match strip_prefix w suf with
    | Some rest => k (rev w ++ pre) rest
    | None => None
    end.
Proof.
  revert pre suf. induction w as [|c w IH]; intros pre suf; simpl.
  - reflexivity.
  - destruct suf as [|x suf]; [reflexivity|].
    rewrite (Ascii.eqb_sym c x).
    destruct (Ascii.eqb x c) eqn:E; [|reflexivity].
    apply Ascii.eqb_eq in E. subst x.
    rewrite IH. now rewrite <- app_assoc.
Qed.

Lemma has_pair_suffix (p q : ascii -> bool) (a b : text) :
  has_pair p q (a ++ b) = false -> has_pair p q b = false.
Proof.
  induction a as [|x a IH]; [trivial|].
  intros H. apply IH. simpl in H.
  now apply orb_false_elim in H.
Qed.

Lemma has_pair_head (p q : ascii -> bool) (x y : ascii) (s : text) :
  has_pair p q (x :: y :: s) = false -> p x = true -> q y = false.
Proof.
  simpl. intros H Hx. apply orb_false_elim in H as [H _].
  now rewrite Hx in H.
Qed.

Lemma has_pair_middle (p q : ascii -> bool) (a : text) (x y : ascii)
    (s : text) :
  has_pair p q (a ++ x :: y :: s) = false -> p x = true -> q y = false.
Proof.
  intros H Hx. apply has_pair_suffix in H.
  eapply has_pair_head; eassumption.
Qed.

Lemma contains_suffix (w a b : text) :
  contains w (a ++ b) = false -> startswith w b = false.
Proof.
  induction a as [|x a IH]; simpl.
  - destruct b; simpl; intros H; now apply orb_false_elim in H.
  - intros H. apply orb_false_elim in H as [_ H]. now apply IH.
Qed.

(** ** The normalizer on a text whose content none of its rules changes *)

Lemma key_compiles : re_compile "(?<!'|\w)\w+(?!')(?=:\s?)" = Ret key_regex.
Proof. reflexivity. Qed.
Lemma digit_compiles : re_compile "(?<=:)\d+" = Ret digit_regex.
Proof. reflexivity. Qed.

Lemma colon_ahead_fails (R : Type) (k : cont R) (p s : text) :
  (forall s', s <> ":"%char :: s') -> colon_ahead k p s = None.
Proof.
  intros H. unfold colon_ahead. cbn [re_match lit].
  destruct (Bool.eqb false _); [|reflexivity].
  destruct s as [|x s]; [reflexivity|].
  cbn [in_class].
  destruct (Ascii.eqb_spec x ":") as [->|Hx]; [now elim (H s)|].
  reflexivity.
Qed.

Lemma star_word_fails (R : Type) (k : cont R) (fuel : nat) :
  forall (x : ascii) (pre suf : text),
    is_word x = true ->
    has_pair is_word (is_char ":") (x :: suf) = false ->
    star_loop (fun p s k' => re_match (Cls CWord) p s k') fuel (x :: pre) suf
      (colon_ahead k) = None.
Proof.
  induction fuel as [|fuel IH]; intros x pre suf Hx Hp.
  - simpl. apply colon_ahead_fails. intros s' ->.
    pose proof (has_pair_head _ _ _ _ _ Hp Hx) as E. discriminate E.
  - cbn [star_loop re_match].
    assert (Hk : colon_ahead k (x :: pre) suf = None).
    { apply colon_ahead_fails. intros s' ->.
      pose proof (has_pair_head _ _ _ _ _ Hp Hx) as E. discriminate E. }
    destruct suf as [|y suf]; [exact Hk|].
    cbn [in_class]. destruct (is_word y) eqn:Hy; [|exact Hk].
    replace (length suf <? length (y :: suf)) with true
      by (symmetry; apply Nat.ltb_lt; simpl; lia).
    rewrite IH; [exact Hk|exact Hy|].
    now apply (has_pair_suffix _ _ [x]) in Hp.
Qed.

Lemma key_no_match (pre suf : text) :
  has_pair is_word (is_char ":") suf = false ->
  match_len key_regex false pre suf = None.
Proof.
  intros Hp. unfold match_len, key_regex, plus.
  cbn [re_match].
  destruct (Bool.eqb false _); [|reflexivity].
  destruct suf as [|x suf]; [reflexivity|].
  cbn [in_class]. destruct (is_word x) eqn:Hx; [|reflexivity].
  apply (star_word_fails _ (S (length suf)) x pre suf Hx Hp).
Qed.

Lemma digit_no_match (pre suf : text) :
  has_pair (is_char ":") is_digit (rev pre ++ suf) = false ->
  match_len digit_regex false pre suf = None.
Proof.
  intros Hp. unfold match_len, digit_regex, plus.
  cbn [re_match width lit T list_ascii_of_string Nat.add Nat.eqb].
  destruct pre as [|x pre]; [reflexivity|].
  cbn [back in_class re_match].
  destruct (Ascii.eqb_spec x ":") as [->|Hx]; [|reflexivity].
  rewrite Nat.eqb_refl. cbn [is_some Bool.eqb].
  destruct suf as [|d suf]; [reflexivity|]. cbn [in_class].
  simpl rev in Hp. rewrite <- app_assoc in Hp. simpl in Hp.
  rewrite (has_pair_middle _ _ _ _ _ _ Hp); [reflexivity|].
  apply Ascii.eqb_refl.
Qed.

Lemma lit_no_match (w pre suf : text) :
  startswith w suf = false -> match_len (lit w) false pre suf = None.
Proof.
  unfold match_len, startswith. rewrite re_match_lit.
  now destruct (strip_prefix w suf).
Qed.

Lemma sub_lit_absent (w : text) (t : list titem) (s : text) :
  contains w s = false -> sub (lit w) t s = s.
Proof.
  intros H. apply sub_no_match. intros a b ->.
  apply lit_no_match. now apply contains_suffix with a.
Qed.

Lemma replace_fuel_absent (old new : text) (fuel : nat) (s : text) :
  contains old s = false -> replace_fuel fuel old new s = s.
Proof.
  revert s. induction fuel as [|fuel IH]; intros s H; [reflexivity|].
  destruct s as [|c s]; [reflexivity|].
  cbn [replace_fuel].
  pose proof (contains_suffix old [] (c :: s) H) as Hs.
  unfold startswith in Hs.
  destruct (strip_prefix old (c :: s)); [discriminate|].
  f_equal. apply IH. simpl in H. now apply orb_false_elim in H.
Qed.

Lemma replace_absent (old new s : text) :
  contains old s = false -> replace old new s = s.
Proof. apply replace_fuel_absent. Qed.

Lemma split_on_absent (sep : ascii) (s : text) :
  contains [sep] s = false -> split_on sep s = [s].
Proof.
  induction s as [|c s IH]; [reflexivity|].
  intros H. simpl in H. apply orb_false_elim in H as [H1 H2].
  simpl. unfold startswith in H1. simpl in H1.
  rewrite (Ascii.eqb_sym c sep).
  destruct (Ascii.eqb sep c); [discriminate|].
  now rewrite IH.
Qed.

Lemma re_sub_unchanged (pattern repl s : text) (r : regex) (t : list titem) :
  re_compile pattern = Ret r -> parse_template repl = Ret t ->
  sub r t s = s -> re_sub pattern repl s = Ret s.
Proof. intros Hr Ht Hs. unfold re_sub. rewrite Hr, Ht. simpl. now rewrite Hs. Qed.

(** The rules that rewrite the content leave the text alone; the layout
    rules are left. *)
Lemma fix_json_layout (t : text) :
  has_pair is_word (is_char ":") t = false ->
  has_pair (is_char ":") is_digit t = false ->
  contains "True" t = false ->
  contains "False" t = false ->
  contains "'" t = false ->
  contains "}," t = false ->
  fix_json t = Ret (split_on NL (strip (replace " {" "{" t))).
Proof.
  intros Hkey Hdig Htrue Hfalse Hq Hbrace.
  unfold fix_json.
  rewrite (@re_sub_unchanged _ _ t key_regex [TChar "'"; TWhole; TChar "'"]);
    [|reflexivity|reflexivity|].
  2:{ apply sub_no_match. intros a b ->. apply key_no_match.
      now apply has_pair_suffix with a. }
  cbn [bind].
  rewrite (@re_sub_unchanged _ _ t (lit "True") (map TChar (T "true")));
    [|reflexivity|reflexivity|now apply sub_lit_absent].
  cbn [bind].
  rewrite (@re_sub_unchanged _ _ t (lit "False") (map TChar (T "false")));
    [|reflexivity|reflexivity|now apply sub_lit_absent].
  cbn [bind].
  rewrite (@re_sub_unchanged _ _ t digit_regex [TChar "'"; TWhole; TChar "'"]);
    [|reflexivity|reflexivity|].
  2:{ apply sub_no_match. intros a b ->. apply digit_no_match.
      now rewrite rev_involutive. }
  cbn [bind].
  now rewrite (@replace_absent _ _ _ Hq), (@replace_absent _ _ _ Hbrace).
Qed.

(** ** The scan, piece by piece *)

Lemma scan_skip (r : regex) (m pre suf : text) :
  scan r (length m) pre (m ++ suf) = scan r 0 (rev m ++ pre) suf.
Proof.
  revert pre. induction m as [|c m IH]; intros pre; [reflexivity|].
  simpl. rewrite IH. now rewrite <- app_assoc.
Qed.

Lemma scan_copy (r : regex) (c : ascii) (pre suf : text) :
  match_len r false pre (c :: suf) = None ->
  scan r 0 pre (c :: suf) = Copy c :: scan r 0 (c :: pre) suf.
Proof. intros H. simpl. now rewrite H. Qed.

Lemma scan_match (r : regex) (m pre suf : text) :
  m <> [] ->
  match_len r false pre (m ++ suf) = Some (length m) ->
  scan r 0 pre (m ++ suf) = Match m :: scan r 0 (rev m ++ pre) suf.
Proof.
  destruct m as [|c m]; [now intros []|]. intros _ H.
  change ((c :: m) ++ suf) with (c :: (m ++ suf)) in *.
  cbn [scan]. rewrite H. cbn [length].
  rewrite scan_skip. cbn [rev]. rewrite <- app_assoc.
  f_equal. f_equal. cbn [firstn]. f_equal.
  rewrite firstn_app, Nat.sub_diag, firstn_all. simpl. apply app_nil_r.
Qed.

(** A stretch of text in which the pattern matches nowhere is copied. *)
Lemma scan_copy_prefix (r : regex) (seg pre rest : text) :
  (forall a b, seg = a ++ b -> b <> [] ->
               match_len r false (rev a ++ pre) (b ++ rest) = None) ->
  scan r 0 pre (seg ++ rest) = map Copy seg ++ scan r 0 (rev seg ++ pre) rest.
Proof.
  revert pre. induction seg as [|c seg IH]; intros pre H; [reflexivity|].
  cbn [app map]. rewrite scan_copy.
  - f_equal. rewrite IH.
    + cbn [rev]. now rewrite <- app_assoc.
    + intros a b E Hb. specialize (H (c :: a) b). cbn [rev] in H.
      rewrite <- app_assoc in H. apply H; [now rewrite E|exact Hb].
  - apply (H [] (c :: seg) eq_refl). discriminate.
Qed.

Lemma rewrite_app (t : list titem) (a b : list piece) :
  rewrite t (a ++ b) = rewrite t a ++ rewrite t b.
Proof.
  induction a as [|[c|m] a IH]; simpl; [reflexivity| |]; rewrite IH.
  - reflexivity.
  - now rewrite app_assoc.
Qed.

Lemma matches_app (a b : list piece) : matches (a ++ b) = matches a ++ matches b.
Proof.
  induction a as [|[c|m] a IH]; simpl; [reflexivity|exact IH|now rewrite IH].
Qed.

Lemma matches_copy (s : text) : matches (map Copy s) = [].
Proof. induction s; simpl; auto. Qed.

(** The pieces of a scan make up the text again. *)
Lemma scan_text (r : regex) (suf : text) :
  forall skip pre,
    concat (map piece_text (scan r skip pre suf)) = skipn skip suf.
Proof.
  induction suf as [|c suf IH]; intros skip pre.
  - simpl. destruct skip; [|reflexivity].
    now destruct (match_len r false pre []).
  - cbn [scan]. destruct skip as [|n]; [|now rewrite IH].
    assert (M : forall n, concat (map piece_text
                (Match (firstn (S n) (c :: suf)) :: scan r n (c :: pre) suf))
              = c :: suf).
    { intros n. cbn [map concat piece_text firstn]. rewrite IH.
      simpl. now rewrite firstn_skipn. }
    assert (C : concat (map piece_text (Copy c :: scan r 0 (c :: pre) suf))
              = c :: suf).
    { cbn [map concat piece_text]. now rewrite IH. }
    cbn [skipn].
    destruct (match_len r false pre (c :: suf)) as [[|n]|]; [|apply M|apply C].
    cbn [map concat piece_text app].
    destruct (match_len r true pre (c :: suf)) as [[|n]|];
      [apply C|apply M|apply C].
Qed.

Lemma rewrite_whole (l : list piece) :
  rewrite [TWhole] l = concat (map piece_text l).
Proof.
  induction l as [|[c|m] l IH]; simpl; [reflexivity| |]; rewrite IH.
  - reflexivity.
  - now rewrite app_nil_r.
Qed.

(** Rewriting every match to itself changes nothing. *)
Lemma sub_whole (r : regex) (s : text) : sub r [TWhole] s = s.
Proof. unfold sub. rewrite rewrite_whole. apply scan_text. Qed.

Lemma re_match_lit_then (w : text) (r : regex) (R : Type) (pre suf : text)
    (k : cont R) :
  re_match (lit_then w r) pre suf k
  = match strip_prefix w suf with
    | Some rest => re_match r (rev w ++ pre) rest k
    | None => None
    end.
Proof.
  revert pre suf. induction w as [|c w IH]; intros pre suf; simpl.
  - reflexivity.
  - destruct suf as [|x suf]; [reflexivity|].
    rewrite (Ascii.eqb_sym c x).
    destruct (Ascii.eqb x c) eqn:E; [|reflexivity].
    apply Ascii.eqb_eq in E. subst x.
    rewrite IH. now rewrite <- app_assoc.
Qed.

Lemma strip_prefix_app (w s : text) : strip_prefix w (w ++ s) = Some s.
Proof.
  induction w as [|c w IH]; simpl; [reflexivity|].
  now rewrite Ascii.eqb_refl.
Qed.

(** A word found at the start of a text that a character foreign to the
    word interrupts lies before that character. *)
Lemma strip_prefix_bounded (w b : text) (x : ascii) (more r : text) :
  strip_prefix w (b ++ x :: more) = Some r ->
  forallb (fun c => negb (Ascii.eqb c x)) w = true ->
  exists b', b = w ++ b'.
Proof.
  revert b. induction w as [|c w IH]; intros b H F.
  - now exists b.
  - simpl in F. apply andb_prop in F as [F1 F2].
    destruct b as [|y b]; simpl in H.
    + destruct (Ascii.eqb c x); [discriminate|discriminate].
    + destruct (Ascii.eqb_spec c y) as [->|_]; [|discriminate].
      destruct (IH b H F2) as [b' ->]. now exists b'.
Qed.

Lemma startswith_app (w s : text) : startswith w (w ++ s) = true.
Proof. unfold startswith. now rewrite strip_prefix_app. Qed.

Lemma contains_unfold (w s : text) :
  contains w s
  = startswith w s || match s with [] => false | _ :: s' => contains w s' end.
Proof. now destruct s. Qed.

Lemma contains_intro (w a b : text) : contains w (a ++ w ++ b) = true.
Proof.
  induction a as [|x a IH].
  - rewrite contains_unfold. cbn [app]. now rewrite startswith_app.
  - rewrite contains_unfold. cbn [app]. rewrite IH. apply orb_true_r.
Qed.

Lemma alias_db_compiles : re_compile "db/alias.db" = Ret alias_db_regex.
Proof. reflexivity. Qed.
Lemma record_compiles : re_compile record_pattern = Ret record_regex.
Proof. reflexivity. Qed.
Lemma punctuation_compiles : re_compile punctuation_pattern = Ret punctuation_regex.
Proof. reflexivity. Qed.

Lemma readlines_aux_line (l cur rest : text) :
  no_char NL l = true ->
  readlines_aux cur (l ++ NL :: rest)
  = (rev cur ++ l ++ [NL]) :: readlines_aux [] rest.
Proof.
  revert cur. induction l as [|c l IH]; intros cur H.
  - simpl. reflexivity.
  - simpl in H. apply andb_prop in H as [H1 H2].
    cbn [app readlines_aux].
    destruct (Ascii.eqb c NL); [discriminate|].
    rewrite IH by exact H2. cbn [rev]. now rewrite <- app_assoc.
Qed.

Lemma readlines_lines (body : list text) :
  forallb (no_char NL) body = true ->
  readlines (concat (map (fun l => l ++ [NL]) body))
  = map (fun l => l ++ [NL]) body.
Proof.
  unfold readlines. induction body as [|l body IH]; intros H; [reflexivity|].
  simpl in H. apply andb_prop in H as [H1 H2].
  cbn [map concat]. rewrite <- app_assoc. cbn [app].
  rewrite readlines_aux_line by exact H1. cbn [rev app].
  now rewrite IH.
Qed.

Lemma forallb_impl (A : Type) (p q : A -> bool) (l : list A) :
  (forall x, p x = true -> q x = true) ->
  forallb p l = true -> forallb q l = true.
Proof.
  intros H. induction l as [|x l IH]; simpl; [trivial|].
  intros E. apply andb_prop in E as [E1 E2].
  now rewrite (H x E1), IH.
Qed.

Lemma value_chars (v : text) : value v = true -> forallb value_char v = true.
Proof.
  unfold value. intros H. apply andb_prop in H as [H _].
  now apply andb_prop in H as [H _].
Qed.

Lemma value_no_char (c : ascii) (v : text) :
  value_char c = false -> value v = true -> no_char c v = true.
Proof.
  intros Hc Hv. apply value_chars in Hv. revert Hv. apply forallb_impl.
  intros x Hx. destruct (Ascii.eqb_spec x c) as [->|_]; [|reflexivity].
  now rewrite Hx in Hc.
Qed.

Lemma no_char_app (c : ascii) (a b : text) :
  no_char c (a ++ b) = no_char c a && no_char c b.
Proof. apply forallb_app. Qed.

Lemma no_char_fields (c : ascii) (f : text) (more : list text) :
  Ascii.eqb ","%char c = false ->
  no_char c f = true -> forallb (no_char c) more = true ->
  no_char c (fields_text f more) = true.
Proof.
  intros Hc Hf Hm. unfold fields_text. rewrite no_char_app, Hf.
  cbn [andb].
  induction more as [|v more IH]; [reflexivity|].
  cbn [forallb] in Hm. apply andb_prop in Hm as [H1 H2].
  cbn [map concat]. rewrite no_char_app. rewrite (IH H2), andb_true_r.
  unfold no_char, with_comma in *. cbn [forallb]. now rewrite Hc, H1.
Qed.

Lemma script_text_body (l : script_line) : script_text l = line_body l ++ [NL].
Proof.
  destruct l; cbn [script_text line_body]; [reflexivity|].
  now rewrite <- !app_assoc.
Qed.

Lemma clause_no_newline (f : text) (m : list text) (l : text) :
  value f = true -> forallb value m = true -> value l = true ->
  no_char NL (clause f m l) = true.
Proof.
  intros Hf Hm Hl. unfold clause.
  change (DQ :: T "RECORD=" ++ ?x ++ [DQ])
    with ((DQ :: T "RECORD=") ++ x ++ [DQ]).
  rewrite !no_char_app. simpl (no_char NL (DQ :: _)). simpl (no_char NL [DQ]).
  rewrite andb_true_r. apply no_char_fields; [reflexivity| |].
  - now apply value_no_char.
  - rewrite forallb_app. apply andb_true_intro. split.
    + revert Hm. apply forallb_impl. intros v. now apply value_no_char.
    + simpl. rewrite andb_true_r.
      change (no_char NL (T "ALIAS=" ++ l) = true).
      rewrite no_char_app. simpl. now apply value_no_char.
Qed.

Lemma well_formed_body (l : script_line) :
  well_formed l = true -> no_char NL (line_body l) = true.
Proof.
  destruct l as [l|b f m l a]; cbn [well_formed line_body].
  - intros H. now apply andb_prop in H as [H _].
  - intros H. repeat (apply andb_prop in H as [H ?]).
    rewrite !no_char_app. repeat (apply andb_true_intro; split); trivial.
    now apply clause_no_newline.
Qed.

Lemma readlines_script (script : list script_line) :
  forallb well_formed script = true ->
  readlines (concat (map script_text script)) = map script_text script.
Proof.
  intros H.
  assert (E : map script_text script
              = map (fun l => l ++ [NL]) (map line_body script)).
  { rewrite map_map. apply map_ext. apply script_text_body. }
  rewrite E. apply readlines_lines.
  rewrite forallb_forall in *. intros x Hx.
  apply in_map_iff in Hx as (l & <- & Hl). apply well_formed_body. now apply H.
Qed.

Lemma search_lines_script (script : list script_line) :
  forallb well_formed script = true ->
  search_lines "db/alias.db" "\g<0>" (map script_text script)
  = Ret (map script_text (filter is_load script)).
Proof.
  induction script as [|l script IH]; intros H; [reflexivity|].
  simpl in H. apply andb_prop in H as [Hl H]. specialize (IH H).
  cbn [map search_lines]. unfold re_search, re_sub.
  rewrite alias_db_compiles. cbn [bind].
  destruct l as [l|b f m l a].
  - cbn [well_formed] in Hl. apply andb_prop in Hl as [_ Hl].
    apply negb_true_iff in Hl. cbn [script_text]. rewrite Hl.
    cbn [filter is_load]. exact IH.
  - cbn [well_formed] in Hl. repeat (apply andb_prop in Hl as [Hl ?]).
    rewrite Hl.
    change (parse_template "\g<0>") with (Ret [TWhole]). cbn [bind].
    rewrite sub_whole, IH. reflexivity.
Qed.

Lemma star_any_no_quote (R : Type) (K : cont R) (a : text) :
  forall fuel pre rest,
    no_char DQ a = true ->
    star_loop (@any_step R) fuel pre (a ++ NL :: rest)
      (fun p s => re_match (lit [DQ]) p s K) = None.
Proof.
  induction a as [|y a IH]; intros fuel pre rest Ha.
  - destruct fuel; reflexivity.
  - cbn [no_char forallb] in Ha. apply andb_prop in Ha as [Hy Ha].
    apply negb_true_iff in Hy.
    assert (E : re_match (lit [DQ]) pre ((y :: a) ++ NL :: rest) K = None).
    { cbn [app lit re_match in_class]. now rewrite Hy. }
    destruct fuel as [|fuel]; [exact E|].
    cbn [star_loop]. rewrite E.
    unfold any_step at 1. cbn [app re_match].
    destruct (in_class CAny y); [|reflexivity].
    replace (length (a ++ NL :: rest) <? length (y :: a ++ NL :: rest))
      with true by (symmetry; apply Nat.ltb_lt; simpl; lia).
    now rewrite IH.
Qed.

Lemma star_any_last_quote (R : Type) (K : cont R) (v : R) (a rest : text) :
  (forall p, K p (a ++ NL :: rest) = Some v) ->
  no_char DQ a = true ->
  forall xs fuel pre,
    no_char NL xs = true -> length xs < fuel ->
    star_loop (@any_step R) fuel pre (xs ++ DQ :: a ++ NL :: rest)
      (fun p s => re_match (lit [DQ]) p s K) = Some v.
Proof.
  intros HK Ha. induction xs as [|x xs IH]; intros fuel pre Hxs Hfuel.
  - destruct fuel as [|fuel]; [lia|].
    cbn [app star_loop]. unfold any_step at 1. cbn [re_match in_class].
    change (negb (Ascii.eqb DQ NL)) with true. cbn iota.
    replace (length (a ++ NL :: rest) <? length (DQ :: a ++ NL :: rest))
      with true by (symmetry; apply Nat.ltb_lt; simpl; lia).
    rewrite star_any_no_quote by exact Ha.
    cbn [lit re_match in_class]. rewrite Ascii.eqb_refl. apply HK.
  - destruct fuel as [|fuel]; [simpl in Hfuel; lia|].
    cbn [no_char forallb] in Hxs. apply andb_prop in Hxs as [Hx Hxs].
    cbn [app star_loop]. unfold any_step at 1. cbn [re_match in_class].
    rewrite Hx.
    replace (length (xs ++ DQ :: a ++ NL :: rest)
             <? length (x :: xs ++ DQ :: a ++ NL :: rest))
      with true by (symmetry; apply Nat.ltb_lt; simpl; lia).
    rewrite IH; [reflexivity|exact Hxs|simpl in Hfuel; lia].
Qed.

Lemma record_match (pre inner a rest : text) :
  no_char NL inner = true -> no_char DQ a = true ->
  match_len record_regex false pre
    ((DQ :: T "RECORD=") ++ inner ++ DQ :: a ++ NL :: rest)
  = Some (length ((DQ :: T "RECORD=") ++ inner ++ [DQ])).
Proof.
  intros Hi Ha. unfold match_len, record_regex, record_word.
  rewrite re_match_lit_then, strip_prefix_app.
  cbn [re_match andb].
  change (fun (p s : text) (k' : cont nat) => re_match (Cls CAny) p s k')
    with (@any_step nat).
  erewrite star_any_last_quote;
    [reflexivity| |exact Ha|exact Hi|rewrite length_app; simpl; lia].
  intros p. f_equal. rewrite !length_app. cbn [length]. rewrite !length_app.
  cbn [length]. lia.
Qed.

Lemma record_no_match_before (pre b more : text) :
  has_pair (is_char DQ) (is_char "R") b = false -> b <> [] ->
  match_len record_regex false pre (b ++ DQ :: more) = None.
Proof.
  intros Hp Hb. destruct b as [|x b]; [now elim Hb|].
  unfold match_len, record_regex, record_word. rewrite re_match_lit_then.
  cbn [app T list_ascii_of_string strip_prefix].
  destruct (Ascii.eqb_spec DQ x) as [<-|_]; [|reflexivity].
  destruct b as [|y b]; [reflexivity|]. cbn [app].
  replace (Ascii.eqb "R" y) with false; [reflexivity|].
  symmetry. apply (has_pair_head _ _ _ _ _ Hp). apply Ascii.eqb_refl.
Qed.

Lemma record_no_match_after (pre rest : text) (x : ascii) :
  Ascii.eqb x DQ = false ->
  match_len record_regex false pre (x :: rest) = None.
Proof.
  intros Hx. unfold match_len, record_regex, record_word. rewrite re_match_lit_then.
  cbn [strip_prefix]. rewrite Ascii.eqb_sym. now rewrite Hx.
Qed.

Lemma no_char_suffix_head (c : ascii) (a : text) (x : ascii) (b : text) :
  no_char c (a ++ x :: b) = true -> Ascii.eqb x c = false.
Proof.
  rewrite no_char_app. intros H. apply andb_prop in H as [_ H].
  cbn [no_char forallb] in H. apply andb_prop in H as [H _].
  now apply negb_true_iff in H.
Qed.

Lemma scan_load (pre b inner a rest : text) :
  has_pair (is_char DQ) (is_char "R") b = false ->
  no_char NL inner = true -> no_char DQ a = true ->
  exists pre',
    matches (scan record_regex 0 pre
               (b ++ (record_word ++ inner ++ [DQ]) ++ a ++ NL :: rest))
    = (record_word ++ inner ++ [DQ]) :: matches (scan record_regex 0 pre' rest).
Proof.
  intros Hb Hi Ha.
  rewrite scan_copy_prefix.
  2:{ intros a0 b0 E Hb0. subst b.
      change ((record_word ++ inner ++ [DQ]) ++ a ++ NL :: rest)
        with (DQ :: (T "RECORD=" ++ inner ++ [DQ]) ++ a ++ NL :: rest).
      apply record_no_match_before; [|exact Hb0].
      now apply has_pair_suffix with a0. }
  rewrite matches_app, matches_copy. cbn [app].
  rewrite scan_match.
  2:{ unfold record_word. discriminate. }
  2:{ rewrite <- record_match with (pre := rev b ++ pre) (a := a) (rest := rest)
        by assumption.
      f_equal. unfold record_word. now rewrite <- !app_assoc. }
  cbn [matches].
  replace (a ++ NL :: rest) with ((a ++ [NL]) ++ rest)
    by now rewrite <- app_assoc.
  rewrite scan_copy_prefix.
  2:{ intros a0 b0 E Hb0. destruct b0 as [|x b0]; [now elim Hb0|].
      apply record_no_match_after.
      apply no_char_suffix_head with a0 b0. rewrite <- E.
      rewrite no_char_app, Ha. reflexivity. }
  rewrite matches_app, matches_copy. cbn [app].
  eexists. reflexivity.
Qed.

Lemma inner_no_newline (f : text) (m : list text) (l : text) :
  value f = true -> forallb value m = true -> value l = true ->
  no_char NL (fields_text f (m ++ [T "ALIAS=" ++ l])) = true.
Proof.
  intros Hf Hm Hl. apply no_char_fields; [reflexivity| |].
  - now apply value_no_char.
  - rewrite forallb_app. apply andb_true_intro. split.
    + revert Hm. apply forallb_impl. intros v. now apply value_no_char.
    + cbn [forallb]. rewrite andb_true_r, no_char_app.
      now rewrite (@value_no_char NL l eq_refl Hl).
Qed.

Lemma findall_loads (script : list script_line) :
  forallb well_formed script = true ->
  forall pre,
    matches (scan record_regex 0 pre
               (concat (map script_text (filter is_load script))))
    = clauses script.
Proof.
  induction script as [|l script IH]; intros H pre; [reflexivity|].
  cbn [forallb] in H. apply andb_prop in H as [Hl H].
  destruct l as [l|b f m l a]; cbn [filter is_load].
  - now apply IH.
  - cbn [well_formed] in Hl. repeat (apply andb_prop in Hl as [Hl ?]).
    cbn [map concat script_text clauses flat_map app].
    rewrite <- !app_assoc. cbn [app].
    destruct (@scan_load pre b (fields_text f (m ++ [T "ALIAS=" ++ l])) a
                (concat (map script_text (filter is_load script))))
      as [pre' E].
    + now apply negb_true_iff.
    + now apply inner_no_newline.
    + assumption.
    + unfold clause.
      change (DQ :: T "RECORD=" ++ ?x ++ [DQ])
        with (record_word ++ x ++ [DQ]).
      rewrite E. f_equal. now apply IH.
Qed.

Lemma punct_word (w pre s : text) :
  w <> [] ->
  (strip_prefix [DQ] (w ++ s) = Some (skipn 1 (w ++ s)) /\ length w = 1)
  \/ (strip_prefix [DQ] (w ++ s) = None /\ w = T "RECORD=")
  \/ (strip_prefix [DQ] (w ++ s) = None /\ w = T "ALIAS=") ->
  out pre (w ++ s) = out (rev w ++ pre) s.
Proof.
  intros Hw H. unfold out. rewrite scan_match; [reflexivity|exact Hw|].
  unfold match_len, punctuation_regex. cbn [re_match andb].
  rewrite !re_match_lit.
  destruct H as [[E L]|[[E ->]|[E ->]]].
  - rewrite E. f_equal. destruct w as [|c [|d w]]; try discriminate.
    cbn [app skipn length]. lia.
  - cbn [app T list_ascii_of_string strip_prefix Ascii.eqb Bool.eqb DQ].
    cbn [length]. f_equal. lia.
  - cbn [app T list_ascii_of_string strip_prefix Ascii.eqb Bool.eqb DQ].
    cbn [length]. f_equal. lia.
Qed.

Lemma out_quote (pre s : text) : out pre (DQ :: s) = out (DQ :: pre) s.
Proof.
  apply (@punct_word [DQ] pre s); [discriminate|]. left. split; reflexivity.
Qed.

Lemma out_record (pre s : text) :
  out pre (T "RECORD=" ++ s) = out (rev (T "RECORD=") ++ pre) s.
Proof.
  apply punct_word; [discriminate|]. right. left. split; reflexivity.
Qed.

Lemma out_alias (pre s : text) :
  out pre (T "ALIAS=" ++ s) = out (rev (T "ALIAS=") ++ pre) s.
Proof.
  apply punct_word; [discriminate|]. right. right. split; reflexivity.
Qed.

Lemma out_comma (pre s : text) :
  out pre (","%char :: s) = ","%char :: out (","%char :: pre) s.
Proof. unfold out. rewrite scan_copy; reflexivity. Qed.

Lemma out_end (pre : text) : out pre [] = [].
Proof. reflexivity. Qed.

(** Inside a value the pattern matches nowhere. *)
Lemma punct_no_match (pre a b : text) (x : ascii) (more : text) :
  value (a ++ b) = true -> b <> [] ->
  x = ","%char \/ x = DQ ->
  match_len punctuation_regex false pre (b ++ x :: more) = None.
Proof.
  intros Hv Hb Hx. unfold value in Hv.
  apply andb_prop in Hv as [Hv Ha]. apply andb_prop in Hv as [Hc Hr].
  apply negb_true_iff in Ha, Hr.
  destruct b as [|y b]; [now elim Hb|].
  rewrite forallb_app in Hc. apply andb_prop in Hc as [_ Hc].
  cbn [forallb] in Hc. apply andb_prop in Hc as [Hy _].
  unfold value_char in Hy. apply negb_true_iff in Hy.
  repeat (apply orb_false_elim in Hy as [Hy ?]).
  unfold match_len, punctuation_regex. cbn [re_match andb].
  rewrite !re_match_lit.
  assert (W : forall w, forallb (fun c => negb (Ascii.eqb c x)) w = true ->
                        contains w (a ++ y :: b) = false ->
                        strip_prefix w ((y :: b) ++ x :: more) = None).
  { intros w Fw Cw.
    destruct (strip_prefix w ((y :: b) ++ x :: more)) eqn:E; [|reflexivity].
    destruct (strip_prefix_bounded _ _ _ _ E Fw) as [b' Eb].
    rewrite Eb, contains_intro in Cw. discriminate. }
  rewrite (W (T "RECORD=")), (W (T "ALIAS=")); try assumption;
    try (destruct Hx as [->| ->]; reflexivity).
  cbn [app T list_ascii_of_string strip_prefix].
  rewrite (Ascii.eqb_sym DQ y), Hy, (Ascii.eqb_sym ")" y).
  now replace (Ascii.eqb y ")") with false.
Qed.

Lemma out_value (pre v : text) (x : ascii) (more : text) :
  value v = true -> x = ","%char \/ x = DQ ->
  out pre (v ++ x :: more) = v ++ out (rev v ++ pre) (x :: more).
Proof.
  intros Hv Hx. unfold out. rewrite scan_copy_prefix.
  - now rewrite rewrite_app, rewrite_copy.
  - intros a b E Hb. apply punct_no_match with a; try assumption.
    now rewrite <- E.
Qed.

Lemma out_middle (m : list text) :
  forallb value m = true ->
  forall pre tail,
    exists pre',
      out pre (concat (map with_comma m) ++ ","%char :: tail)
      = concat (map with_comma m)
        ++ out pre' (","%char :: tail).
Proof.
  induction m as [|v m IH]; intros H pre tail.
  - exists pre. reflexivity.
  - cbn [forallb] in H. apply andb_prop in H as [Hv H].
    cbn [map concat]. rewrite <- app_assoc. unfold with_comma at 1 3.
    cbn [app]. rewrite out_comma.
    assert (E : exists more,
               concat (map with_comma m) ++ ","%char :: tail
               = ","%char :: more).
    { destruct m; eexists; reflexivity. }
    destruct E as [more E].
    rewrite E, out_value by auto.
    rewrite <- E.
    destruct (IH H (rev v ++ ","%char :: pre) tail) as [pre' E'].
    exists pre'. rewrite E'. now rewrite <- !app_assoc.
Qed.

Lemma sub_clause (f : text) (m : list text) (l : text) :
  value f = true -> forallb value m = true -> value l = true ->
  sub punctuation_regex [] (clause f m l) = fields_text f (m ++ [l]).
Proof.
  intros Hf Hm Hl. change (sub punctuation_regex [] ?s) with (out [] s).
  unfold clause, fields_text.
  rewrite out_quote, out_record.
  rewrite !map_app, !concat_app. cbn [map concat]. rewrite !app_nil_r.
  change (with_comma (T "ALIAS=" ++ l)) with (","%char :: T "ALIAS=" ++ l).
  change (with_comma l) with (","%char :: l).
  rewrite <- ?app_assoc. cbn [app]. rewrite <- ?app_assoc.
  assert (E : exists more,
             concat (map with_comma m)
             ++ ","%char :: T "ALIAS=" ++ l ++ [DQ]
             = ","%char :: more).
  { destruct m; eexists; reflexivity. }
  destruct E as [more E]. rewrite E, out_value by auto. rewrite <- E.
  destruct (@out_middle m Hm (rev f ++ rev (T "RECORD=") ++ [DQ])
              (T "ALIAS=" ++ l ++ [DQ])) as [pre' E'].
  rewrite E'. rewrite out_comma, out_alias.
  rewrite out_value by auto. rewrite out_quote, out_end.
  now rewrite app_nil_r.
Qed.

Lemma split_on_field (sep : ascii) (f s : text) :
  no_char sep f = true -> split_on sep (f ++ sep :: s) = f :: split_on sep s.
Proof.
  induction f as [|c f IH]; intros H.
  - simpl. now rewrite Ascii.eqb_refl.
  - cbn [no_char forallb] in H. apply andb_prop in H as [Hc H].
    apply negb_true_iff in Hc. cbn [app split_on]. rewrite Hc.
    now rewrite (IH H).
Qed.

Lemma split_on_last (sep : ascii) (f : text) :
  no_char sep f = true -> split_on sep f = [f].
Proof.
  induction f as [|c f IH]; intros H; [reflexivity|].
  cbn [no_char forallb] in H. apply andb_prop in H as [Hc H].
  apply negb_true_iff in Hc. cbn [split_on]. rewrite Hc.
  now rewrite (IH H).
Qed.

Lemma split_on_fields (f : text) (more : list text) :
  no_char "," f = true -> forallb (no_char ",") more = true ->
  split_on "," (fields_text f more) = f :: more.
Proof.
  unfold fields_text. revert f.
  induction more as [|g more IH]; intros f Hf Hm.
  - cbn [map concat]. rewrite app_nil_r. now apply split_on_last.
  - cbn [forallb] in Hm. apply andb_prop in Hm as [Hg Hm].
    cbn [map concat]. change (with_comma g) with (","%char :: g).
    cbn [app]. rewrite split_on_field by exact Hf.
    now rewrite IH.
Qed.

Lemma last_field_app (a : list text) (x : text) : last_field (a ++ [x]) = Ret x.
Proof. unfold last_field. now rewrite rev_app_distr. Qed.

Lemma fields_of_clause (f : text) (m : list text) (l : text) :
  value f = true -> forallb value m = true -> value l = true ->
  (r <- re_sub punctuation_pattern [] (clause f m l) ;; Ret (split_on "," r))
  = Ret (f :: m ++ [l]).
Proof.
  intros Hf Hm Hl. unfold re_sub. rewrite punctuation_compiles.
  cbn [bind parse_template]. rewrite sub_clause by assumption.
  rewrite split_on_fields; [reflexivity| |].
  - now apply value_no_char.
  - rewrite forallb_app. apply andb_true_intro. split.
    + revert Hm. apply forallb_impl. intros v. now apply value_no_char.
    + cbn [forallb]. now rewrite (@value_no_char "," l eq_refl Hl).
Qed.

Lemma mapM_clauses (script : list script_line) :
  forallb well_formed script = true ->
  mapM (fun s => r <- re_sub punctuation_pattern [] s ;;
                 Ret (split_on "," r)) (clauses script)
  = Ret (fields_of script).
Proof.
  induction script as [|l script IH]; intros H; [reflexivity|].
  cbn [forallb] in H. apply andb_prop in H as [Hl H].
  destruct l as [l|b f m l a]; cbn [clauses fields_of flat_map app].
  - now apply IH.
  - cbn [well_formed] in Hl. repeat (apply andb_prop in Hl as [Hl ?]).
    cbn [mapM]. rewrite fields_of_clause by assumption.
    cbn [bind]. fold (clauses script). rewrite IH by exact H. reflexivity.
Qed.

Lemma mapM_pairs (script : list script_line) :
  mapM (fun s => r <- first_field s ;; a <- last_field s ;;
                 Ret {| record := r; alias := a |}) (fields_of script)
  = Ret (pairs_of script).
Proof.
  induction script as [|l script IH]; [reflexivity|].
  destruct l as [l|b f m l a]; cbn [fields_of pairs_of flat_map app].
  - exact IH.
  - cbn [mapM first_field bind].
    change (f :: m ++ [l]) with ((f :: m) ++ [l]).
    rewrite last_field_app. cbn [bind].
    fold (fields_of script). rewrite IH. reflexivity.
Qed.

Lemma join_nil (l : list text) : join [] l = concat l.
Proof.
  induction l as [|x l IH]; [reflexivity|].
  cbn [join concat]. destruct l; [now rewrite app_nil_r|].
  now rewrite <- IH.
Qed.

(** For a startup script whose lines either do not mention the alias
    database or load it with one quoted clause
    [RECORD=<first>,<middle>...,ALIAS=<last>] and no double quote after it,
    the extractor yields, in the order of the lines, one pair per clause:
    its record is the first field of the clause and its alias the last,
    without the quotes and the markers; the fields between are dropped. *)
Lemma acquire_aliases_pairs (fs : filesystem) (dir_path ioc d : text)
    (script : list script_line) :
  fix_dir dir_path = Ret d ->
  read_file fs (d ++ T "build/iocBoot/" ++ ioc ++ T "/st.cmd")
  = Some (concat (map script_text script)) ->
  forallb well_formed script = true ->
  acquire_aliases fs dir_path ioc = ([], Ret (Pairs (pairs_of script))).
Proof.
  intros Hd Hf Hs. unfold acquire_aliases, isfile, search_file.
  rewrite Hd. unfold io_bind at 1. cbn [lift snd fst app].
  rewrite Hf. cbn [is_some negb].
  rewrite readlines_script by exact Hs.
  change ([] ++ T "\g<0>" ++ []) with (T "\g<0>").
  rewrite search_lines_script by exact Hs.
  unfold io_bind, lift, io_ret, re_findall. cbn [snd fst app].
  rewrite join_nil. rewrite record_compiles. cbn [bind snd fst app].
  unfold findall. rewrite findall_loads by exact Hs.
  rewrite mapM_clauses by exact Hs. cbn [snd fst app].
  rewrite mapM_pairs. reflexivity.
Qed.

(** The clause of the design document:
    [RECORD=LM1K2:MCS2:01:m1,ALIAS=LM2K2:INJ_MP1_MR1]. *)
Lemma acquire_aliases_pairs_witness :
  acquire_aliases child_release "/r" "ioc1"
  = ([], Ret (Pairs [ {| record := T "LM1K2:MCS2:01:m1";
                         alias := T "LM2K2:INJ_MP1_MR1" |} ])).
Proof.
  apply (@acquire_aliases_pairs child_release "/r" "ioc1" "/r/" st_cmd_lines);
    reflexivity.
Defined.

(** C6.  A line that loads the alias database and has a quoted remark after
    the clause: the greedy [.*] of the record pattern runs to the last
    double quote of the line, and the alias is not the last field of the
    clause: the remark comes with it. *)
Theorem acquire_aliases_alias_with_remark :
  acquire_aliases remark_release "/r" "ioc1"
  = ([], Ret (Pairs [ {| record := T "LM1K2:MCS2:01:m1";
                         alias := T "LM2K2:INJ_MP1_MR1 # motor 1" |} ])).
Proof. vm_compute. reflexivity. Qed.

(** Two clauses on one line are read as one: a single pair, the record of
    the first clause with the alias of the second. *)
Lemma acquire_aliases_merges_clauses :
  acquire_aliases two_clauses_release "/r" "ioc1"
  = ([], Ret (Pairs [ {| record := T "A"; alias := T "D" |} ])).
Proof. vm_compute. reflexivity. Qed.

(** ** The template expander *)

Lemma wrapper_compiles : re_compile "alias\(| +" = Ret wrapper_regex.
Proof. reflexivity. Qed.
Lemma closing_compiles : re_compile "\)\s*\n" = Ret closing_regex.
Proof. reflexivity. Qed.
Lemma record_token_compiles : re_compile "\$\(RECORD\)" = Ret (lit "$(RECORD)").
Proof. reflexivity. Qed.
Lemma alias_token_compiles : re_compile "\$\(ALIAS\)" = Ret (lit "$(ALIAS)").
Proof. reflexivity. Qed.

Lemma rewrites_sub (r : regex) (t : list titem) (s s' : text) :
  rewrites r t s s' -> sub r t s = s'.
Proof. intros H. apply H. Qed.

Lemma rewrites_end (r : regex) (t : list titem) :
  (forall pre, match_len r false pre [] = None) -> rewrites r t [] [].
Proof. intros H pre. simpl. now rewrite H. Qed.

Lemma rewrites_copy (r : regex) (t : list titem) (seg rest rest' : text) :
  (forall pre a b, seg = a ++ b -> b <> [] ->
                   match_len r false pre (b ++ rest) = None) ->
  rewrites r t rest rest' -> rewrites r t (seg ++ rest) (seg ++ rest').
Proof.
  intros H Hr pre. rewrite scan_copy_prefix.
  - now rewrite rewrite_app, rewrite_copy, Hr.
  - intros a b E Hb. now apply H with a.
Qed.

Lemma rewrites_copy1 (r : regex) (t : list titem) (c : ascii)
    (rest rest' : text) :
  (forall pre, match_len r false pre (c :: rest) = None) ->
  rewrites r t rest rest' -> rewrites r t (c :: rest) (c :: rest').
Proof.
  intros H Hr pre. rewrite scan_copy by apply H. simpl. now rewrite Hr.
Qed.

Lemma rewrites_match (r : regex) (t : list titem) (m rest rest' : text) :
  m <> [] ->
  (forall pre, match_len r false pre (m ++ rest) = Some (length m)) ->
  rewrites r t rest rest' -> rewrites r t (m ++ rest) (expand t m ++ rest').
Proof.
  intros Hm H Hr pre. rewrite scan_match by auto. simpl. now rewrite Hr.
Qed.

(** *** Characters of a rendered field *)

Lemma rfield_forallb (tok : token -> text) (P : ascii -> bool) (f : field) :
  (forall k, token_ok k = true -> forallb P (tok k) = true) ->
  forallb token_ok f = true -> forallb P (rfield tok f) = true.
Proof.
  intros H. induction f as [|k f IH]; intros Hf; [reflexivity|].
  cbn [forallb] in Hf. apply andb_prop in Hf as [Hk Hf].
  change (forallb P (tok k ++ rfield tok f) = true). rewrite forallb_app.
  now rewrite (H k Hk), (IH Hf).
Qed.

Lemma plain_not (c d : ascii) :
  plain d = false -> plain c = true -> Ascii.eqb c d = false.
Proof.
  intros Hd Hc. destruct (Ascii.eqb_spec c d) as [->|_]; [|reflexivity].
  now rewrite Hc in Hd.
Qed.

Lemma placeholder_chars (P : ascii -> bool) :
  (forall c, plain c = true -> P c = true) ->
  forallb P (T "$(RECORD)") = true -> forallb P (T "$(ALIAS)") = true ->
  forall k, token_ok k = true -> forallb P (placeholder k) = true.
Proof.
  intros Hp Hr Ha [c| |] Hk; [|exact Hr|exact Ha].
  cbn [placeholder forallb]. now rewrite (Hp c Hk).
Qed.

Lemma plain_not_space (c : ascii) : plain c = true -> negb (is_space c) = true.
Proof.
  unfold plain. intros H. apply negb_true_iff in H.
  do 6 (apply orb_false_elim in H as [H _]). now rewrite H.
Qed.

Lemma field_no_space (f : field) :
  forallb token_ok f = true ->
  forallb (fun c => negb (is_space c)) (rfield placeholder f) = true.
Proof.
  apply rfield_forallb. apply placeholder_chars; try reflexivity.
  apply plain_not_space.
Qed.

Lemma forallb_suffix_head (P : ascii -> bool) (a : text) (y : ascii) (b : text) :
  forallb P (a ++ y :: b) = true -> P y = true.
Proof.
  rewrite forallb_app. intros H. apply andb_prop in H as [_ H].
  cbn [forallb] in H. now apply andb_prop in H as [H _].
Qed.

Lemma has_pair_intro (p q : ascii -> bool) (a : text) (x y : ascii) (b : text) :
  p x = true -> q y = true -> has_pair p q (a ++ x :: y :: b) = true.
Proof.
  intros Hx Hy. induction a as [|c a IH]; simpl.
  - now rewrite Hx, Hy.
  - rewrite IH. apply orb_true_r.
Qed.

Lemma field_starts_no_paren (f : field) :
  forallb token_ok f = true ->
  starts (fun c => negb (Ascii.eqb "(" c)) (rfield placeholder f) = true.
Proof.
  destruct f as [|[c| |] f]; try reflexivity.
  cbn [forallb token_ok]. intros H. apply andb_prop in H as [H _].
  unfold rfield. cbn [map concat placeholder app starts].
  rewrite Ascii.eqb_sym. now rewrite (@plain_not c "(" eq_refl H).
Qed.

Lemma field_no_call (f : field) :
  forallb token_ok f = true ->
  has_pair (is_char "s") (is_char "(") (rfield placeholder f) = false.
Proof.
  induction f as [|k f IH]; intros Hf; [reflexivity|].
  cbn [forallb] in Hf. apply andb_prop in Hf as [Hk Hf].
  specialize (IH Hf). pose proof (field_starts_no_paren _ Hf) as Hs.
  unfold rfield in *. cbn [map concat].
  destruct k as [c| |]; cbn [placeholder app T list_ascii_of_string].
  - cbn [has_pair]. rewrite IH, orb_false_r.
    destruct (concat (map placeholder f)) as [|d s]; [apply andb_false_r|].
    cbn [starts] in Hs. apply negb_true_iff in Hs. unfold is_char at 2.
    rewrite Hs. apply andb_false_r.
  - cbn. exact IH.
  - cbn. exact IH.
Qed.

(** *** Stage 1: the wrapper *)

Lemma wrapper_no_match_in_field (f : field) (pre a b : text) (x : ascii)
    (more : text) :
  forallb token_ok f = true ->
  rfield placeholder f = a ++ b -> b <> [] ->
  x = ","%char \/ x = ")"%char ->
  match_len wrapper_regex false pre (b ++ x :: more) = None.
Proof.
  intros Hf E Hb Hx. destruct b as [|y b]; [now elim Hb|].
  unfold match_len, wrapper_regex, plus. cbn [re_match andb].
  rewrite re_match_lit.
  destruct (strip_prefix "alias(" ((y :: b) ++ x :: more)) eqn:S.
  { exfalso.
    assert (F : forallb (fun c => negb (Ascii.eqb c x)) (T "alias(") = true)
      by (destruct Hx as [->| ->]; reflexivity).
    destruct (strip_prefix_bounded _ _ _ _ S F) as [b' Eb].
    pose proof (field_no_call _ Hf) as N. rewrite E, Eb in N.
    change (T "alias(" ++ b') with (T "alia" ++ "s"%char :: "("%char :: b') in N.
    rewrite app_assoc, has_pair_intro in N by reflexivity. discriminate. }
  cbn [app in_class].
  pose proof (field_no_space _ Hf) as Hsp. rewrite E in Hsp.
  apply forallb_suffix_head in Hsp.
  destruct (Ascii.eqb_spec y " ") as [->|_]; [discriminate|reflexivity].
Qed.

Lemma star_blanks (R : Type) (K : cont R) (v : R) (rest : text) :
  starts (fun c => negb (Ascii.eqb c " ")) rest = true ->
  (forall p, K p rest = Some v) ->
  forall n fuel pre,
    n < fuel ->
    star_loop (@blank_step R) fuel pre (blanks n ++ rest) K = Some v.
Proof.
  intros Hs HK. induction n as [|n IH]; intros fuel pre Hn.
  - destruct fuel as [|fuel]; [lia|]. cbn [blanks repeat app star_loop].
    unfold blank_step at 1. cbn [re_match in_class].
    destruct rest as [|c rest]; [apply HK|].
    cbn [starts] in Hs. apply negb_true_iff in Hs. rewrite Hs. apply HK.
  - destruct fuel as [|fuel]; [lia|].
    cbn [blanks repeat app star_loop]. unfold blank_step at 1.
    cbn [re_match in_class]. rewrite Ascii.eqb_refl.
    fold (blanks n).
    replace (length (blanks n ++ rest) <? length (" "%char :: blanks n ++ rest))
      with true by (symmetry; apply Nat.ltb_lt; simpl; lia).
    rewrite IH by lia. reflexivity.
Qed.

Lemma wrapper_blanks (pre : text) (n : nat) (rest : text) :
  starts (fun c => negb (Ascii.eqb c " ")) rest = true ->
  match_len wrapper_regex false pre (blanks (S n) ++ rest)
  = Some (length (blanks (S n))).
Proof.
  intros Hs. unfold match_len, wrapper_regex, plus. cbn [re_match andb].
  rewrite re_match_lit. cbn [blanks repeat app]. fold (blanks n).
  cbn [T list_ascii_of_string strip_prefix Ascii.eqb Bool.eqb in_class].
  change (fun (p s : text) (k' : cont nat) =>
            re_match (Cls (CChar " ")) p s k') with (@blank_step nat).
  erewrite star_blanks;
    [reflexivity|exact Hs|
    |rewrite length_app; unfold blanks; rewrite repeat_length; lia].
  intros p. f_equal. cbn [length]. rewrite length_app.
  unfold blanks. rewrite repeat_length. lia.
Qed.

Lemma wrapper_call (pre rest : text) :
  match_len wrapper_regex false pre (T "alias(" ++ rest) = Some 6.
Proof.
  unfold match_len, wrapper_regex. cbn [re_match andb].
  rewrite re_match_lit, strip_prefix_app. f_equal.
  rewrite length_app. change (length (T "alias(")) with 6. lia.
Qed.

Lemma others_head (gap : nat -> text) (tok : token -> text)
    (l : list (nat * field)) (more : text) :
  exists x more',
    rothers gap tok l ++ ")"%char :: more = x :: more'
    /\ (x = ","%char \/ x = ")"%char).
Proof.
  destruct l as [|o l].
  - exists ")"%char, more. split; [reflexivity|now right].
  - eexists _, _. split; [reflexivity|now left].
Qed.

Lemma field_then_starts (f : field) (x : ascii) (more : text) :
  forallb token_ok f = true -> x = ","%char \/ x = ")"%char ->
  starts (fun c => negb (is_space c)) (rfield placeholder f ++ x :: more)
  = true.
Proof.
  intros Hf Hx. pose proof (field_no_space _ Hf) as H.
  destruct (rfield placeholder f) as [|c s].
  - destruct Hx as [->| ->]; reflexivity.
  - cbn [forallb] in H. now apply andb_prop in H as [H _].
Qed.

Lemma starts_weaken (p q : ascii -> bool) (s : text) :
  (forall c, p c = true -> q c = true) ->
  starts p s = true -> starts q s = true.
Proof. intros H. destruct s; [trivial|apply H]. Qed.

Lemma not_space_not_blank (c : ascii) :
  negb (is_space c) = true -> negb (Ascii.eqb c " ") = true.
Proof.
  intros H. destruct (Ascii.eqb_spec c " ") as [->|_]; [discriminate|reflexivity].
Qed.

Lemma stage1_comma (rest rest' : text) :
  rewrites wrapper_regex [] rest rest' ->
  rewrites wrapper_regex [] (","%char :: rest) (","%char :: rest').
Proof. apply rewrites_copy1. reflexivity. Qed.

Lemma stage1_gap (n : nat) (rest rest' : text) :
  starts (fun c => negb (Ascii.eqb c " ")) rest = true ->
  rewrites wrapper_regex [] rest rest' ->
  rewrites wrapper_regex [] (blanks n ++ rest) rest'.
Proof.
  intros Hs Hr. destruct n as [|n]; [exact Hr|].
  change rest' with (expand [] (blanks (S n)) ++ rest').
  apply rewrites_match; [discriminate| |exact Hr].
  intros pre. now apply wrapper_blanks.
Qed.

Lemma stage1_field (f : field) (x : ascii) (more rest' : text) :
  forallb token_ok f = true -> x = ","%char \/ x = ")"%char ->
  rewrites wrapper_regex [] (x :: more) rest' ->
  rewrites wrapper_regex [] (rfield placeholder f ++ x :: more)
    (rfield placeholder f ++ rest').
Proof.
  intros Hf Hx. apply rewrites_copy. intros pre a b E Hb.
  now apply wrapper_no_match_in_field with f a.
Qed.

Lemma stage1_others (l : list (nat * field)) (tail tail' : text) :
  forallb (fun o => forallb token_ok (snd o)) l = true ->
  rewrites wrapper_regex [] (")"%char :: tail) tail' ->
  rewrites wrapper_regex [] (rothers blanks placeholder l ++ ")"%char :: tail)
    (rothers no_gap placeholder l ++ tail').
Proof.
  induction l as [|[n f] l IH]; intros Hl Ht; [exact Ht|].
  cbn [forallb snd] in Hl. apply andb_prop in Hl as [Hf Hl].
  unfold rothers. cbn [map concat]. fold (rothers blanks placeholder l).
  fold (rothers no_gap placeholder l).
  unfold rother. cbn [fst snd no_gap app]. rewrite <- !app_assoc.
  destruct (others_head blanks placeholder l tail) as (x & more & E & Hx).
  apply stage1_comma. apply stage1_gap.
  - rewrite E. apply starts_weaken with (fun c => negb (is_space c)).
    + apply not_space_not_blank.
    + now apply field_then_starts.
  - rewrite E. apply stage1_field; [exact Hf|exact Hx|].
    rewrite <- E. now apply IH.
Qed.

Lemma stage1 (es : list entry) :
  forallb entry_ok es = true ->
  rewrites wrapper_regex [] (rtext "alias(" blanks placeholder ")" es)
    (rtext [] no_gap placeholder ")" es).
Proof.
  induction es as [|e es IH]; intros H.
  - apply rewrites_end. reflexivity.
  - cbn [forallb] in H. apply andb_prop in H as [He H]. specialize (IH H).
    unfold entry_ok in He. apply andb_prop in He as [He Ho].
    apply andb_prop in He as [_ Hp].
    unfold rtext. cbn [map concat].
    fold (rtext "alias(" blanks placeholder ")" es).
    fold (rtext [] no_gap placeholder ")" es).
    unfold rentry. rewrite <- !app_assoc. cbn [app].
    change (rewrites wrapper_regex []
              (T "alias(" ++ rfield placeholder (pv e)
               ++ rothers blanks placeholder (others e)
               ++ ")"%char :: NL :: rtext "alias(" blanks placeholder ")" es)
              (expand [] (T "alias(")
               ++ rfield placeholder (pv e)
               ++ rothers no_gap placeholder (others e)
               ++ ")"%char :: NL :: rtext [] no_gap placeholder ")" es)).
    apply rewrites_match; [discriminate|intros pre; apply wrapper_call|].
    destruct (others_head blanks placeholder (others e)
                (NL :: rtext "alias(" blanks placeholder ")" es))
      as (x & more & E & Hx).
    rewrite E. apply stage1_field; [exact Hp|exact Hx|]. rewrite <- E.
    apply stage1_others; [exact Ho|].
    apply rewrites_copy1; [reflexivity|].
    apply rewrites_copy1; [reflexivity|exact IH].
Qed.

(** *** Stage 2: the closing parenthesis *)

Lemma star_space_stop (R : Type) (K : cont R) (fuel : nat) (pre rest : text) :
  starts (fun c => negb (is_space c)) rest = true ->
  star_loop (@space_step R) fuel pre rest K = K pre rest.
Proof.
  intros Hs. destruct fuel as [|fuel]; [reflexivity|].
  cbn [star_loop]. unfold space_step at 1. cbn [re_match in_class].
  destruct rest as [|c rest]; [reflexivity|].
  cbn [starts] in Hs. apply negb_true_iff in Hs. now rewrite Hs.
Qed.

Lemma newline_no_match (R : Type) (K : cont R) (pre rest : text) :
  starts (fun c => negb (is_space c)) rest = true ->
  re_match (lit [NL]) pre rest K = None.
Proof.
  intros Hs. destruct rest as [|c rest]; [reflexivity|].
  cbn [starts] in Hs. cbn [lit re_match in_class].
  destruct (Ascii.eqb_spec c NL) as [->|_]; [discriminate|reflexivity].
Qed.

Lemma closing_no_match (pre : text) (y : ascii) (rest : text) :
  starts (fun c => negb (is_space c)) rest = true ->
  match_len closing_regex false pre (y :: rest) = None.
Proof.
  intros Hs. unfold match_len, closing_regex. rewrite re_match_lit_then.
  cbn [T list_ascii_of_string strip_prefix].
  destruct (Ascii.eqb ")" y); [|reflexivity].
  cbn [re_match].
  change (fun (p s : text) (k' : cont nat) => re_match (Cls CSpace) p s k')
    with (@space_step nat).
  rewrite star_space_stop by exact Hs. now apply newline_no_match.
Qed.

Lemma star_space_newline (R : Type) (K : cont R) (pre rest : text) :
  starts (fun c => negb (is_space c)) rest = true ->
  re_match (Seq (Star (Cls CSpace)) (lit [NL])) pre (NL :: rest) K
  = K (NL :: pre) rest.
Proof.
  intros Hs. cbn [re_match].
  change (star_loop (@space_step R) (S (length (NL :: rest))) pre (NL :: rest)
            (fun p s => re_match (lit [NL]) p s K) = K (NL :: pre) rest).
  cbn [star_loop]. unfold space_step at 1. cbn [re_match in_class].
  change (is_space NL) with true. cbn iota.
  replace (length rest <? length (NL :: rest)) with true
    by (symmetry; apply Nat.ltb_lt; simpl; lia).
  rewrite star_space_stop by exact Hs.
  rewrite newline_no_match by exact Hs.
  cbn [lit re_match in_class]. now rewrite Ascii.eqb_refl.
Qed.

Lemma closing_match (pre rest : text) :
  starts (fun c => negb (is_space c)) rest = true ->
  match_len closing_regex false pre (")"%char :: NL :: rest) = Some 2.
Proof.
  intros Hs. unfold match_len, closing_regex. rewrite re_match_lit_then.
  cbn [T list_ascii_of_string strip_prefix Ascii.eqb Bool.eqb].
  rewrite star_space_newline by exact Hs.
  cbn [andb length]. f_equal. lia.
Qed.

Lemma stage2_field (f : field) (x : ascii) (more rest' : text) :
  forallb token_ok f = true -> x = ","%char \/ x = ")"%char ->
  rewrites closing_regex [TChar NL] (x :: more) rest' ->
  rewrites closing_regex [TChar NL] (rfield placeholder f ++ x :: more)
    (rfield placeholder f ++ rest').
Proof.
  intros Hf Hx. apply rewrites_copy. intros pre a b E Hb.
  destruct b as [|y b]; [now elim Hb|]. cbn [app].
  apply closing_no_match.
  pose proof (field_no_space _ Hf) as H. rewrite E in H.
  rewrite forallb_app in H. apply andb_prop in H as [_ H].
  cbn [forallb] in H. apply andb_prop in H as [_ H].
  destruct b as [|z b]; cbn [app starts].
  - destruct Hx as [->| ->]; reflexivity.
  - cbn [forallb] in H. now apply andb_prop in H as [H _].
Qed.

Lemma stage2_others (l : list (nat * field)) (tail tail' : text) :
  forallb (fun o => forallb token_ok (snd o)) l = true ->
  rewrites closing_regex [TChar NL] (")"%char :: tail) tail' ->
  rewrites closing_regex [TChar NL]
    (rothers no_gap placeholder l ++ ")"%char :: tail)
    (rothers no_gap placeholder l ++ tail').
Proof.
  induction l as [|[n f] l IH]; intros Hl Ht; [exact Ht|].
  cbn [forallb snd] in Hl. apply andb_prop in Hl as [Hf Hl].
  unfold rothers. cbn [map concat]. fold (rothers no_gap placeholder l).
  unfold rother. cbn [fst snd no_gap app]. rewrite <- !app_assoc.
  destruct (others_head no_gap placeholder l tail) as (x & more & E & Hx).
  apply rewrites_copy1; [reflexivity|].
  rewrite E. apply stage2_field; [exact Hf|exact Hx|].
  rewrite <- E. now apply IH.
Qed.

Lemma rtext_starts (sfx : text) (es : list entry) :
  forallb entry_ok es = true ->
  starts (fun c => negb (is_space c)) (rtext [] no_gap placeholder sfx es)
  = true.
Proof.
  destruct es as [|e es]; [reflexivity|]. intros H.
  cbn [forallb] in H. apply andb_prop in H as [He _].
  unfold entry_ok in He. apply andb_prop in He as [He _].
  apply andb_prop in He as [Hn Hp].
  unfold rtext. cbn [map concat]. unfold rentry. cbn [app].
  pose proof (field_no_space _ Hp) as Hs.
  destruct (pv e) as [|k f]; [discriminate|].
  unfold rfield in *. cbn [map concat] in *.
  destruct k as [c| |]; cbn [placeholder app T list_ascii_of_string starts];
    try reflexivity.
  cbn [placeholder app forallb] in Hs. now apply andb_prop in Hs as [Hs _].
Qed.

Lemma stage2 (es : list entry) :
  forallb entry_ok es = true ->
  rewrites closing_regex [TChar NL] (rtext [] no_gap placeholder ")" es)
    (rtext [] no_gap placeholder [] es).
Proof.
  induction es as [|e es IH]; intros H.
  - apply rewrites_end. reflexivity.
  - pose proof H as H0.
    cbn [forallb] in H. apply andb_prop in H as [He H]. specialize (IH H).
    unfold entry_ok in He. apply andb_prop in He as [He Ho].
    apply andb_prop in He as [_ Hp].
    unfold rtext. cbn [map concat].
    fold (rtext [] no_gap placeholder ")" es).
    fold (rtext [] no_gap placeholder [] es).
    unfold rentry. rewrite <- !app_assoc. cbn [app].
    change (rewrites closing_regex [TChar NL]
              (rfield placeholder (pv e)
               ++ rothers no_gap placeholder (others e)
               ++ ")"%char :: NL :: rtext [] no_gap placeholder ")" es)
              (rfield placeholder (pv e)
               ++ rothers no_gap placeholder (others e)
               ++ NL :: rtext [] no_gap placeholder [] es)).
    destruct (others_head no_gap placeholder (others e)
                (NL :: rtext [] no_gap placeholder ")" es))
      as (x & more & E & Hx).
    rewrite E. apply stage2_field; [exact Hp|exact Hx|]. rewrite <- E.
    apply stage2_others; [exact Ho|].
    change (rewrites closing_regex [TChar NL]
              ([")"%char; NL] ++ rtext [] no_gap placeholder ")" es)
              (expand [TChar NL] [")"%char; NL]
               ++ rtext [] no_gap placeholder [] es)).
    apply rewrites_match; [discriminate| |exact IH].
    intros pre. apply closing_match. now apply rtext_starts.
Qed.

(** *** Stages 3 and 4: the placeholders *)

Lemma lit_match (w pre rest : text) :
  match_len (lit w) false pre (w ++ rest) = Some (length w).
Proof.
  unfold match_len. rewrite re_match_lit, strip_prefix_app. cbn [andb].
  f_equal. rewrite length_app. lia.
Qed.

Lemma lit_first (c : ascii) (w pre : text) (y : ascii) (rest : text) :
  Ascii.eqb y c = false ->
  match_len (lit (c :: w)) false pre (y :: rest) = None.
Proof.
  intros H. unfold match_len. rewrite re_match_lit. cbn [strip_prefix].
  rewrite Ascii.eqb_sym. now rewrite H.
Qed.

Lemma expand_chars (w m : text) : expand (map TChar w) m = w.
Proof. induction w as [|c w IH]; simpl; [reflexivity|now rewrite IH]. Qed.

Lemma parse_template_plain (w : text) :
  forallb plain w = true -> parse_template w = Ret (map TChar w).
Proof.
  induction w as [|c w IH]; intros H; [reflexivity|].
  cbn [forallb] in H. apply andb_prop in H as [Hc H]. specialize (IH H).
  assert (E : Ascii.eqb c "\" = false) by now apply plain_not.
  destruct c as [[] [] [] [] [] [] [] []]; try discriminate E;
    cbn [parse_template]; rewrite IH; reflexivity.
Qed.

Section Placeholder.
Variable w : text.
Variable t : list titem.
Variables tok tok' : token -> text.
Hypothesis w_dollar : exists w', w = "$"%char :: w'.
Hypothesis token_step :
  forall k rest rest',
    token_ok k = true ->
    rewrites (lit w) t rest rest' ->
    rewrites (lit w) t (tok k ++ rest) (tok' k ++ rest').

Lemma placeholder_copy (c : ascii) (rest rest' : text) :
  Ascii.eqb c "$" = false ->
  rewrites (lit w) t rest rest' ->
  rewrites (lit w) t (c :: rest) (c :: rest').
Proof.
  intros Hc. destruct w_dollar as [w' ->].
  apply rewrites_copy1. intros pre. now apply lit_first.
Qed.

Lemma placeholder_field (f : field) (rest rest' : text) :
  forallb token_ok f = true ->
  rewrites (lit w) t rest rest' ->
  rewrites (lit w) t (rfield tok f ++ rest) (rfield tok' f ++ rest').
Proof.
  induction f as [|k f IH]; intros Hf Hr; [exact Hr|].
  cbn [forallb] in Hf. apply andb_prop in Hf as [Hk Hf].
  unfold rfield. cbn [map concat]. fold (rfield tok f) (rfield tok' f).
  rewrite <- !app_assoc. apply token_step; [exact Hk|]. now apply IH.
Qed.

Lemma placeholder_others (l : list (nat * field)) (rest rest' : text) :
  forallb (fun o => forallb token_ok (snd o)) l = true ->
  rewrites (lit w) t rest rest' ->
  rewrites (lit w) t (rothers no_gap tok l ++ rest)
    (rothers no_gap tok' l ++ rest').
Proof.
  induction l as [|[n f] l IH]; intros Hl Hr; [exact Hr|].
  cbn [forallb snd] in Hl. apply andb_prop in Hl as [Hf Hl].
  unfold rothers. cbn [map concat].
  fold (rothers no_gap tok l) (rothers no_gap tok' l).
  unfold rother. cbn [fst snd no_gap app]. rewrite <- !app_assoc.
  apply placeholder_copy; [reflexivity|].
  apply placeholder_field; [exact Hf|]. now apply IH.
Qed.

Lemma placeholder_stage (es : list entry) :
  forallb entry_ok es = true ->
  rewrites (lit w) t (rtext [] no_gap tok [] es)
    (rtext [] no_gap tok' [] es).
Proof.
  induction es as [|e es IH]; intros H.
  - apply rewrites_end. intros pre. destruct w_dollar as [w' ->].
    reflexivity.
  - cbn [forallb] in H. apply andb_prop in H as [He H]. specialize (IH H).
    unfold entry_ok in He. apply andb_prop in He as [He Ho].
    apply andb_prop in He as [_ Hp].
    unfold rtext. cbn [map concat].
    fold (rtext [] no_gap tok [] es) (rtext [] no_gap tok' [] es).
    unfold rentry. rewrite <- !app_assoc. cbn [app].
    apply placeholder_field; [exact Hp|].
    apply placeholder_others; [exact Ho|].
    apply placeholder_copy; [reflexivity|exact IH].
Qed.
End Placeholder.

Lemma stage3 (record : text) (es : list entry) :
  forallb entry_ok es = true ->
  rewrites (lit "$(RECORD)") (map TChar record)
    (rtext [] no_gap placeholder [] es)
    (rtext [] no_gap (with_record record) [] es).
Proof.
  apply placeholder_stage; [now eexists|].
  intros [c| |] rest rest' Hk Hr; cbn [placeholder with_record].
  - apply rewrites_copy1; [|exact Hr]. intros pre. apply lit_first.
    now apply plain_not.
  - rewrite <- (expand_chars record (T "$(RECORD)")) at 2.
    apply rewrites_match; [discriminate|intros pre; apply lit_match|exact Hr].
  - cbn [T list_ascii_of_string app].
    repeat (apply rewrites_copy1; [intros pre; reflexivity|]). exact Hr.
Qed.

Lemma stage4 (record alias : text) (es : list entry) :
  forallb plain record = true ->
  forallb entry_ok es = true ->
  rewrites (lit "$(ALIAS)") (map TChar alias)
    (rtext [] no_gap (with_record record) [] es)
    (rtext [] no_gap (expand_token record alias) [] es).
Proof.
  intros Hrec. apply placeholder_stage; [now eexists|].
  intros [c| |] rest rest' Hk Hr; cbn [placeholder with_record expand_token].
  - apply rewrites_copy1; [|exact Hr]. intros pre. apply lit_first.
    now apply plain_not.
  - apply rewrites_copy; [|exact Hr]. intros pre a b E Hb.
    destruct b as [|y b]; [now elim Hb|]. apply lit_first.
    rewrite E in Hrec. apply forallb_suffix_head in Hrec.
    now apply plain_not.
  - rewrite <- (expand_chars alias (T "$(ALIAS)")) at 2.
    apply rewrites_match; [discriminate|intros pre; apply lit_match|exact Hr].
Qed.

(** *** The lines and their fields *)

Lemma rothers_fields (tok : token -> text) (l : list (nat * field)) :
  rothers no_gap tok l
  = concat (map with_comma (map (fun o => rfield tok (snd o)) l)).
Proof.
  unfold rothers. rewrite map_map. reflexivity.
Qed.

Lemma rtext_bodies (record alias : text) (es : list entry) :
  rtext [] no_gap (expand_token record alias) [] es
  = concat (map (fun b => b ++ [NL]) (map (entry_body record alias) es)).
Proof.
  unfold rtext. rewrite map_map. f_equal. apply map_ext. intros e.
  unfold rentry, entry_body, fields_text. cbn [app].
  now rewrite rothers_fields, <- app_assoc.
Qed.

Lemma split_ws_aux_word (b cur rest : text) :
  forallb (fun c => negb (is_space c)) b = true ->
  split_ws_aux cur (b ++ rest) = split_ws_aux (rev b ++ cur) rest.
Proof.
  revert cur. induction b as [|c b IH]; intros cur H; [reflexivity|].
  cbn [forallb] in H. apply andb_prop in H as [Hc H].
  apply negb_true_iff in Hc. cbn [app split_ws_aux]. rewrite Hc.
  rewrite IH by exact H. cbn [rev]. now rewrite <- app_assoc.
Qed.

Lemma split_ws_lines (bodies : list text) :
  forallb (fun b => negb (text_eqb b [])
                    && forallb (fun c => negb (is_space c)) b) bodies = true ->
  split_ws (concat (map (fun b => b ++ [NL]) bodies)) = bodies.
Proof.
  unfold split_ws. induction bodies as [|b bodies IH]; intros H; [reflexivity|].
  cbn [forallb] in H. apply andb_prop in H as [Hb H].
  apply andb_prop in Hb as [Hn Hs].
  cbn [map concat]. rewrite <- app_assoc.
  rewrite split_ws_aux_word by exact Hs. rewrite app_nil_r.
  cbn [app split_ws_aux]. change (is_space NL) with true. cbn iota.
  destruct (rev b) as [|c r] eqn:E.
  - apply (f_equal (@rev ascii)) in E. rewrite rev_involutive in E.
    subst b. discriminate.
  - rewrite <- E, rev_involutive. now rewrite IH.
Qed.

Lemma expanded_plain (record alias : text) (f : field) :
  forallb plain record = true -> forallb plain alias = true ->
  forallb token_ok f = true ->
  forallb plain (rfield (expand_token record alias) f) = true.
Proof.
  intros Hr Ha. apply rfield_forallb. intros [c| |] Hk; cbn [expand_token];
    [|exact Hr|exact Ha].
  cbn [token_ok] in Hk. cbn [forallb]. now rewrite Hk.
Qed.

Lemma plain_no_char (c : ascii) (s : text) :
  plain c = false -> forallb plain s = true -> no_char c s = true.
Proof.
  intros Hc. apply forallb_impl. intros x Hx. apply negb_true_iff.
  now apply plain_not.
Qed.

Lemma no_char_absent (c : ascii) (s : text) :
  no_char c s = true -> contains [c] s = false.
Proof.
  induction s as [|x s IH]; intros H; [reflexivity|].
  cbn [no_char forallb] in H. apply andb_prop in H as [Hx H].
  apply negb_true_iff in Hx. rewrite contains_unfold, (IH H).
  unfold startswith. cbn [strip_prefix]. rewrite Ascii.eqb_sym, Hx.
  reflexivity.
Qed.

Section Expanded.
Variables record alias : text.
Hypothesis record_plain : forallb plain record = true.
Hypothesis alias_plain : forallb plain alias = true.
Hypothesis record_nonempty : record <> [].
Hypothesis alias_nonempty : alias <> [].

Lemma others_plain (l : list (nat * field)) :
  forallb (fun o => forallb token_ok (snd o)) l = true ->
  forallb (forallb plain)
    (map (fun o => rfield (expand_token record alias) (snd o)) l) = true.
Proof.
  induction l as [|o l IH]; intros H; [reflexivity|].
  cbn [forallb] in H. apply andb_prop in H as [Ho H].
  cbn [map forallb]. rewrite (IH H), andb_true_r.
  now apply expanded_plain.
Qed.

Lemma body_fields (e : entry) :
  entry_ok e = true ->
  split_on "," (replace [DQ] [] (entry_body record alias e))
  = expand_entry record alias e.
Proof.
  intros He. unfold entry_ok in He. apply andb_prop in He as [He Ho].
  apply andb_prop in He as [_ Hp].
  pose proof (@expanded_plain record alias _ record_plain alias_plain Hp) as P.
  pose proof (others_plain _ Ho) as Q.
  rewrite replace_absent.
  - unfold entry_body, expand_entry. apply split_on_fields.
    + now apply plain_no_char.
    + revert Q. apply forallb_impl. intros v. now apply plain_no_char.
  - apply no_char_absent. unfold entry_body.
    apply no_char_fields; [reflexivity| |].
    + now apply plain_no_char.
    + revert Q. apply forallb_impl. intros v. now apply plain_no_char.
Qed.

Lemma body_word (e : entry) :
  entry_ok e = true ->
  negb (text_eqb (entry_body record alias e) [])
  && forallb (fun c => negb (is_space c)) (entry_body record alias e)
  = true.
Proof.
  intros He. unfold entry_ok in He. apply andb_prop in He as [He Ho].
  apply andb_prop in He as [Hn Hp].
  pose proof (@expanded_plain record alias _ record_plain alias_plain Hp) as P.
  pose proof (others_plain _ Ho) as Q.
  apply andb_true_intro. split.
  - unfold entry_body, fields_text. destruct (pv e) as [|k f]; [discriminate|].
    unfold rfield. cbn [map concat].
    destruct k as [c| |]; cbn [expand_token]; [reflexivity| |].
    + destruct record; [now elim record_nonempty|reflexivity].
    + destruct alias; [now elim alias_nonempty|reflexivity].
  - unfold entry_body, fields_text. rewrite forallb_app.
    apply andb_true_intro. split.
    + revert P. apply forallb_impl. apply plain_not_space.
    + clear Ho. induction (others e) as [|o l IH]; [reflexivity|].
      cbn [map forallb] in Q. apply andb_prop in Q as [Q1 Q2].
      cbn [map concat]. rewrite forallb_app, (IH Q2), andb_true_r.
      unfold with_comma. cbn [forallb].
      change (negb (is_space ",")) with true. cbn [andb].
      revert Q1. apply forallb_impl. apply plain_not_space.
Qed.

Lemma bodies_fields (es : list entry) :
  forallb entry_ok es = true ->
  map (fun s => split_on "," (replace [DQ] [] s))
    (split_ws (rtext [] no_gap (expand_token record alias) [] es))
  = map (expand_entry record alias) es.
Proof.
  intros H. rewrite rtext_bodies, split_ws_lines.
  - rewrite map_map. apply map_ext_in. intros e He. apply body_fields.
    rewrite forallb_forall in H. now apply H.
  - apply forallb_forall. intros b Hb. rewrite forallb_forall in H.
    apply in_map_iff in Hb as (e & <- & He). apply body_word. now apply H.
Qed.
End Expanded.

(** For a template whose lines are [alias(<field>, <field>, ...)] calls,
    each ended by a newline, the fields made of plain characters and of the
    placeholders [$(RECORD)] and [$(ALIAS)], the expander returns for every
    line, in order, its comma-separated fields with every [$(RECORD)]
    replaced by the record and every [$(ALIAS)] by the alias, the wrapper
    and the blanks removed: the first field is the expanded PV name, the
    last the expanded alias. *)
Lemma process_alias_template_expands (fs : filesystem)
    (parent record alias : text) (es : list entry) :
  read_file fs (parent ++ T "/db/alias.db") = Some (template_text es) ->
  forallb entry_ok es = true ->
  forallb plain record = true -> record <> [] ->
  forallb plain alias = true -> alias <> [] ->
  process_alias_template fs parent record alias
  = ([], Ret (Some (map (expand_entry record alias) es))).
Proof.
  intros Hf Hes Hr Hrn Ha Han. unfold process_alias_template.
  rewrite Hf. unfold re_sub.
  rewrite wrapper_compiles, closing_compiles, record_token_compiles,
    alias_token_compiles.
  rewrite (parse_template_plain _ Hr), (parse_template_plain _ Ha).
  change (parse_template [NL]) with (Ret [TChar NL]).
  cbn [bind parse_template]. unfold io_bind, lift, io_ret.
  cbn [snd fst app bind].
  unfold template_text.
  rewrite (rewrites_sub (stage1 _ Hes)).
  cbn [snd fst app bind].
  rewrite (rewrites_sub (stage2 _ Hes)).
  cbn [snd fst app bind].
  rewrite (rewrites_sub (stage3 record _ Hes)).
  cbn [snd fst app bind].
  rewrite (rewrites_sub (@stage4 record alias es Hr Hes)).
  cbn [snd fst app bind].
  now rewrite bodies_fields.
Qed.

(** The template line of the design document,
    [alias($(RECORD), $(RECORD).RBV, $(ALIAS).RBV)]. *)
Lemma process_alias_template_expands_witness :
  process_alias_template parent_release "/p" "LM1K2:MCS2:01:m1"
    "LM1K2:INJ_MP1_MR1"
  = ([], Ret (Some [ [ T "LM1K2:MCS2:01:m1";
                       T "LM1K2:MCS2:01:m1.RBV";
                       T "LM1K2:INJ_MP1_MR1.RBV" ] ])).
Proof.
  apply (@process_alias_template_expands parent_release "/p"
           "LM1K2:MCS2:01:m1" "LM1K2:INJ_MP1_MR1" doc_template);
    try reflexivity; discriminate.
Defined.

(** C7.  The template line of the design document in a file that does not
    end in a newline: the closing parenthesis is removed only before a
    newline, so it stays, and the last field is not the expanded alias. *)
Theorem process_alias_template_keeps_parenthesis :
  process_alias_template unterminated_release "/p" "LM1K2:MCS2:01:m1"
    "LM1K2:INJ_MP1_MR1"
  = ([], Ret (Some [ [ T "LM1K2:MCS2:01:m1";
                       T "LM1K2:MCS2:01:m1.RBV";
                       T "LM1K2:INJ_MP1_MR1.RBV)" ] ])).
Proof. vm_compute. reflexivity. Qed.

(** Only blanks are removed inside a line: with a tab after its comma a
    template line comes back as two rows. *)
Lemma process_alias_template_tab_splits_line :
  process_alias_template tabbed_release "/p" "LM1K2:MCS2:01:m1"
    "LM1K2:INJ_MP1_MR1"
  = ([], Ret (Some [ [ T "LM1K2:MCS2:01:m1"; [] ];
                     [ T "LM1K2:INJ_MP1_MR1" ] ])).
Proof. vm_compute. reflexivity. Qed.

(** * More of the script

    ** The file search *)

Lemma search_lines_template (patt repl : text) (r : regex) (t : list titem)
    (lines : list text) :
  re_compile patt = Ret r -> parse_template repl = Ret t ->
  search_lines patt repl lines
  = Ret (map (sub r t) (filter (search r) lines)).
Proof.
  intros Hc Ht. induction lines as [|l lines IH]; [reflexivity|].
  cbn [search_lines filter]. unfold re_search, re_sub. rewrite Hc, Ht.
  cbn [bind]. destruct (search r l); [|exact IH].
  now rewrite IH.
Qed.

(** Without a colour the lines are kept as they are. *)
Lemma search_lines_plain (patt : text) (r : regex) (lines : list text) :
  re_compile patt = Ret r ->
  search_lines patt "\g<0>" lines = Ret (filter (search r) lines).
Proof.
  intros Hc.
  rewrite (@search_lines_template patt "\g<0>" r [TWhole] lines Hc eq_refl).
  f_equal. rewrite <- (map_id (filter (search r) lines)) at 2.
  apply map_ext. intros l. apply sub_whole.
Qed.

Lemma search_file_lines (fs : filesystem) (file patt prefix : text)
    (r : regex) :
  re_compile patt = Ret r ->
  search_file fs file patt prefix None
  = match read_file fs file with
    | Some content =>
        ([], Ret (prefix ++ join prefix (filter (search r) (readlines content))))
    | None => ([file ++ T " does not exist"], Ret [])
    end.
Proof.
  intros Hc. unfold search_file. destruct (read_file fs file); [|reflexivity].
  change ([] ++ T "\g<0>" ++ []) with (T "\g<0>").
  now rewrite (@search_lines_plain patt r _ Hc).
Qed.

(** X1.  [search_file] without a colour returns the lines of the file in
    which the pattern is found, unchanged and in their order, each after
    the prefix; it prints nothing. *)
Theorem search_file_keeps_matching_lines (fs : filesystem)
    (file patt prefix content : text) (r : regex) :
  read_file fs file = Some content ->
  re_compile patt = Ret r ->
  search_file fs file patt prefix None
  = ([], Ret (prefix ++ join prefix (filter (search r) (readlines content)))).
Proof.
  intros Hf Hc. now rewrite (@search_file_lines fs file patt prefix r Hc), Hf.
Qed.

Lemma search_file_keeps_matching_lines_witness :
  search_file child_cfg "/r/ioc1.cfg" "=" "> " None
  = ([], Ret (T "> " ++ release_line ++ T "> ENGINEER = someone" ++ [NL])).
Proof.
  apply (@search_file_keeps_matching_lines child_cfg "/r/ioc1.cfg" "=" "> "
           (release_line ++ T "ENGINEER = someone" ++ [NL]) (lit "="));
    reflexivity.
Defined.

Lemma readlines_aux_nonempty (s cur : text) :
  Forall (fun l => l <> []) (readlines_aux cur s).
Proof.
  revert cur. induction s as [|c s IH]; intros cur; cbn [readlines_aux].
  - destruct cur as [|x cur]; constructor; [|constructor].
    cbn [rev]. intros E. apply app_eq_nil in E as [_ E]. discriminate.
  - destruct (Ascii.eqb c NL); [|apply IH].
    constructor; [|apply IH]. cbn [rev]. intros E.
    apply app_eq_nil in E as [_ E]. discriminate.
Qed.

Lemma join_prefix (prefix : text) (ls : list text) :
  prefix ++ join prefix ls
  = match ls with [] => prefix | _ => concat (map (app prefix) ls) end.
Proof.
  destruct ls as [|l ls]; [apply app_nil_r|].
  revert l. induction ls as [|l' ls IH]; intros l.
  - cbn. now rewrite app_nil_r.
  - change (join prefix (l :: l' :: ls))
      with (l ++ prefix ++ join prefix (l' :: ls)).
    rewrite IH. cbn [map concat]. now rewrite app_assoc.
Qed.

Lemma prefixed_lines_differ (prefix : text) (ls : list text) :
  ls <> [] -> Forall (fun l => l <> []) ls ->
  text_eqb (concat (map (app prefix) ls)) prefix = false.
Proof.
  intros Hn Hl. destruct ls as [|l ls]; [now elim Hn|].
  apply Forall_inv in Hl.
  destruct (text_eqb _ prefix) eqn:E; [|reflexivity].
  apply text_eqb_eq in E. cbn [map concat] in E.
  rewrite <- app_assoc in E.
  apply (f_equal (@length ascii)) in E. rewrite !length_app in E.
  destruct l; [now elim Hl|]. cbn [length] in E. lia.
Qed.

(** X2.  The loop of [find_ioc] over the files: for a pattern that
    compiles it prints one message for every missing file and nothing else,
    and the texts it gathers, put together, are the lines in which the
    pattern is found, file after file in the order of the list and line
    after line in the order of the file, each line after the prefix of its
    file (the path and a colon when there are several files, nothing
    otherwise). *)
Theorem search_files_prefixes_lines (fs : filesystem) (patt : text)
    (r : regex) (several : bool) (path : list text) :
  re_compile patt = Ret r ->
  exists result,
    search_files fs patt several path
    = (map (fun f => f ++ T " does not exist") (missing fs path), Ret result)
    /\ concat result
       = concat (map (fun f =>
                        concat (map (app (line_prefix several f))
                                  (filter (search r) (file_lines fs f))))
                   path).
Proof.
  intros Hc. induction path as [|f path IH].
  - exists []. now split.
  - destruct IH as (result & Hr & Hcat).
    change (search_files fs patt several (f :: path))
      with (output <~ search_file fs f patt (line_prefix several f) None ;;
            result <~ search_files fs patt several path ;;
            io_ret (if negb (text_eqb output (line_prefix several f))
                    then output :: result else result)).
    rewrite (@search_file_lines fs f patt (line_prefix several f) r Hc).
    unfold missing, isfile, file_lines in *. cbn [filter map concat].
    destruct (read_file fs f) as [content|] eqn:Hf; cbn [is_some negb].
    + unfold io_bind at 1. cbn [snd fst app]. rewrite Hr.
      unfold io_bind. cbn [snd fst io_ret]. rewrite app_nil_r.
      rewrite join_prefix.
      destruct (filter (search r) (readlines content)) as [|l ls] eqn:El.
      * rewrite text_eqb_refl. cbn [negb map concat app].
        exists result. now split.
      * rewrite prefixed_lines_differ.
        -- cbn [negb]. eexists. split; [reflexivity|].
           cbn [concat]. now rewrite Hcat.
        -- discriminate.
        -- rewrite <- El. apply Forall_forall. intros x Hx.
           apply filter_In in Hx as [Hx _].
           pose proof (readlines_aux_nonempty content []) as Hall.
           rewrite Forall_forall in Hall. now apply Hall.
    + unfold io_bind at 1. cbn [snd fst app]. rewrite Hr.
      unfold io_bind. cbn [snd fst io_ret app]. rewrite app_nil_r.
      destruct (negb (text_eqb [] (line_prefix several f))).
      * eexists. split; [reflexivity|]. cbn [concat app]. exact Hcat.
      * exists result. now split.
Qed.

Lemma search_files_prefixes_lines_witness :
  exists result,
    search_files one_hutch "{.*id.*}" true [xpp_cfg; xcs_cfg]
    = ([xcs_cfg ++ T " does not exist"], Ret result)
    /\ concat result = xpp_cfg ++ T ":{id:'a'}" ++ [NL].
Proof.
  destruct (@search_files_prefixes_lines one_hutch "{.*id.*}" _ true
              [xpp_cfg; xcs_cfg] eq_refl)
    as (result & H1 & H2).
  exists result. split; [exact H1|]. rewrite H2. reflexivity.
Defined.

(** ** The parent release *)

Lemma search_from_bol (r : regex) (suf pre : text) :
  pre <> [] -> search_from (Seq Bol r) pre suf = false.
Proof.
  revert pre. induction suf as [|c suf IH]; intros pre Hp;
    (destruct pre as [|x pre]; [now elim Hp|]).
  - reflexivity.
  - cbn [search_from]. rewrite IH by discriminate. reflexivity.
Qed.

Lemma search_release (s : text) :
  search release_regex s = startswith "RELEASE" s.
Proof.
  unfold search, release_regex.
  assert (E : is_some (match_len (Seq Bol (lit "RELEASE")) false [] s)
              = startswith "RELEASE" s).
  { unfold match_len, startswith. cbn [re_match]. rewrite re_match_lit.
    now destruct (strip_prefix "RELEASE" s). }
  destruct s as [|c s]; cbn [search_from]; rewrite E.
  - reflexivity.
  - rewrite search_from_bol by discriminate. apply orb_false_r.
Qed.

Lemma rpartition_last (sep : ascii) (h v : text) :
  no_char sep v = true -> rpartition sep (h ++ sep :: v) = Some (h, v).
Proof.
  intros Hv.
  assert (N : forall w, no_char sep w = true -> rpartition sep w = None).
  { induction w as [|c w IH]; [reflexivity|]. intros H.
    cbn [no_char forallb] in H. apply andb_prop in H as [Hc H].
    apply negb_true_iff in Hc. cbn [rpartition]. now rewrite (IH H), Hc. }
  induction h as [|c h IH]; cbn [app rpartition].
  - now rewrite (N v Hv), Ascii.eqb_refl.
  - now rewrite IH.
Qed.

Lemma lstrip_spaces (w x : text) :
  forallb is_space w = true -> lstrip (w ++ x) = lstrip x.
Proof.
  induction w as [|c w IH]; intros H; [reflexivity|].
  cbn [forallb] in H. apply andb_prop in H as [Hc H].
  cbn [app lstrip]. rewrite Hc. now apply IH.
Qed.

Lemma rstrip_tail (x w : text) :
  ends_clean x = true -> forallb is_space w = true -> rstrip (x ++ w) = x.
Proof.
  intros Hx Hw. unfold rstrip. rewrite rev_app_distr, lstrip_spaces.
  - unfold ends_clean in Hx. destruct (rev x) as [|c r] eqn:E.
    + apply (f_equal (@rev ascii)) in E. now rewrite rev_involutive in E.
    + cbn [lstrip]. apply negb_true_iff in Hx. rewrite Hx.
      now rewrite <- E, rev_involutive.
  - rewrite forallb_forall in *. intros c Hc. apply Hw. now apply in_rev.
Qed.

Lemma ends_clean_app (a : text) (c : ascii) (v : text) :
  is_space c = false -> ends_clean v = true -> ends_clean (a ++ c :: v) = true.
Proof.
  intros Hc Hv. unfold ends_clean in *.
  rewrite rev_app_distr. cbn [rev]. rewrite <- app_assoc.
  destruct (rev v) as [|y r]; cbn [app]; [now rewrite Hc|exact Hv].
Qed.

(** X3.  When the child configuration has one line that starts with
    [RELEASE], [find_parent_ioc] returns what follows the last [=] of that
    line, without the white space at the end of the line; blanks between
    the [=] and the path are kept. *)
Theorem find_parent_ioc_release (fs : filesystem)
    (file path d content k v tail : text) :
  fix_dir path = Ret d ->
  read_file fs (d ++ file ++ T ".cfg") = Some content ->
  filter (startswith "RELEASE") (readlines content)
  = [T "RELEASE" ++ k ++ "="%char :: v ++ tail] ->
  no_char "=" v = true -> ends_clean v = true ->
  forallb is_space tail = true ->
  find_parent_ioc fs file path = ([], Ret v).
Proof.
  intros Hd Hf Hl Hv Hc Ht. unfold find_parent_ioc, isfile, search_file.
  rewrite Hd. unfold io_bind at 1. cbn [lift snd fst app].
  rewrite Hf. cbn [is_some negb].
  change ([] ++ T "\g<0>" ++ []) with (T "\g<0>").
  rewrite (@search_lines_plain "^RELEASE" release_regex _ eq_refl).
  rewrite (filter_ext _ _ search_release), Hl.
  unfold io_bind, lift, io_ret. cbn [snd fst app join].
  unfold strip.
  change (lstrip (T "RELEASE" ++ k ++ "="%char :: v ++ tail))
    with (T "RELEASE" ++ k ++ "="%char :: v ++ tail).
  replace (T "RELEASE" ++ k ++ "="%char :: v ++ tail)
    with (((T "RELEASE" ++ k) ++ "="%char :: v) ++ tail)
    by (rewrite <- !app_assoc; reflexivity).
  rewrite rstrip_tail; [|now apply ends_clean_app|exact Ht].
  unfold rsplit1. rewrite rpartition_last by exact Hv. reflexivity.
Qed.

Lemma find_parent_ioc_release_witness :
  find_parent_ioc child_cfg "ioc1" "/r"
  = ([], Ret (T " /reg/g/pcds/epics/ioc/common/smaract/R1.0.20")).
Proof.
  apply (@find_parent_ioc_release child_cfg "ioc1" "/r" "/r/"
           (release_line ++ T "ENGINEER = someone" ++ [NL]) " "
           " /reg/g/pcds/epics/ioc/common/smaract/R1.0.20" [NL]);
    reflexivity.
Defined.

(** X4.  For a path that is not empty [find_parent_ioc] answers
    [Invalid. Child does not exist.] when the directory [fix_dir] yields
    has no configuration of the child, and prints nothing; for the empty
    path it raises [IndexError]. *)
Theorem find_parent_ioc_missing_child (fs : filesystem) (file path : text) :
  (path <> [] ->
   exists d,
     fix_dir path = Ret d
     /\ (read_file fs (d ++ file ++ T ".cfg") = None ->
         find_parent_ioc fs file path
         = ([], Ret (T "Invalid. Child does not exist."))))
  /\ (path = [] -> find_parent_ioc fs file path = ([], Raise IndexError)).
Proof.
  split.
  - intros Hp. destruct (fix_dir_nonempty Hp) as (d & Hd & _).
    exists d. split; [exact Hd|]. intros Hf.
    unfold find_parent_ioc, isfile. rewrite Hd. unfold io_bind.
    cbn [lift snd fst app]. now rewrite Hf.
  - intros ->. reflexivity.
Qed.

Lemma find_parent_ioc_missing_child_witness :
  find_parent_ioc child_cfg "ioc2" "/r"
  = ([], Ret (T "Invalid. Child does not exist."))
  /\ find_parent_ioc child_cfg "ioc1" [] = ([], Raise IndexError).
Proof.
  split.
  - destruct (@find_parent_ioc_missing_child child_cfg "ioc2" "/r")
      as [H _].
    destruct H as (d & Hd & H); [discriminate|].
    injection Hd as <-. apply H. reflexivity.
  - now apply (@find_parent_ioc_missing_child child_cfg "ioc1" []).
Defined.

(** X5.  For a path that is not empty [acquire_aliases] yields the empty
    string, not a list, when the startup script of the IOC is missing,
    after a message that names the script; for the empty path it raises
    [IndexError]. *)
Theorem acquire_aliases_missing_script (fs : filesystem)
    (dir_path ioc : text) :
  (dir_path <> [] ->
   exists d,
     fix_dir dir_path = Ret d
     /\ (read_file fs (d ++ T "build/iocBoot/" ++ ioc ++ T "/st.cmd") = None ->
         acquire_aliases fs dir_path ioc
         = ([(d ++ T "build/iocBoot/" ++ ioc ++ T "/st.cmd")
             ++ T " does not exist"], Ret NoScript)))
  /\ (dir_path = [] ->
      acquire_aliases fs dir_path ioc = ([], Raise IndexError)).
Proof.
  split.
  - intros Hp. destruct (fix_dir_nonempty Hp) as (d & Hd & _).
    exists d. split; [exact Hd|]. intros Hf.
    unfold acquire_aliases, isfile. rewrite Hd. unfold io_bind at 1.
    cbn [lift snd fst app]. now rewrite Hf.
  - intros ->. reflexivity.
Qed.

Lemma acquire_aliases_missing_script_witness :
  acquire_aliases child_release "/r" "ioc2"
  = ([T "/r/build/iocBoot/ioc2/st.cmd does not exist"], Ret NoScript)
  /\ acquire_aliases child_release [] "ioc1" = ([], Raise IndexError).
Proof.
  split.
  - destruct (@acquire_aliases_missing_script child_release "/r" "ioc2")
      as [H _].
    destruct H as (d & Hd & H); [discriminate|].
    injection Hd as <-. apply H. reflexivity.
  - now apply (@acquire_aliases_missing_script child_release [] "ioc1").
Defined.

(** ** The hutch tags *)

Lemma text_eqb_neq (a b : text) : a <> b -> text_eqb a b = false.
Proof.
  intros H. destruct (text_eqb a b) eqn:E; [|reflexivity].
  now apply text_eqb_eq in E.
Qed.

Lemma dict_get_set (key : text) (v : json) (d : list (text * json)) :
  dict_get key (dict_set key v d) = Some v.
Proof.
  induction d as [|[k w] d IH]; cbn [dict_set dict_get].
  - now rewrite text_eqb_refl.
  - destruct (text_eqb k key) eqn:E; cbn [dict_get]; rewrite E; auto.
Qed.

Lemma dict_get_set_other (key k : text) (v : json) (d : list (text * json)) :
  k <> key -> dict_get k (dict_set key v d) = dict_get k d.
Proof.
  intros Hk. induction d as [|[k' w] d IH]; cbn [dict_set dict_get].
  - rewrite text_eqb_neq; [reflexivity|]. intros E. now apply Hk.
  - destruct (text_eqb k' key) eqn:E; cbn [dict_get].
    + apply text_eqb_eq in E. subst k'.
      rewrite text_eqb_neq; [reflexivity|]. intros E. now apply Hk.
    + now rewrite IH.
Qed.

Lemma tag_hutches_combine (ds : list (list (text * json))) (tags : list text) :
  length ds <= length tags ->
  tag_hutches (map JDict ds) tags
  = Ret (map (fun p => JDict (dict_set "hutch" (JStr (snd p)) (fst p)))
           (combine ds tags)).
Proof.
  revert tags. induction ds as [|d ds IH]; intros tags H; [reflexivity|].
  destruct tags as [|h tags]; [simpl in H; lia|].
  cbn [map tag_hutches combine]. rewrite IH by (simpl in H; lia).
  reflexivity.
Qed.

(** X6.  The tagging loop of [find_ioc] pairs records and tags by
    position.  With at least as many tags as records every record gets the
    tag at its own position under the key [hutch], replacing a value it had
    there, and keeps its other keys; tags beyond the records are dropped.
    With fewer tags than records the loop raises [IndexError]. *)
Theorem tag_hutches_by_position (ds : list (list (text * json)))
    (tags : list text) :
  (length ds <= length tags ->
   exists out,
     tag_hutches (map JDict ds) tags = Ret out
     /\ length out = length ds
     /\ forall i d h,
         nth_error ds i = Some d -> nth_error tags i = Some h ->
         exists d',
           nth_error out i = Some (JDict d')
           /\ dict_get "hutch" d' = Some (JStr h)
           /\ forall k, k <> T "hutch" -> dict_get k d' = dict_get k d)
  /\ (length tags < length ds ->
      tag_hutches (map JDict ds) tags = Raise IndexError).
Proof.
  split.
  - intros H. eexists. split; [now apply tag_hutches_combine|]. split.
    + rewrite length_map, length_combine. lia.
    + intros i d h Hd Hh.
      exists (dict_set "hutch" (JStr h) d). split; [|split].
      * rewrite nth_error_map.
        assert (E : nth_error (combine ds tags) i = Some (d, h)).
        { clear H. revert ds tags Hd Hh.
          induction i as [|i IH]; intros [|d0 ds] [|h0 tags] Hd Hh;
            try discriminate; cbn in *.
          - now injection Hd as ->; injection Hh as ->.
          - now apply IH. }
        now rewrite E.
      * apply dict_get_set.
      * intros k Hk. now apply dict_get_set_other.
  - revert tags. induction ds as [|d ds IH]; intros tags H.
    + simpl in H. lia.
    + destruct tags as [|h tags]; [reflexivity|].
      cbn [map tag_hutches]. rewrite IH by (simpl in H; lia). reflexivity.
Qed.

Lemma tag_hutches_by_position_witness :
  (exists out,
      tag_hutches (map JDict two_records) [T "xpp"; T "xcs"; T "cxi"] = Ret out
      /\ length out = 2)
  /\ tag_hutches (map JDict two_records) [T "xpp"] = Raise IndexError.
Proof.
  split.
  - destruct (@tag_hutches_by_position two_records [T "xpp"; T "xcs"; T "cxi"])
      as [H _].
    destruct H as (out & H1 & H2 & _); [simpl; lia|].
    exists out. now split.
  - apply (@tag_hutches_by_position two_records [T "xpp"]). simpl. lia.
Defined.

(** ** What [fix_json] hands to the parser *)

Lemma strip_prefix_some (p s r : text) :
  strip_prefix p s = Some r -> s = p ++ r.
Proof.
  revert s. induction p as [|c p IH]; intros s H; cbn [strip_prefix] in H.
  - now injection H as ->.
  - destruct s as [|d s]; [discriminate|].
    destruct (Ascii.eqb_spec c d) as [->|_]; [|discriminate].
    cbn [app]. f_equal. now apply IH.
Qed.

Lemma replace_fuel_forallb (P : ascii -> bool) (old new : text) :
  forallb P new = true ->
  forall fuel s,
    forallb P s = true -> forallb P (replace_fuel fuel old new s) = true.
Proof.
  intros Hn. induction fuel as [|fuel IH]; intros s Hs; [exact Hs|].
  destruct s as [|x s]; [reflexivity|]. cbn [replace_fuel].
  assert (Hx : forallb P (x :: replace_fuel fuel old new s) = true).
  { cbn [forallb] in *. apply andb_prop in Hs as [H1 H2].
    rewrite H1. now apply IH. }
  destruct (strip_prefix old (x :: s)) as [rest|] eqn:E; [|exact Hx].
  destruct (length rest <? length (x :: s)); [|exact Hx].
  rewrite forallb_app, Hn. apply IH.
  apply strip_prefix_some in E. rewrite E, forallb_app in Hs.
  now apply andb_prop in Hs as [_ Hs].
Qed.

(** Replacing a character leaves none of it. *)
Lemma replace_char_gone (q : ascii) (new : text) :
  no_char q new = true ->
  forall fuel s,
    length s <= fuel -> no_char q (replace_fuel fuel [q] new s) = true.
Proof.
  intros Hn. induction fuel as [|fuel IH]; intros s Hl.
  - destruct s; [reflexivity|simpl in Hl; lia].
  - destruct s as [|x s]; [reflexivity|]. cbn [replace_fuel strip_prefix].
    cbn [length] in Hl.
    destruct (Ascii.eqb q x) eqn:E.
    + replace (length s <? length (x :: s)) with true
        by (symmetry; apply Nat.ltb_lt; simpl; lia).
      rewrite no_char_app, Hn. apply IH. lia.
    + cbn [no_char forallb]. rewrite Ascii.eqb_sym, E. apply IH. lia.
Qed.

Lemma forallb_rev (P : ascii -> bool) (s : text) :
  forallb P s = true -> forallb P (rev s) = true.
Proof.
  rewrite !forallb_forall. intros H x Hx. apply H. now apply in_rev.
Qed.

Lemma forallb_lstrip (P : ascii -> bool) (s : text) :
  forallb P s = true -> forallb P (lstrip s) = true.
Proof.
  induction s as [|x s IH]; intros H; [reflexivity|].
  cbn [lstrip]. destruct (is_space x); [|exact H].
  cbn [forallb] in H. apply andb_prop in H as [_ H]. now apply IH.
Qed.

Lemma forallb_strip (P : ascii -> bool) (s : text) :
  forallb P s = true -> forallb P (strip s) = true.
Proof.
  intros H. unfold strip, rstrip.
  now apply forallb_rev, forallb_lstrip, forallb_rev, forallb_lstrip.
Qed.

Lemma split_on_cons (sep : ascii) (s : text) :
  exists f fs, split_on sep s = f :: fs.
Proof.
  destruct s as [|c s]; cbn [split_on]; [now eexists; eexists|].
  destruct (Ascii.eqb c sep); [now eexists; eexists|].
  destruct (split_on sep s); now eexists; eexists.
Qed.

Lemma split_on_forallb (P : ascii -> bool) (sep : ascii) (s : text) :
  forallb P s = true -> forallb (forallb P) (split_on sep s) = true.
Proof.
  induction s as [|x s IH]; intros H; [reflexivity|].
  cbn [forallb] in H. apply andb_prop in H as [Hx H].
  specialize (IH H). cbn [split_on].
  destruct (Ascii.eqb x sep); [exact IH|].
  destruct (split_on sep s) as [|f fs]; cbn [forallb] in *;
    rewrite Hx; [reflexivity|exact IH].
Qed.

Lemma split_on_no_sep (sep : ascii) (s : text) :
  forallb (no_char sep) (split_on sep s) = true.
Proof.
  induction s as [|x s IH]; [reflexivity|]. cbn [split_on].
  destruct (Ascii.eqb x sep) eqn:E; [exact IH|].
  destruct (split_on sep s) as [|f fs]; cbn [forallb no_char] in *;
    rewrite E; [reflexivity|exact IH].
Qed.

(** X7.  On every text [fix_json] returns, without raising, a list that
    is not empty, whose elements hold neither a single quote nor a
    newline. *)
Theorem fix_json_output (raw_data : text) :
  exists l,
    fix_json raw_data = Ret l
    /\ l <> []
    /\ forallb (fun s => no_char "'" s && no_char NL s) l = true.
Proof.
  unfold fix_json, re_sub.
  rewrite key_compiles, digit_compiles.
  change (re_compile "True") with (Ret (lit "True")).
  change (re_compile "False") with (Ret (lit "False")).
  change (parse_template "'\g<0>'") with (Ret [TChar "'"; TWhole; TChar "'"]).
  change (parse_template "true") with (Ret (map TChar (T "true"))).
  change (parse_template "false") with (Ret (map TChar (T "false"))).
  cbn [bind].
  set (t := sub digit_regex _ _).
  eexists. split; [reflexivity|]. split.
  - destruct (split_on_cons NL
                (strip (replace " {" "{" (replace "}," "}" (replace "'" [DQ] t)))))
      as (f & fs & ->). discriminate.
  - assert (H : no_char "'"
                  (strip (replace " {" "{" (replace "}," "}" (replace "'" [DQ] t))))
                = true).
    { apply forallb_strip. unfold replace at 1.
      apply replace_fuel_forallb; [reflexivity|]. unfold replace at 1.
      apply replace_fuel_forallb; [reflexivity|]. unfold replace.
      apply replace_char_gone; [reflexivity|lia]. }
    apply (split_on_forallb _ NL) in H.
    pose proof (split_on_no_sep NL
      (strip (replace " {" "{" (replace "}," "}" (replace "'" [DQ] t))))) as H'.
    apply forallb_forall. intros x Hx. apply andb_true_intro. split.
    + revert x Hx. now apply forallb_forall.
    + revert x Hx. now apply forallb_forall.
Qed.

(** ** The fields of an expanded template *)

Lemma split_ws_aux_words (s cur : text) :
  forallb (fun c => negb (is_space c)) cur = true ->
  forallb (forallb (fun c => negb (is_space c))) (split_ws_aux cur s) = true.
Proof.
  revert cur. induction s as [|c s IH]; intros cur Hc; cbn [split_ws_aux].
  - pose proof (forallb_rev _ _ Hc) as H.
    destruct cur; [reflexivity|]. cbn [forallb]. now rewrite H.
  - destruct (is_space c) eqn:E.
    + pose proof (forallb_rev _ _ Hc) as H.
      destruct cur; [now apply IH|]. cbn [forallb]. rewrite H. now apply IH.
    + apply IH. cbn [forallb]. now rewrite E, Hc.
Qed.

Lemma clean_field_intro (f : text) :
  no_char DQ f = true -> no_char "," f = true ->
  forallb (fun c => negb (is_space c)) f = true ->
  clean_field f = true.
Proof.
  unfold clean_field, no_char. rewrite !forallb_forall.
  intros H1 H2 H3 x Hx. now rewrite (H1 x Hx), (H2 x Hx), (H3 x Hx).
Qed.

Lemma template_row_clean (w : text) :
  forallb (fun c => negb (is_space c)) w = true ->
  forallb clean_field (split_on "," (replace [DQ] [] w)) = true.
Proof.
  intros Hw.
  assert (H1 : no_char DQ (replace [DQ] [] w) = true).
  { unfold replace. apply replace_char_gone; [reflexivity|lia]. }
  assert (H2 : forallb (fun c => negb (is_space c)) (replace [DQ] [] w) = true).
  { unfold replace. now apply replace_fuel_forallb. }
  apply (split_on_forallb _ ",") in H1, H2.
  pose proof (split_on_no_sep "," (replace [DQ] [] w)) as H3.
  apply forallb_forall. intros f Hf.
  apply clean_field_intro.
  - revert f Hf. now apply forallb_forall.
  - revert f Hf. now apply forallb_forall.
  - revert f Hf. now apply forallb_forall.
Qed.

(** X8.  Whatever the template file holds, when the record and the alias
    are well-formed replacement texts [process_alias_template] returns a
    list of rows, printing nothing; no row is empty and no field of a row
    holds a double quote, a comma or white space. *)
Theorem process_alias_template_fields (fs : filesystem)
    (parent record alias content : text) (tr ta : list titem) :
  read_file fs (parent ++ T "/db/alias.db") = Some content ->
  parse_template record = Ret tr ->
  parse_template alias = Ret ta ->
  exists rows,
    process_alias_template fs parent record alias = ([], Ret (Some rows))
    /\ Forall (fun row => row <> [] /\ forallb clean_field row = true) rows.
Proof.
  intros Hf Hr Ha. unfold process_alias_template. rewrite Hf. unfold re_sub.
  rewrite wrapper_compiles, closing_compiles, record_token_compiles,
    alias_token_compiles, Hr, Ha.
  change (parse_template [NL]) with (Ret [TChar NL]).
  cbn [bind parse_template]. unfold io_bind, lift, io_ret.
  cbn [snd fst app bind].
  eexists. split; [reflexivity|].
  apply Forall_forall. intros row Hrow.
  apply in_map_iff in Hrow as (w & <- & Hw). split.
  - destruct (split_on_cons "," (replace [DQ] [] w)) as (f & l & ->).
    discriminate.
  - apply template_row_clean.
    pose proof (@split_ws_aux_words
                  (sub (lit "$(ALIAS)") ta
                     (sub (lit "$(RECORD)") tr
                        (sub closing_regex [TChar NL]
                           (sub wrapper_regex [] content)))) [] eq_refl) as H.
    rewrite forallb_forall in H. now apply H.
Qed.

Lemma process_alias_template_fields_witness :
  exists rows,
    process_alias_template parent_release "/p" "a b" "c,d"
    = ([], Ret (Some rows))
    /\ Forall (fun row => row <> [] /\ forallb clean_field row = true) rows.
Proof.
  apply (@process_alias_template_fields parent_release "/p" "a b" "c,d"
           (T "alias($(RECORD), $(RECORD).RBV, $(ALIAS).RBV)" ++ [NL])
           (map TChar (T "a b")) (map TChar (T "c,d")));
    reflexivity.
Defined.

(** ** Control sequences *)

Lemma re_match_one_of (l : list ascii) (R : Type) (pre suf : text)
    (k : cont R) :
  re_match (one_of l) pre suf k
  = match suf with
    | x :: s => if existsb (Ascii.eqb x) l then k (x :: pre) s else None
    | [] => None
    end.
Proof.
  induction l as [|c l IH].
  - cbn. now destruct suf.
  - cbn [one_of]. destruct l as [|c' l].
    + cbn [re_match in_class existsb]. destruct suf as [|x s]; [reflexivity|].
      now rewrite orb_false_r.
    + cbn [re_match in_class]. rewrite IH.
      destruct suf as [|x s]; [reflexivity|].
      cbn [existsb]. destruct (Ascii.eqb x c); cbn [orb]; [|reflexivity].
      destruct (k (x :: pre) s); [reflexivity|].
      now destruct (_ || _).
Qed.

Lemma in_chars_between (lo hi : nat) (x : ascii) :
  hi < 256 ->
  existsb (Ascii.eqb x) (chars_between lo hi) = in_range lo hi x.
Proof.
  intros Hhi. unfold in_range, code, chars_between.
  apply eq_true_iff_eq. rewrite existsb_exists, andb_true_iff.
  rewrite Nat.leb_le, Nat.leb_le. split.
  - intros (c & Hc & E). apply Ascii.eqb_eq in E. subst c.
    apply in_map_iff in Hc as (n & <- & Hn). apply in_seq in Hn.
    rewrite nat_ascii_embedding by lia. lia.
  - intros [H1 H2]. exists x. split; [|apply Ascii.eqb_refl].
    apply in_map_iff. exists (nat_of_ascii x). split.
    + apply ascii_nat_embedding.
    + apply in_seq. lia.
Qed.

Lemma star_set_stop (l : list ascii) (R : Type) (K : cont R) (fuel : nat)
    (pre rest : text) :
  starts (fun c => negb (existsb (Ascii.eqb c) l)) rest = true ->
  star_loop (@set_step l R) fuel pre rest K = K pre rest.
Proof.
  intros Hs. destruct fuel as [|fuel]; [reflexivity|].
  cbn [star_loop]. unfold set_step at 1. rewrite re_match_one_of.
  destruct rest as [|c rest]; [reflexivity|].
  cbn [starts] in Hs. apply negb_true_iff in Hs. now rewrite Hs.
Qed.

Lemma star_set_run (l : list ascii) (R : Type) (K : cont R) (v : R)
    (rest : text) :
  starts (fun c => negb (existsb (Ascii.eqb c) l)) rest = true ->
  (forall p, K p rest = Some v) ->
  forall xs fuel pre,
    forallb (fun x => existsb (Ascii.eqb x) l) xs = true ->
    length xs < fuel ->
    star_loop (@set_step l R) fuel pre (xs ++ rest) K = Some v.
Proof.
  intros Hs HK. induction xs as [|x xs IH]; intros fuel pre Hx Hf.
  - cbn [app]. rewrite star_set_stop by exact Hs. apply HK.
  - destruct fuel as [|fuel]; [simpl in Hf; lia|].
    cbn [forallb] in Hx. apply andb_prop in Hx as [Hx Hxs].
    cbn [app star_loop]. unfold set_step at 1. rewrite re_match_one_of, Hx.
    replace (length (xs ++ rest) <? length (x :: xs ++ rest)) with true
      by (symmetry; apply Nat.ltb_lt; simpl; lia).
    rewrite IH; [reflexivity|exact Hxs|simpl in Hf; lia].
Qed.

Lemma in_range_disjoint (lo hi lo' hi' : nat) (x : ascii) :
  hi < lo' \/ hi' < lo ->
  in_range lo' hi' x = true -> in_range lo hi x = false.
Proof.
  unfold in_range. intros H E. apply andb_prop in E as [E1 E2].
  apply Nat.leb_le in E1, E2. apply andb_false_iff.
  destruct H; [right|left]; apply Nat.leb_gt; lia.
Qed.

(** What follows the parameters of a control sequence in the pattern. *)
Lemma ansi_final_match (R : Type) (K : cont R) (p : text) (final : ascii)
    (rest : text) :
  in_range 64 126 final = true ->
  re_match (Seq (Star (one_of (chars_between 32 47)))
              (Seq (one_of (chars_between 64 126)) Eps)) p (final :: rest) K
  = K (final :: p) rest.
Proof.
  intros Hf. cbn [re_match].
  change (star_loop (@set_step (chars_between 32 47) R)
            (S (length (final :: rest))) p (final :: rest)
            (fun p0 s0 =>
               re_match (Seq (one_of (chars_between 64 126)) Eps) p0 s0 K)
          = K (final :: p) rest).
  rewrite star_set_stop.
  - cbn [re_match]. rewrite re_match_one_of, in_chars_between by lia.
    now rewrite Hf.
  - cbn [starts]. rewrite in_chars_between by lia.
    rewrite (@in_range_disjoint 32 47 64 126 final) by (auto; lia).
    reflexivity.
Qed.

Lemma re_match_seq (r1 r2 : regex) (R : Type) (pre suf : text) (k : cont R) :
  re_match (Seq r1 r2) pre suf k
  = re_match r1 pre suf (fun p s => re_match r2 p s k).
Proof. reflexivity. Qed.

Lemma re_match_alt (r1 r2 : regex) (R : Type) (pre suf : text) (k : cont R) :
  re_match (Alt r1 r2) pre suf k
  = match re_match r1 pre suf k with
    | Some x => Some x
    | None => re_match r2 pre suf k
    end.
Proof. reflexivity. Qed.

Lemma re_match_char (c : ascii) (R : Type) (pre suf : text) (k : cont R) :
  re_match (Cls (CChar c)) pre (c :: suf) k = k (c :: pre) suf.
Proof. cbn [re_match in_class]. now rewrite Ascii.eqb_refl. Qed.

Lemma ansi_tail_match (R : Type) (K : cont R) (v : R) (pre params : text)
    (final : ascii) (rest : text) :
  forallb (in_range 48 63) params = true ->
  in_range 64 126 final = true ->
  (forall p, K p rest = Some v) ->
  re_match (Seq (Star (one_of (chars_between 48 63)))
              (Seq (Star (one_of (chars_between 32 47)))
                 (Seq (one_of (chars_between 64 126)) Eps)))
    pre (params ++ final :: rest) K
  = Some v.
Proof.
  intros Hp Hf HK.
  change (star_loop (@set_step (chars_between 48 63) R)
            (S (length (params ++ final :: rest))) pre
            (params ++ final :: rest)
            (fun p s =>
               re_match (Seq (Star (one_of (chars_between 32 47)))
                           (Seq (one_of (chars_between 64 126)) Eps)) p s K)
          = Some v).
  apply star_set_run.
  - cbn [starts]. rewrite in_chars_between by lia.
    rewrite (@in_range_disjoint 48 63 64 126 final) by (auto; lia).
    reflexivity.
  - intros p. rewrite ansi_final_match by exact Hf. apply HK.
  - revert Hp. apply forallb_impl. intros x Hx.
    now rewrite in_chars_between by lia.
  - rewrite length_app. lia.
Qed.

Lemma ansi_control_match (pre params : text) (final : ascii) (rest : text) :
  forallb (in_range 48 63) params = true ->
  in_range 64 126 final = true ->
  match_len ansi_escape false pre (csi params final ++ rest)
  = Some (length (csi params final)).
Proof.
  intros Hp Hf. unfold match_len, ansi_escape, csi.
  cbn [app]. rewrite <- app_assoc. cbn [app].
  rewrite re_match_seq, re_match_char. cbn beta.
  rewrite re_match_seq, re_match_alt.
  rewrite re_match_seq, re_match_one_of.
  change (existsb (Ascii.eqb "[") (chars_between 64 90 ++ chars_between 92 95))
    with false. cbn iota.
  rewrite re_match_seq, re_match_char. cbn beta.
  apply ansi_tail_match; [exact Hp|exact Hf|].
  intros p. cbn [re_match andb]. f_equal. cbn [length].
  rewrite !length_app. cbn [length]. lia.
Qed.

Lemma ansi_no_match (pre : text) (x : ascii) (rest : text) :
  Ascii.eqb x ESC = false ->
  match_len ansi_escape false pre (x :: rest) = None.
Proof.
  intros H. unfold match_len, ansi_escape. cbn [re_match in_class].
  now rewrite H.
Qed.

Lemma ansi_piece_rewrites (p : ansi_piece) (rest rest' : text) :
  ansi_piece_ok p = true ->
  rewrites ansi_escape [] rest rest' ->
  rewrites ansi_escape [] (ansi_text p ++ rest) (shown_text p ++ rest').
Proof.
  intros Hp Hr. destruct p as [s|params final]; cbn [ansi_text shown_text].
  - apply rewrites_copy; [|exact Hr]. intros pre a b E Hb.
    destruct b as [|x b]; [now elim Hb|]. apply ansi_no_match.
    cbn [ansi_piece_ok] in Hp. rewrite E in Hp.
    now apply no_char_suffix_head in Hp.
  - cbn [ansi_piece_ok] in Hp. apply andb_prop in Hp as [H1 H2].
    change ([] ++ rest') with (expand [] (csi params final) ++ rest').
    apply rewrites_match; [discriminate| |exact Hr].
    intros pre. now apply ansi_control_match.
Qed.

Lemma clean_ansi_pieces (l : list ansi_piece) :
  forallb ansi_piece_ok l = true ->
  rewrites ansi_escape [] (concat (map ansi_text l))
    (concat (map shown_text l)).
Proof.
  intros H. induction l as [|p l IH].
  - apply rewrites_end. reflexivity.
  - cbn [forallb] in H. apply andb_prop in H as [Hp H].
    cbn [map concat]. apply ansi_piece_rewrites; [exact Hp|]. now apply IH.
Qed.

(** X9.  [clean_ansi] removes the control sequences [ESC [ <parameters>
    <final>] from a text and keeps all that is between them, in order. *)
Theorem clean_ansi_removes_controls (l : list ansi_piece) :
  forallb ansi_piece_ok l = true ->
  clean_ansi (concat (map ansi_text l)) = concat (map shown_text l).
Proof.
  intros H. unfold clean_ansi. now apply rewrites_sub, clean_ansi_pieces.
Qed.

Lemma clean_ansi_removes_controls_witness :
  clean_ansi (Fore_LIGHTYELLOW_EX ++ T "parent_ioc" ++ Style_RESET_ALL)
  = T "parent_ioc".
Proof. apply (@clean_ansi_removes_controls coloured_header). reflexivity. Defined.

(** *** Colouring and cleaning *)

Lemma coloured_clean (s s' : text) : coloured s s' -> clean_ansi s = s'.
Proof.
  intros (l & H & -> & ->). unfold clean_ansi.
  now apply rewrites_sub, clean_ansi_pieces.
Qed.

Lemma coloured_app (a a' b b' : text) :
  coloured a a' -> coloured b b' -> coloured (a ++ b) (a' ++ b').
Proof.
  intros (l & H & -> & ->) (m & H' & -> & ->). exists (l ++ m).
  rewrite forallb_app, H, H', !map_app, !concat_app. now repeat split.
Qed.

Lemma coloured_shown (s : text) : no_char ESC s = true -> coloured s s.
Proof.
  intros H. exists [Shown s]. cbn. rewrite H, !app_nil_r. now repeat split.
Qed.

Lemma coloured_control (params : text) (final : ascii) :
  forallb (in_range 48 63) params = true -> in_range 64 126 final = true ->
  coloured (csi params final) [].
Proof.
  intros H1 H2. exists [Control params final]. cbn [forallb ansi_piece_ok].
  rewrite H1, H2. cbn. rewrite app_nil_r. now repeat split.
Qed.

Lemma parse_template_literal (a b : text) :
  no_char "\" a = true ->
  parse_template (a ++ b) = (l <- parse_template b ;; Ret (map TChar a ++ l)).
Proof.
  induction a as [|c a IH]; intros H.
  - cbn [app map]. now destruct (parse_template b).
  - cbn [no_char forallb] in H. apply andb_prop in H as [Hc H].
    specialize (IH H). apply negb_true_iff in Hc.
    destruct c as [[] [] [] [] [] [] [] []]; try discriminate Hc;
      cbn [app parse_template]; rewrite IH;
      now destruct (parse_template b).
Qed.

Lemma expand_literal (w : text) (t : list titem) (m : text) :
  expand (map TChar w ++ t) m = w ++ expand t m.
Proof. induction w as [|c w IH]; cbn; [reflexivity|now rewrite IH]. Qed.

Lemma expand_colour (color m : text) :
  expand (colour_template color) m = color ++ m ++ Style_RESET_ALL.
Proof.
  unfold colour_template. rewrite expand_literal. cbn [expand].
  rewrite <- (app_nil_r (map TChar Style_RESET_ALL)), expand_literal.
  now rewrite app_nil_r.
Qed.

Lemma coloured_rewrite (params : text) (final : ascii) (l : list piece) :
  forallb (in_range 48 63) params = true -> in_range 64 126 final = true ->
  no_char ESC (concat (map piece_text l)) = true ->
  coloured (rewrite (colour_template (csi params final)) l)
    (concat (map piece_text l)).
Proof.
  intros H1 H2. induction l as [|[c|m] l IH]; intros H.
  - now apply coloured_shown.
  - cbn [map concat piece_text rewrite app] in *.
    cbn [no_char forallb] in H. apply andb_prop in H as [Hc H].
    apply (@coloured_app [c] [c]); [|now apply IH].
    apply coloured_shown. cbn [no_char forallb]. now rewrite Hc.
  - cbn [map concat piece_text rewrite] in *.
    rewrite no_char_app in H. apply andb_prop in H as [Hm H].
    rewrite expand_colour.
    apply coloured_app; [|now apply IH].
    assert (E : coloured (csi params final ++ m ++ Style_RESET_ALL)
                  ([] ++ m ++ [])).
    { apply coloured_app; [now apply coloured_control|].
      apply coloured_app; [now apply coloured_shown|].
      now apply (@coloured_control "0" "m"). }
    cbn [app] in E. now rewrite app_nil_r in E.
Qed.

Lemma coloured_sub (r : regex) (params : text) (final : ascii) (s : text) :
  forallb (in_range 48 63) params = true -> in_range 64 126 final = true ->
  no_char ESC s = true ->
  coloured (sub r (colour_template (csi params final)) s) s.
Proof.
  intros H1 H2 H. unfold sub.
  rewrite <- (scan_text r s 0 []) at 2.
  apply coloured_rewrite; [exact H1|exact H2|].
  now rewrite scan_text.
Qed.

Lemma coloured_join (f : text -> text) (prefix : text) (ls : list text) :
  no_char ESC prefix = true ->
  (forall l, In l ls -> coloured (f l) l) ->
  coloured (join prefix (map f ls)) (join prefix ls).
Proof.
  intros Hp. induction ls as [|l ls IH]; intros H.
  - now apply coloured_shown.
  - destruct ls as [|l' ls]; [apply H; now left|].
    change (coloured (f l ++ prefix ++ join prefix (map f (l' :: ls)))
              (l ++ prefix ++ join prefix (l' :: ls))).
    apply coloured_app; [apply H; now left|].
    apply coloured_app; [now apply coloured_shown|].
    apply IH. intros x Hx. apply H. now right.
Qed.

Lemma readlines_aux_chars (P : ascii -> bool) (s cur : text) :
  forallb P s = true -> forallb P cur = true ->
  forallb (forallb P) (readlines_aux cur s) = true.
Proof.
  revert cur. induction s as [|c s IH]; intros cur Hs Hc; cbn [readlines_aux].
  - pose proof (forallb_rev _ _ Hc) as H.
    destruct cur; [reflexivity|]. cbn [forallb]. now rewrite H.
  - cbn [forallb] in Hs. apply andb_prop in Hs as [Hx Hs].
    assert (H : forallb P (c :: cur) = true) by (cbn [forallb]; now rewrite Hx).
    destruct (Ascii.eqb c NL).
    + cbn [forallb]. rewrite (IH [] Hs eq_refl), andb_true_r.
      now apply forallb_rev.
    + now apply IH.
Qed.

(** X10.  [clean_ansi] undoes the colouring of [search_file]: for a file
    and a prefix without escape characters and a colour that is a control
    sequence, the text [search_file] returns with the colour, once cleaned,
    is the text it returns without. *)
Theorem search_file_colour_cleans (fs : filesystem)
    (file patt prefix content params : text) (final : ascii) (r : regex) :
  read_file fs file = Some content ->
  re_compile patt = Ret r ->
  no_char ESC content = true -> no_char ESC prefix = true ->
  forallb (in_range 48 63) params = true ->
  in_range 64 126 final = true -> final <> "\"%char ->
  exists out,
    search_file fs file patt prefix (Some (csi params final)) = ([], Ret out)
    /\ Ret (clean_ansi out) = snd (search_file fs file patt prefix None).
Proof.
  intros Hf Hc Hcontent Hprefix Hp Hfin Hb.
  rewrite (@search_file_lines fs file patt prefix r Hc).
  unfold search_file. rewrite Hf.
  assert (Ht : parse_template (csi params final ++ T "\g<0>" ++ Style_RESET_ALL)
               = Ret (colour_template (csi params final))).
  { rewrite parse_template_literal; [reflexivity|].
    change (no_char "\" (csi params final))
      with (no_char "\" (params ++ [final])).
    rewrite no_char_app. apply andb_true_intro. split.
    - revert Hp. apply forallb_impl. intros x Hx.
      apply negb_true_iff, Ascii.eqb_neq. intros ->. discriminate Hx.
    - cbn [no_char forallb]. rewrite andb_true_r.
      now apply negb_true_iff, Ascii.eqb_neq. }
  rewrite (@search_lines_template patt _ r _ _ Hc Ht).
  unfold io_bind, lift, io_ret. cbn [snd fst app].
  eexists. split; [reflexivity|]. f_equal.
  apply coloured_clean. apply coloured_app; [now apply coloured_shown|].
  apply coloured_join; [exact Hprefix|].
  intros l Hl. apply coloured_sub; [exact Hp|exact Hfin|].
  apply filter_In in Hl as [Hl _].
  pose proof (@readlines_aux_chars (fun x => negb (Ascii.eqb x ESC)) content []
                Hcontent eq_refl) as H.
  rewrite forallb_forall in H. now apply H.
Qed.

Lemma search_file_colour_cleans_witness :
  exists out,
    search_file child_cfg "/r/ioc1.cfg" "E+" "> " (Some Fore_RED)
    = ([], Ret out)
    /\ Ret (clean_ansi out)
       = snd (search_file child_cfg "/r/ioc1.cfg" "E+" "> " None).
Proof.
  eapply (@search_file_colour_cleans child_cfg "/r/ioc1.cfg" "E+" "> "
            (release_line ++ T "ENGINEER = someone" ++ [NL]) "31" "m");
    first [reflexivity | discriminate].
Defined.

(** ** The prompts *)

Lemma lower_char_twice (c : ascii) : lower_char (lower_char c) = lower_char c.
Proof. destruct c as [[] [] [] [] [] [] [] []]; reflexivity. Qed.

Lemma text_eqb_nil (s : text) :
  text_eqb s [] = match s with [] => true | _ => false end.
Proof. now destruct s. Qed.

(** One line of [simple_prompt]. *)
Lemma simple_prompt_line (prompt default line : text) (rest : list text) :
  simple_prompt prompt default (line :: rest)
  = match entered default line with
    | [] => ([Asked prompt], Failed IndexError)
    | _ =>
        if says_yes default line then ([Asked prompt], Reply true rest)
        else if says_no default line then ([Asked prompt], Reply false rest)
        else (Asked prompt :: Printed invalid_choice
                :: fst (simple_prompt prompt default rest),
              snd (simple_prompt prompt default rest))
    end.
Proof.
  cbn [simple_prompt]. unfold says_yes, says_no, entered.
  assert (E : (if text_eqb (lower (strip line)) [] then lower default
               else lower (strip line))
              = lower (match strip line with [] => default | s => s end)).
  { now destruct (strip line). }
  rewrite E. destruct (match strip line with [] => default | s => s end)
    as [|x s]; [reflexivity|].
  cbn [lower map first_is]. now rewrite lower_char_twice.
Qed.

Lemma simple_prompt_retries (prompt default : text) (bad stdin : list text) :
  forallb (undecided default) bad = true ->
  simple_prompt prompt default (bad ++ stdin)
  = (retries prompt (length bad) ++ fst (simple_prompt prompt default stdin),
     snd (simple_prompt prompt default stdin)).
Proof.
  induction bad as [|l bad IH]; intros H.
  - unfold retries. cbn [app length repeat concat].
    now destruct (simple_prompt prompt default stdin).
  - cbn [forallb] in H. apply andb_prop in H as [Hl H].
    cbn [app]. rewrite simple_prompt_line, (IH H).
    unfold undecided in Hl. destruct (entered default l); [discriminate|].
    apply andb_prop in Hl as [H1 H2].
    apply negb_true_iff in H1, H2. rewrite H1, H2. reflexivity.
Qed.

(** X11.  [simple_prompt] asks again, after the invalid-entry message, as
    long as the lines it reads answer neither yes nor no: a line answers by
    its first letter, in either case, once the white space around it is
    removed, and a blank line answers with the default.  The first line
    that answers decides and is the last one read.  A blank line under an
    empty default raises [IndexError]; when the input ends first, the
    prompt ends with it and returns nothing. *)
Theorem simple_prompt_outcome (prompt default : text) (bad : list text) :
  forallb (undecided default) bad = true ->
  simple_prompt prompt default bad
  = (retries prompt (length bad) ++ [Asked prompt], EndOfInput)
  /\ forall line rest,
      (says_yes default line = true ->
       simple_prompt prompt default (bad ++ line :: rest)
       = (retries prompt (length bad) ++ [Asked prompt], Reply true rest))
      /\ (says_no default line = true ->
          simple_prompt prompt default (bad ++ line :: rest)
          = (retries prompt (length bad) ++ [Asked prompt], Reply false rest))
      /\ (entered default line = [] ->
          simple_prompt prompt default (bad ++ line :: rest)
          = (retries prompt (length bad) ++ [Asked prompt],
             Failed IndexError)).
Proof.
  intros H. split; [|intros line rest; split; [|split]].
  - rewrite <- (app_nil_r bad) at 1. now rewrite simple_prompt_retries.
  - intros Hy. rewrite simple_prompt_retries, simple_prompt_line by exact H.
    unfold says_yes in Hy. destruct (entered default line) eqn:E;
      [discriminate|].
    unfold says_yes. rewrite E, Hy. reflexivity.
  - intros Hn. rewrite simple_prompt_retries, simple_prompt_line by exact H.
    unfold says_no, says_yes in *. destruct (entered default line) as [|x s];
      [discriminate|].
    cbn [first_is] in *. apply Ascii.eqb_eq in Hn. rewrite Hn. reflexivity.
  - intros He. rewrite simple_prompt_retries, simple_prompt_line by exact H.
    now rewrite He.
Qed.

Lemma simple_prompt_outcome_witness :
  simple_prompt "Proceed? (Y/n): " "Y" [T "maybe"; T "  "; T "left"]
  = ([Asked "Proceed? (Y/n): "; Printed invalid_choice;
      Asked "Proceed? (Y/n): "], Reply true [T "left"])
  /\ simple_prompt "Proceed? (Y/n): " [] [T "maybe"; T "  "; T "left"]
     = ([Asked "Proceed? (Y/n): "; Printed invalid_choice;
         Asked "Proceed? (Y/n): "], Failed IndexError).
Proof.
  split.
  - apply (@simple_prompt_outcome "Proceed? (Y/n): " "Y" [T "maybe"] eq_refl).
    reflexivity.
  - apply (@simple_prompt_outcome "Proceed? (Y/n): " [] [T "maybe"] eq_refl).
    reflexivity.
Defined.

(** *** [request_file_dest] *)

Lemma confirm_round (prompt : text) (yes : bool) (r : round)
    (rest : list text) :
  round_ok yes r = true ->
  snd (simple_prompt prompt "N" (again r ++ answer r :: rest))
  = Reply yes rest.
Proof.
  unfold round_ok. intros H. apply andb_prop in H as [Hb Ha].
  rewrite simple_prompt_retries by exact Hb. cbn [snd].
  rewrite simple_prompt_line.
  destruct yes.
  - unfold says_yes in *. destruct (entered "N" (answer r));
      [discriminate|]. now rewrite Ha.
  - unfold says_no, says_yes in *. destruct (entered "N" (answer r)) as [|x s];
      [discriminate|].
    cbn [first_is] in *. apply Ascii.eqb_eq in Ha. now rewrite Ha.
Qed.

Lemma request_file_dest_round (fuel : nat) (prompt default : text)
    (r : round) (rest : list text) :
  snd (request_file_dest_loop (S fuel) prompt default (round_lines r ++ rest))
  = match snd (simple_prompt
                 (T "Is " ++ Fore_LIGHTYELLOW_EX ++ proposal default r ++ T " "
                  ++ Style_RESET_ALL ++ T "correct? (y/N): ") "N"
                 (again r ++ answer r :: rest)) with
    | Reply true rest' => Reply (proposal default r) rest'
    | Reply false rest' =>
        snd (request_file_dest_loop fuel prompt default rest')
    | EndOfInput => EndOfInput
    | Failed e => Failed e
    end.
Proof.
  unfold round_lines, proposal. cbn [app request_file_dest_loop].
  rewrite <- app_assoc. cbn [app]. rewrite text_eqb_nil.
  destruct (typed r) as [|x p];
    match goal with
    | |- context [snd (simple_prompt ?a ?b ?c)] =>
        destruct (snd (simple_prompt a b c)) as [[] ?| |]; reflexivity
    end.
Qed.

Lemma request_file_dest_rounds (prompt default : text) (r : round)
    (rest : list text) (rejected : list round) :
  forallb (round_ok false) rejected = true ->
  round_ok true r = true ->
  forall fuel,
    length rejected < fuel ->
    snd (request_file_dest_loop fuel prompt default
           (concat (map round_lines rejected) ++ round_lines r ++ rest))
    = Reply (proposal default r) rest.
Proof.
  intros Hrej Hr. induction rejected as [|r0 rejected IH]; intros fuel Hf.
  - destruct fuel as [|fuel]; [lia|]. cbn [map concat app].
    rewrite request_file_dest_round.
    now rewrite (@confirm_round _ true r rest Hr).
  - destruct fuel as [|fuel]; [simpl in Hf; lia|].
    cbn [forallb] in Hrej. apply andb_prop in Hrej as [H0 Hrej].
    cbn [map concat]. rewrite <- app_assoc.
    rewrite request_file_dest_round.
    rewrite (@confirm_round _ false r0 _ H0).
    apply IH; [exact Hrej|simpl in Hf; lia].
Qed.

(** X12.  [request_file_dest] returns the first proposal that is
    confirmed: the path typed, as typed, or the default when the line typed
    is empty.  The proposals refused before it are dropped, and the lines
    after the confirmation are left unread. *)
Theorem request_file_dest_confirmed (prompt default : text)
    (rejected : list round) (r : round) (rest : list text) :
  forallb (round_ok false) rejected = true ->
  round_ok true r = true ->
  snd (request_file_dest prompt default
         (concat (map round_lines rejected) ++ round_lines r ++ rest))
  = Reply (proposal default r) rest.
Proof.
  intros Hrej Hr. unfold request_file_dest.
  apply request_file_dest_rounds; [exact Hrej|exact Hr|].
  rewrite length_app.
  assert (length rejected <= length (concat (map round_lines rejected))).
  { clear. induction rejected as [|r0 l IH]; [apply le_n|].
    cbn [map concat]. rewrite length_app. unfold round_lines at 1.
    cbn [length]. lia. }
  lia.
Qed.

Lemma request_file_dest_confirmed_witness :
  snd (request_file_dest "Choose destination" "/tmp/out"
         [T "/tmp/a"; T "no"; []; T "maybe"; T " Yes"; T "left"])
  = Reply (T "/tmp/out") [T "left"].
Proof.
  apply (@request_file_dest_confirmed "Choose destination" "/tmp/out"
           [refused_round] confirmed_round [T "left"]); reflexivity.
Defined.

Lemma simple_prompt_reads (prompt default : text) (stdin : list text) :
  default <> [] ->
  snd (simple_prompt prompt default stdin) = EndOfInput
  \/ exists b used rest,
       snd (simple_prompt prompt default stdin) = Reply b rest
       /\ stdin = used ++ rest /\ used <> [].
Proof.
  intros Hd. induction stdin as [|line stdin IH]; [now left|].
  rewrite simple_prompt_line.
  assert (He : entered default line <> []).
  { unfold entered. now destruct (strip line). }
  destruct (entered default line); [now elim He|].
  destruct (says_yes default line).
  { right. exists true, [line], stdin. now repeat split. }
  destruct (says_no default line).
  { right. exists false, [line], stdin. now repeat split. }
  cbn [snd]. destruct IH as [IH|(b & used & rest & IH & -> & Hu)];
    [now left|].
  right. exists b, (line :: used), rest. now repeat split.
Qed.

Lemma request_file_dest_loop_reads (prompt default : text) (fuel : nat) :
  forall stdin,
    length stdin < fuel ->
    snd (request_file_dest_loop fuel prompt default stdin) = EndOfInput
    \/ exists result rest,
         snd (request_file_dest_loop fuel prompt default stdin)
         = Reply result rest
         /\ (result = default \/ In result stdin).
Proof.
  induction fuel as [|fuel IH]; intros stdin Hf; [lia|].
  destruct stdin as [|p stdin]; [now left|].
  cbn [request_file_dest_loop].
  match goal with
  | |- context [snd (simple_prompt ?a ?b ?c)] =>
      destruct (@simple_prompt_reads a b c) as [E|(b' & used & rest & E & Hs & Hu)];
        [discriminate| |]; rewrite E
  end.
  - now left.
  - destruct b'.
    + right. eexists. eexists. split; [reflexivity|].
      rewrite text_eqb_nil. destruct p; [now left|right; now left].
    + cbn [snd]. destruct (IH rest) as [H|(result & rest' & H & Hin)].
      * subst stdin. cbn [length] in Hf. rewrite length_app in Hf. lia.
      * now left.
      * right. exists result, rest'. split; [exact H|].
        destruct Hin as [Hin|Hin]; [now left|]. right. right.
        subst stdin. apply in_or_app. now right.
Qed.

(** X13.  On every input [request_file_dest] either returns or ends with
    the input; it raises nothing else.  What it returns is the default or
    one of the lines it read. *)
Theorem request_file_dest_reads (prompt default : text) (stdin : list text) :
  snd (request_file_dest prompt default stdin) = EndOfInput
  \/ exists result rest,
       snd (request_file_dest prompt default stdin) = Reply result rest
       /\ (result = default \/ In result stdin).
Proof. apply request_file_dest_loop_reads. lia. Qed.

(** * Valid JSON through [fix_json]

    What [fix_json] does to the layout of a document, a blank before a
    brace and white space at the two ends, the parser does not see. *)

(** ** White space *)

Lemma is_space_in (c : ascii) : is_space c = true -> In c space_chars.
Proof.
  destruct c as [[] [] [] [] [] [] [] []]; intros H; try discriminate H;
    cbn; repeat (first [left; reflexivity | right]).
Qed.

Lemma space_chars_all (P : ascii -> bool) :
  forallb P space_chars = true -> forall c, is_space c = true -> P c = true.
Proof.
  intros H c Hc. rewrite forallb_forall in H. now apply H, is_space_in.
Qed.

Lemma json_space_is_space (c : ascii) :
  is_json_space c = true -> is_space c = true.
Proof.
  destruct c as [[] [] [] [] [] [] [] []]; intros H; try discriminate H;
    reflexivity.
Qed.

Lemma skip_ws_length (s : text) : length (skip_ws s) <= length s.
Proof.
  induction s as [|c s IH]; [apply le_n|]. cbn [skip_ws].
  destruct (is_json_space c); cbn [length]; lia.
Qed.

Lemma skip_ws_nil (s : text) :
  skip_ws s = [] <-> forallb is_json_space s = true.
Proof.
  induction s as [|c s IH]; [now split|]. cbn [skip_ws forallb].
  destruct (is_json_space c); cbn [andb]; [exact IH|].
  split; discriminate.
Qed.

Lemma skip_ws_spaces (s : text) :
  forallb is_space s = true -> forallb is_space (skip_ws s) = true.
Proof.
  induction s as [|c s IH]; intros H; [reflexivity|]. cbn [skip_ws].
  destruct (is_json_space c); [|exact H].
  cbn [forallb] in H. apply andb_prop in H as [_ H]. now apply IH.
Qed.

(** ** Equations of the parser *)

Lemma json_string_cons (c : ascii) (s : text) :
  Ascii.eqb c "\" = false ->
  json_string (c :: s)
  = if Ascii.eqb c DQ then Ret ([], s)
    else if (code c <? 32)%nat then Raise JSONDecodeError
    else r <- json_string s ;; Ret (c :: fst r, snd r).
Proof.
  intros H.
  destruct c as [[] [] [] [] [] [] [] []]; try discriminate H; reflexivity.
Qed.

Lemma json_string_escape (c : ascii) (s : text) :
  json_string ("\"%char :: c :: s)
  = let esc (x : ascii) := r <- json_string s ;; Ret (x :: fst r, snd r) in
    if Ascii.eqb c DQ then esc DQ
    else if Ascii.eqb c "\" then esc "\"%char
    else if Ascii.eqb c "/" then esc "/"%char
    else if Ascii.eqb c "b" then esc "008"%char
    else if Ascii.eqb c "f" then esc "012"%char
    else if Ascii.eqb c "n" then esc NL
    else if Ascii.eqb c "r" then esc "013"%char
    else if Ascii.eqb c "t" then esc "009"%char
    else if Ascii.eqb c "u" then Raise OutOfModel
    else Raise JSONDecodeError.
Proof. reflexivity. Qed.

Lemma float_follows_eq (s : text) :
  float_follows s
  = match s with
    | c :: d :: rest =>
        if Ascii.eqb c "." then is_digit d
        else (Ascii.eqb c "e" || Ascii.eqb c "E")
             && (is_digit d
                 || ((Ascii.eqb d "+" || Ascii.eqb d "-")
                     && first_in is_digit rest))
    | _ => false
    end.
Proof.
  destruct s as [|c [|d rest]].
  - reflexivity.
  - destruct c as [[] [] [] [] [] [] [] []]; reflexivity.
  - destruct c as [[] [] [] [] [] [] [] []]; cbn; try reflexivity;
      destruct rest; reflexivity.
Qed.

Lemma json_number_eq (s : text) :
  json_number s
  = if head_is "-" s then json_unsigned (-1) (tl s) else json_unsigned 1 s.
Proof.
  destruct s as [|c s]; [reflexivity|].
  destruct c as [[] [] [] [] [] [] [] []]; reflexivity.
Qed.

Lemma json_value_eq (f : nat) (s : text) :
  json_value (S f) s
  = match s with
    | [] => Raise JSONDecodeError
    | c :: s' =>
        if Ascii.eqb c DQ
        then r <- json_string s' ;; Ret (JStr (fst r), snd r)
        else if Ascii.eqb c "{"
        then if head_is "}" (skip_ws s')
             then Ret (JDict [], tl (skip_ws s'))
             else r <- json_members f [] (skip_ws s') ;;
                  Ret (JDict (fst r), snd r)
        else if Ascii.eqb c "["
        then if head_is "]" (skip_ws s')
             then Ret (JList [], tl (skip_ws s'))
             else r <- json_elements f (skip_ws s') ;;
                  Ret (JList (fst r), snd r)
        else if Ascii.eqb c "n" then json_literal "null" JNull s
        else if Ascii.eqb c "t" then json_literal "true" (JBool true) s
        else if Ascii.eqb c "f" then json_literal "false" (JBool false) s
        else if Ascii.eqb c "N"
        then if startswith "NaN" s then Raise OutOfModel
             else Raise JSONDecodeError
        else if Ascii.eqb c "I"
        then if startswith "Infinity" s then Raise OutOfModel
             else Raise JSONDecodeError
        else json_number s
    end.
Proof.
  destruct s as [|c s']; [reflexivity|]. cbn [json_value].
  destruct (Ascii.eqb c DQ); [reflexivity|].
  destruct (Ascii.eqb c "{").
  { destruct (skip_ws s') as [|x rest]; [reflexivity|].
    destruct x as [[] [] [] [] [] [] [] []]; reflexivity. }
  destruct (Ascii.eqb c "["); [|reflexivity].
  destruct (skip_ws s') as [|x rest]; [reflexivity|].
  destruct x as [[] [] [] [] [] [] [] []]; reflexivity.
Qed.

Lemma json_members_eq (f : nat) (acc : list (text * json)) (s : text) :
  json_members (S f) acc s
  = match s with
    | [] => Raise JSONDecodeError
    | c :: s1 =>
        if negb (Ascii.eqb c DQ) then Raise JSONDecodeError
        else
          k <- json_string s1 ;;
          if head_is ":" (skip_ws (snd k))
          then
            v <- json_value f (skip_ws (tl (skip_ws (snd k)))) ;;
            if head_is "}" (skip_ws (snd v))
            then Ret (dict_set (fst k) (fst v) acc, tl (skip_ws (snd v)))
            else if head_is "," (skip_ws (snd v))
            then json_members f (dict_set (fst k) (fst v) acc)
                   (skip_ws (tl (skip_ws (snd v))))
            else Raise JSONDecodeError
          else Raise JSONDecodeError
    end.
Proof.
  destruct s as [|c s1]; [reflexivity|]. cbn [json_members].
  destruct (negb (Ascii.eqb c DQ)); [reflexivity|].
  destruct (json_string s1) as [k|e]; [|reflexivity]. cbn [bind].
  destruct (skip_ws (snd k)) as [|x s2]; [reflexivity|].
  destruct x as [[] [] [] [] [] [] [] []]; try reflexivity.
  cbn [head_is first_in tl]. change (Ascii.eqb ":" ":") with true. cbn iota.
  destruct (json_value f (skip_ws s2)) as [v|e]; [|reflexivity]. cbn [bind].
  destruct (skip_ws (snd v)) as [|y s3]; [reflexivity|].
  destruct y as [[] [] [] [] [] [] [] []]; reflexivity.
Qed.

Lemma json_elements_eq (f : nat) (s : text) :
  json_elements (S f) s
  = (v <- json_value f s ;;
     if head_is "]" (skip_ws (snd v))
     then Ret ([fst v], tl (skip_ws (snd v)))
     else if head_is "," (skip_ws (snd v))
     then r <- json_elements f (skip_ws (tl (skip_ws (snd v)))) ;;
          Ret (fst v :: fst r, snd r)
     else Raise JSONDecodeError).
Proof.
  cbn [json_elements].
  destruct (json_value f s) as [v|e]; [|reflexivity]. cbn [bind].
  destruct (skip_ws (snd v)) as [|y s3]; [reflexivity|].
  destruct y as [[] [] [] [] [] [] [] []]; reflexivity.
Qed.

(** ** Tidied texts *)

Lemma tidied_solid (st : lexical) (c : ascii) (t t' : text) :
  tidied st (c :: t) t' -> is_space c = false ->
  exists t0, t' = c :: t0 /\ tidied (lexical_step st c) t t0.
Proof.
  intros H Hc. inversion H; subst.
  - cbn [forallb] in H0. now rewrite Hc in H0.
  - now eexists.
  - discriminate Hc.
Qed.

Lemma tidied_head (x : ascii) (a b : text) :
  tidied Outside a b -> is_space x = false -> Ascii.eqb x "{" = false ->
  head_is x a = head_is x b.
Proof.
  intros H Hx Hb. inversion H; subst.
  - destruct a as [|c a]; [reflexivity|].
    cbn [forallb] in H0. apply andb_prop in H0 as [Hc _].
    cbn [head_is first_in]. destruct (Ascii.eqb_spec c x) as [->|_];
      [congruence|reflexivity].
  - reflexivity.
  - cbn [head_is first_in]. rewrite (Ascii.eqb_sym "{" x), Hb.
    destruct (Ascii.eqb_spec " " x) as [<-|_]; [discriminate Hx|reflexivity].
Qed.

Lemma tidied_tail (x : ascii) (a b : text) :
  tidied Outside a b -> head_is x a = true ->
  is_space x = false -> Ascii.eqb x DQ = false ->
  tidied Outside (tl a) (tl b).
Proof.
  intros H Ha Hx Hq. destruct a as [|c a]; [discriminate Ha|].
  cbn [head_is first_in] in Ha. apply Ascii.eqb_eq in Ha. subst c.
  destruct (tidied_solid H Hx) as (t0 & -> & Ht).
  cbn [lexical_step] in Ht. rewrite Hq in Ht. exact Ht.
Qed.

Lemma tidied_skip (t t' : text) :
  tidied Outside t t' -> tidied Outside (skip_ws t) (skip_ws t').
Proof.
  intros H. remember Outside as st eqn:Est.
  induction H as [st t Ht|st c t t' H IH|t t' H IH]; try subst st.
  - apply tidied_end. now apply skip_ws_spaces.
  - cbn [skip_ws]. destruct (is_json_space c) eqn:E.
    + assert (Es : lexical_step Outside c = Outside).
      { cbn [lexical_step].
        destruct (Ascii.eqb_spec c DQ) as [->|_];
          [discriminate E|reflexivity]. }
      rewrite Es in IH. now apply IH.
    + now apply tidied_keep.
  - cbn [skip_ws]. change (is_json_space " ") with true.
    change (is_json_space "{") with false. cbn iota.
    now apply tidied_keep.
Qed.

Lemma tidied_json_spaces (st : lexical) (a b : text) :
  tidied st a b -> forallb is_json_space a = true ->
  forallb is_json_space b = true.
Proof.
  induction 1 as [st t Ht|st c t t' H IH|t t' H IH]; intros Ha.
  - reflexivity.
  - cbn [forallb] in *. apply andb_prop in Ha as [Hc Ha].
    rewrite Hc. now apply IH.
  - discriminate Ha.
Qed.

Lemma tidied_length (st : lexical) (a b : text) :
  tidied st a b -> length b <= length a.
Proof.
  induction 1 as [st t Ht|st c t t' H IH|t t' H IH]; cbn [length]; lia.
Qed.

(** ** Strings *)

Lemma json_string_spaces (s : text) :
  forallb is_space s = true -> forall r, json_string s <> Ret r.
Proof.
  induction s as [|c s IH]; intros H r; [discriminate|].
  cbn [forallb] in H. apply andb_prop in H as [Hc H].
  assert (E : Ascii.eqb c "\" = false /\ Ascii.eqb c DQ = false).
  { pose proof (@space_chars_all
                  (fun c => negb (Ascii.eqb c "\") && negb (Ascii.eqb c DQ))
                  eq_refl c Hc) as E.
    apply andb_prop in E as [E1 E2].
    now rewrite negb_true_iff in E1, E2. }
  destruct E as [E1 E2]. rewrite json_string_cons, E2 by exact E1.
  destruct (code c <? 32); [discriminate|].
  destruct (json_string s) as [x|e] eqn:Es; [now elim (IH H x)|discriminate].
Qed.

Lemma tidied_string (n : nat) :
  forall s s' r,
    length s <= n ->
    json_string s = Ret r -> tidied Inside s s' ->
    exists rest',
      json_string s' = Ret (fst r, rest')
      /\ tidied Outside (snd r) rest' /\ length rest' < length s'.
Proof.
  induction n as [|n IH]; intros s s' r Hn Hs Ht.
  - destruct s; [discriminate Hs|simpl in Hn; lia].
  - destruct s as [|c s1]; [discriminate Hs|]. cbn [length] in Hn.
    destruct (Ascii.eqb_spec c "\") as [->|Hc].
    + destruct s1 as [|c2 s2]; [discriminate Hs|].
      apply tidied_solid in Ht as (t1 & -> & Ht); [|reflexivity].
      change (lexical_step Inside "\") with Escaped in Ht.
      assert (Ec : is_space c2 = false).
      { destruct (is_space c2) eqn:E; [|reflexivity]. exfalso.
        rewrite json_string_escape in Hs.
        pose proof (@space_chars_all
                      (fun c => negb (Ascii.eqb c DQ || Ascii.eqb c "\"
                                      || Ascii.eqb c "/" || Ascii.eqb c "b"
                                      || Ascii.eqb c "f" || Ascii.eqb c "n"
                                      || Ascii.eqb c "r" || Ascii.eqb c "t"
                                      || Ascii.eqb c "u"))
                      eq_refl c2 E) as F.
        apply negb_true_iff in F.
        repeat (apply orb_false_elim in F as [F ?]).
        cbv zeta in Hs.
        repeat match goal with
               | H : Ascii.eqb c2 _ = false |- _ => rewrite H in Hs; clear H
               end.
        discriminate Hs. }
      apply tidied_solid in Ht as (t2 & -> & Ht); [|exact Ec].
      change (lexical_step Escaped c2) with Inside in Ht.
      rewrite json_string_escape in Hs |- *. cbv zeta in Hs |- *.
      assert (K : forall x,
                 (r0 <- json_string s2 ;; Ret (x :: fst r0, snd r0)) = Ret r ->
                 exists rest',
                   (r0 <- json_string t2 ;; Ret (x :: fst r0, snd r0))
                   = Ret (fst r, rest')
                   /\ tidied Outside (snd r) rest'
                   /\ length rest' < length ("\"%char :: c2 :: t2)).
      { intros x Hx. destruct (json_string s2) as [r0|e] eqn:E0;
          [|discriminate Hx].
        cbn [bind] in Hx. injection Hx as <-.
        destruct (IH s2 t2 r0) as (rest' & E' & Hr & Hl);
          [simpl in Hn; lia|exact E0|exact Ht|].
        exists rest'. rewrite E'. cbn [bind fst snd length] in *.
        repeat split; [exact Hr|lia]. }
      repeat match goal with
             | |- context [if Ascii.eqb c2 ?x then _ else _] =>
                 destruct (Ascii.eqb c2 x); [now apply K|]
             end.
      destruct (Ascii.eqb c2 "u"); discriminate Hs.
    + apply Ascii.eqb_neq in Hc.
      rewrite json_string_cons in Hs by exact Hc.
      destruct (Ascii.eqb c DQ) eqn:Eq.
      * injection Hs as <-. apply Ascii.eqb_eq in Eq. subst c.
        apply tidied_solid in Ht as (t1 & -> & Ht); [|reflexivity].
        change (lexical_step Inside DQ) with Outside in Ht.
        exists t1. rewrite json_string_cons by reflexivity.
        change (Ascii.eqb DQ DQ) with true. cbn [fst snd length].
        repeat split; [exact Ht|lia].
      * destruct (code c <? 32) eqn:E32; [discriminate Hs|].
        destruct (json_string s1) as [r0|e] eqn:E0; [|discriminate Hs].
        cbn [bind] in Hs. injection Hs as <-.
        inversion Ht; subst.
        -- exfalso.
           apply (@json_string_spaces (c :: s1) H (c :: fst r0, snd r0)).
           now rewrite json_string_cons, Eq, E32, E0 by exact Hc.
        -- cbn [lexical_step] in H3. rewrite Eq, Hc in H3.
           destruct (IH s1 t' r0) as (rest' & E' & Hr & Hl);
             [lia|exact E0|exact H3|].
           exists rest'. rewrite json_string_cons, Eq, E32, E' by exact Hc.
           cbn [bind fst snd length] in *. repeat split; [exact Hr|lia].
Qed.

(** ** Numbers and literals *)

Lemma tidied_nil (st : lexical) (b : text) : tidied st [] b -> b = [].
Proof. now inversion 1. Qed.

Lemma tidied_first (p : ascii -> bool) (a b : text) :
  tidied Outside a b ->
  (forall c, is_space c = true -> p c = false) -> p "{"%char = false ->
  first_in p a = first_in p b.
Proof.
  intros H Hs Hb. inversion H; subst.
  - destruct a as [|c a]; [reflexivity|].
    cbn [forallb] in H0. apply andb_prop in H0 as [Hc _].
    cbn [first_in]. now apply Hs.
  - reflexivity.
  - cbn [first_in]. rewrite Hb. now apply Hs.
Qed.

Lemma space_not_digit (c : ascii) : is_space c = true -> is_digit c = false.
Proof.
  intros H. apply negb_true_iff.
  now apply (@space_chars_all (fun c => negb (is_digit c)) eq_refl).
Qed.

Lemma digits_stop (acc : Z) (s : text) :
  first_in is_digit s = false -> digits acc s = (acc, s).
Proof.
  destruct s as [|c s]; [reflexivity|]. cbn [first_in digits].
  now intros ->.
Qed.

Lemma tidied_digits (a : text) :
  forall b acc,
    tidied Outside a b ->
    exists rest',
      digits acc b = (fst (digits acc a), rest')
      /\ tidied Outside (snd (digits acc a)) rest'
      /\ length rest' <= length b.
Proof.
  induction a as [|c a IH]; intros b acc H.
  - apply tidied_nil in H as ->. exists []. cbn.
    repeat split; [now apply tidied_end|lia].
  - destruct (is_digit c) eqn:Ed.
    + assert (Es : is_space c = false).
      { destruct (is_space c) eqn:E; [|reflexivity].
        apply space_not_digit in E. congruence. }
      destruct (tidied_solid H Es) as (b1 & -> & Hb).
      assert (Eq : lexical_step Outside c = Outside).
      { cbn [lexical_step]. destruct (Ascii.eqb_spec c DQ) as [->|_];
          [discriminate Ed|reflexivity]. }
      rewrite Eq in Hb. cbn [digits]. rewrite Ed.
      destruct (IH b1 (10 * acc + Z.of_nat (code c - 48))%Z Hb)
        as (rest' & E & Hr & Hl).
      exists rest'. cbn [length]. repeat split; [exact E|exact Hr|lia].
    + assert (Ea : digits acc (c :: a) = (acc, c :: a)).
      { apply digits_stop. exact Ed. }
      rewrite Ea. exists b. cbn [fst snd]. repeat split; [|exact H|lia].
      apply digits_stop.
      rewrite <- (@tidied_first is_digit _ _ H); [exact Ed| |reflexivity].
      apply space_not_digit.
Qed.

Lemma float_follows_quiet (c : ascii) (s : text) :
  Ascii.eqb c "." = false -> Ascii.eqb c "e" = false ->
  Ascii.eqb c "E" = false ->
  float_follows (c :: s) = false.
Proof.
  intros H1 H2 H3. rewrite float_follows_eq.
  destruct s as [|d rest]; [reflexivity|]. now rewrite H1, H2, H3.
Qed.

Lemma space_quiet (c : ascii) :
  is_space c = true ->
  Ascii.eqb c "." = false /\ Ascii.eqb c "e" = false
  /\ Ascii.eqb c "E" = false /\ Ascii.eqb c "+" = false
  /\ Ascii.eqb c "-" = false /\ Ascii.eqb c "0" = false
  /\ Ascii.eqb c "I" = false.
Proof.
  intros H.
  pose proof (@space_chars_all
                (fun c => negb (Ascii.eqb c "." || Ascii.eqb c "e"
                                || Ascii.eqb c "E" || Ascii.eqb c "+"
                                || Ascii.eqb c "-" || Ascii.eqb c "0"
                                || Ascii.eqb c "I"))
                eq_refl c H) as F.
  apply negb_true_iff in F.
  repeat (apply orb_false_elim in F as [F ?]). now repeat split.
Qed.

(** What makes an exponent after [e]. *)
Lemma tidied_exponent (a b : text) :
  tidied Outside a b ->
  match a with
  | d :: rest =>
      is_digit d
      || ((Ascii.eqb d "+" || Ascii.eqb d "-") && first_in is_digit rest)
  | [] => false
  end
  = match b with
    | d :: rest =>
        is_digit d
        || ((Ascii.eqb d "+" || Ascii.eqb d "-") && first_in is_digit rest)
    | [] => false
    end.
Proof.
  intros H. destruct a as [|d rest].
  - now apply tidied_nil in H as ->.
  - destruct (is_space d) eqn:Es.
    + destruct (@space_quiet _ Es) as (_ & _ & _ & Hp & Hm & _).
      rewrite (@space_not_digit _ Es), Hp, Hm. cbn [orb andb].
      inversion H; subst; [reflexivity| |reflexivity].
      now rewrite (@space_not_digit _ Es), Hp, Hm.
    + destruct (tidied_solid H Es) as (b1 & -> & Hb).
      destruct (Ascii.eqb_spec d DQ) as [->|Hq]; [reflexivity|].
      apply Ascii.eqb_neq in Hq. cbn [lexical_step] in Hb. rewrite Hq in Hb.
      rewrite (@tidied_first is_digit _ _ Hb); [reflexivity| |reflexivity].
      apply space_not_digit.
Qed.

Lemma tidied_float (a b : text) :
  tidied Outside a b -> float_follows a = float_follows b.
Proof.
  intros H. destruct a as [|c a1].
  - now apply tidied_nil in H as ->.
  - destruct (is_space c) eqn:Es.
    + destruct (@space_quiet _ Es) as (H1 & H2 & H3 & _).
      rewrite float_follows_quiet by assumption.
      inversion H; subst.
      * reflexivity.
      * now rewrite float_follows_quiet.
      * now rewrite float_follows_quiet.
    + destruct (tidied_solid H Es) as (b1 & -> & Hb).
      destruct (Ascii.eqb_spec c DQ) as [->|Hq].
      { now rewrite !float_follows_quiet. }
      apply Ascii.eqb_neq in Hq. cbn [lexical_step] in Hb. rewrite Hq in Hb.
      rewrite !float_follows_eq.
      pose proof (tidied_exponent Hb) as He.
      pose proof (@tidied_first is_digit _ _ Hb space_not_digit eq_refl) as Hd.
      destruct a1 as [|d rest].
      { now apply tidied_nil in Hb as ->. }
      destruct b1 as [|d' rest']; cbn [first_in] in *.
      * destruct (Ascii.eqb c "."); [exact Hd|].
        rewrite He. apply andb_false_r.
      * destruct (Ascii.eqb c "."); [exact Hd|]. now rewrite He.
Qed.

Lemma digits_length (s : text) (acc : Z) :
  length (snd (digits acc s)) <= length s.
Proof.
  revert acc. induction s as [|c s IH]; intros acc; [apply le_n|].
  cbn [digits]. destruct (is_digit c); cbn [snd length]; [|lia].
  specialize (IH (10 * acc + Z.of_nat (code c - 48))%Z). lia.
Qed.

Lemma tidied_unsigned (sign : Z) (t t' : text) (x : json * text) :
  json_unsigned sign t = Ret x -> tidied Outside t t' ->
  exists rest',
    json_unsigned sign t' = Ret (fst x, rest')
    /\ tidied Outside (snd x) rest' /\ length rest' < length t'.
Proof.
  intros Hx Ht. destruct t as [|d s]; [discriminate Hx|].
  assert (Es : is_space d = false).
  { destruct (is_space d) eqn:E; [|reflexivity]. exfalso.
    destruct (@space_quiet _ E) as (_ & _ & _ & _ & _ & H0 & HI).
    cbn [json_unsigned] in Hx. rewrite H0, (@space_not_digit _ E) in Hx.
    unfold startswith in Hx. cbn [strip_prefix T list_ascii_of_string] in Hx.
    rewrite (Ascii.eqb_sym "I" d), HI in Hx. discriminate Hx. }
  destruct (tidied_solid Ht Es) as (s' & -> & Hs).
  assert (Eq : is_digit d = true -> lexical_step Outside d = Outside).
  { intros Hd. cbn [lexical_step].
    destruct (Ascii.eqb_spec d DQ) as [->|_]; [discriminate Hd|reflexivity]. }
  cbn [json_unsigned] in Hx |- *.
  destruct (Ascii.eqb d "0") eqn:E0.
  - apply Ascii.eqb_eq in E0. subst d. rewrite (Eq eq_refl) in Hs.
    rewrite <- (tidied_float Hs).
    destruct (float_follows s); [discriminate Hx|]. injection Hx as <-.
    exists s'. cbn [fst snd length]. repeat split; [exact Hs|lia].
  - destruct (is_digit d) eqn:Ed.
    + destruct (@tidied_digits _ _ 0%Z Ht) as (rest' & E & Hr & Hl).
      rewrite E. cbn [snd fst].
      rewrite <- (tidied_float Hr).
      destruct (float_follows (snd (digits 0 (d :: s)))); [discriminate Hx|].
      injection Hx as <-. exists rest'. cbn [fst snd].
      repeat split; [exact Hr|].
      assert (L : length rest' <= length s').
      { cbn [digits] in E. rewrite Ed in E.
        pose proof (digits_length s' (10 * 0 + Z.of_nat (code d - 48))) as L.
        rewrite E in L. exact L. }
      cbn [length]. lia.
    + destruct (startswith "Infinity" (d :: s)); discriminate Hx.
Qed.

Lemma tidied_number (t t' : text) (x : json * text) :
  json_number t = Ret x -> tidied Outside t t' ->
  exists rest',
    json_number t' = Ret (fst x, rest')
    /\ tidied Outside (snd x) rest' /\ length rest' < length t'.
Proof.
  intros Hx Ht. rewrite json_number_eq in Hx |- *.
  rewrite <- (@tidied_head "-"%char _ _ Ht eq_refl eq_refl).
  destruct (head_is "-" t) eqn:Em.
  - pose proof (@tidied_tail "-"%char _ _ Ht Em eq_refl eq_refl) as Htl.
    destruct (@tidied_unsigned _ _ _ _ Hx Htl) as (rest' & E & Hr & Hl).
    exists rest'. repeat split; [exact E|exact Hr|].
    destruct t' as [|c t'']; [inversion Hl|]. cbn [tl length] in *. lia.
  - now apply tidied_unsigned with t.
Qed.

Lemma tidied_prefix (w : text) :
  forall rest t',
    forallb (fun c => negb (is_space c) && negb (Ascii.eqb c DQ)) w = true ->
    tidied Outside (w ++ rest) t' ->
    exists rest', t' = w ++ rest' /\ tidied Outside rest rest'.
Proof.
  induction w as [|c w IH]; intros rest t' Hw Ht.
  - now exists t'.
  - cbn [forallb] in Hw. apply andb_prop in Hw as [Hc Hw].
    apply andb_prop in Hc as [Hs Hq].
    apply negb_true_iff in Hs, Hq.
    destruct (tidied_solid Ht Hs) as (t0 & -> & H0).
    cbn [lexical_step] in H0. rewrite Hq in H0.
    destruct (IH rest t0 Hw H0) as (rest' & -> & Hr).
    now exists rest'.
Qed.

Lemma tidied_literal (w : text) (v : json) (t t' : text) (x : json * text) :
  forallb (fun c => negb (is_space c) && negb (Ascii.eqb c DQ)) w = true ->
  w <> [] ->
  json_literal w v t = Ret x -> tidied Outside t t' ->
  exists rest',
    json_literal w v t' = Ret (fst x, rest')
    /\ tidied Outside (snd x) rest' /\ length rest' < length t'.
Proof.
  intros Hw Hn Hx Ht. unfold json_literal in *.
  destruct (strip_prefix w t) as [rest|] eqn:E; [|discriminate Hx].
  injection Hx as <-. apply strip_prefix_some in E. subst t.
  destruct (@tidied_prefix _ _ _ Hw Ht) as (rest' & -> & Hr).
  exists rest'. rewrite strip_prefix_app. cbn [fst snd].
  repeat split; [exact Hr|]. rewrite length_app.
  destruct w; [now elim Hn|]. cbn [length]. lia.
Qed.

(** ** The parser on a tidied text *)

Lemma json_value_solid (f : nat) (c : ascii) (s : text) (x : json * text) :
  json_value f (c :: s) = Ret x -> is_space c = false.
Proof.
  intros H. destruct (is_space c) eqn:E; [|reflexivity]. exfalso.
  destruct f as [|f]; [discriminate H|].
  apply is_space_in in E. cbn in E.
  repeat (destruct E as [E|E]; [subst c; cbv in H; discriminate H|]).
  exact E.
Qed.

Lemma tl_length (s : text) : length (tl s) <= length s.
Proof. destruct s; cbn; lia. Qed.

Lemma tidied_parse (f : nat) :
  (forall t x,
      json_value f t = Ret x ->
      forall g t',
        tidied Outside t t' -> 2 * length t' + 1 <= g ->
        exists rest',
          json_value g t' = Ret (fst x, rest')
          /\ tidied Outside (snd x) rest' /\ length rest' < length t')
  /\ (forall acc t x,
         json_members f acc t = Ret x ->
         forall g t',
           tidied Outside t t' -> 2 * length t' + 1 <= g ->
           exists rest',
             json_members g acc t' = Ret (fst x, rest')
             /\ tidied Outside (snd x) rest' /\ length rest' < length t')
  /\ (forall t x,
         json_elements f t = Ret x ->
         forall g t',
           tidied Outside t t' -> 2 * length t' + 2 <= g ->
           exists rest',
             json_elements g t' = Ret (fst x, rest')
             /\ tidied Outside (snd x) rest' /\ length rest' < length t').
Proof.
  induction f as [|f (IHv & IHm & IHe)].
  { repeat split; intros; discriminate. }
  split; [|split].
  - intros t x Hx g t' Ht Hg.
    destruct t as [|c s]; [discriminate Hx|].
    pose proof (json_value_solid _ _ _ Hx) as Es.
    pose proof Ht as Ht0.
    destruct (tidied_solid Ht Es) as (s' & -> & Hs).
    destruct g as [|g]; [lia|]. cbn [length] in Hg.
    pose proof (skip_ws_length s') as Ls.
    pose proof (tl_length (skip_ws s')) as Lt.
    rewrite json_value_eq in Hx |- *.
    destruct (Ascii.eqb c DQ) eqn:Eq.
    { apply Ascii.eqb_eq in Eq. subst c.
      change (lexical_step Outside DQ) with Inside in Hs.
      destruct (json_string s) as [r|e] eqn:E; [|discriminate Hx].
      cbn [bind] in Hx. injection Hx as <-.
      destruct (@tidied_string (length s) s s' r (le_n _) E Hs)
        as (rest' & E' & Hr & Hl).
      exists rest'. rewrite E'. cbn [bind fst snd length].
      repeat split; [exact Hr|lia]. }
    cbn [lexical_step] in Hs. rewrite Eq in Hs.
    pose proof (tidied_skip Hs) as Hk.
    destruct (Ascii.eqb c "{") eqn:Eb.
    { rewrite <- (@tidied_head "}"%char _ _ Hk eq_refl eq_refl).
      destruct (head_is "}" (skip_ws s)) eqn:Eh.
      - injection Hx as <-. exists (tl (skip_ws s')). cbn [fst snd length].
        repeat split; [|lia].
        exact (@tidied_tail "}"%char _ _ Hk Eh eq_refl eq_refl).
      - destruct (json_members f [] (skip_ws s)) as [r|e] eqn:Em;
          [|discriminate Hx].
        cbn [bind] in Hx. injection Hx as <-.
        destruct (IHm _ _ _ Em g _ Hk) as (rest' & E' & Hr & Hl); [lia|].
        exists rest'. rewrite E'. cbn [bind fst snd length].
        repeat split; [exact Hr|lia]. }
    destruct (Ascii.eqb c "[") eqn:Ek.
    { rewrite <- (@tidied_head "]"%char _ _ Hk eq_refl eq_refl).
      destruct (head_is "]" (skip_ws s)) eqn:Eh.
      - injection Hx as <-. exists (tl (skip_ws s')). cbn [fst snd length].
        repeat split; [|lia].
        exact (@tidied_tail "]"%char _ _ Hk Eh eq_refl eq_refl).
      - destruct (json_elements f (skip_ws s)) as [r|e] eqn:Em;
          [|discriminate Hx].
        cbn [bind] in Hx. injection Hx as <-.
        destruct (IHe _ _ Em g _ Hk) as (rest' & E' & Hr & Hl); [lia|].
        exists rest'. rewrite E'. cbn [bind fst snd length].
        repeat split; [exact Hr|lia]. }
    destruct (Ascii.eqb c "n").
    { apply tidied_literal with (c :: s);
        [reflexivity|discriminate|exact Hx|exact Ht0]. }
    destruct (Ascii.eqb c "t").
    { apply tidied_literal with (c :: s);
        [reflexivity|discriminate|exact Hx|exact Ht0]. }
    destruct (Ascii.eqb c "f").
    { apply tidied_literal with (c :: s);
        [reflexivity|discriminate|exact Hx|exact Ht0]. }
    destruct (Ascii.eqb c "N").
    { destruct (startswith "NaN" (c :: s)); discriminate Hx. }
    destruct (Ascii.eqb c "I").
    { destruct (startswith "Infinity" (c :: s)); discriminate Hx. }
    now apply tidied_number with (c :: s).
  - intros acc t x Hx g t' Ht Hg.
    destruct t as [|c s1]; [discriminate Hx|].
    rewrite json_members_eq in Hx.
    destruct (Ascii.eqb c DQ) eqn:Eq; cbn [negb] in Hx; [|discriminate Hx].
    apply Ascii.eqb_eq in Eq. subst c.
    destruct (tidied_solid Ht eq_refl) as (s1' & -> & Hs).
    change (lexical_step Outside DQ) with Inside in Hs.
    destruct g as [|g]; [lia|]. cbn [length] in Hg.
    rewrite json_members_eq. change (negb (Ascii.eqb DQ DQ)) with false.
    cbn iota.
    destruct (json_string s1) as [k|e] eqn:Ek; [|discriminate Hx].
    cbn [bind] in Hx.
    destruct (@tidied_string (length s1) s1 s1' k (le_n _) Ek Hs)
      as (rk & Ek' & Hrk & Hlk).
    rewrite Ek'. cbn [bind fst snd].
    pose proof (tidied_skip Hrk) as Hk1.
    rewrite <- (@tidied_head ":"%char _ _ Hk1 eq_refl eq_refl).
    destruct (head_is ":" (skip_ws (snd k))) eqn:Ec; [|discriminate Hx].
    pose proof (tidied_skip
                  (@tidied_tail ":"%char _ _ Hk1 Ec eq_refl eq_refl)) as Hk2.
    pose proof (skip_ws_length rk) as L1.
    pose proof (tl_length (skip_ws rk)) as L2.
    pose proof (skip_ws_length (tl (skip_ws rk))) as L3.
    destruct (json_value f (skip_ws (tl (skip_ws (snd k))))) as [v|e] eqn:Ev;
      [|discriminate Hx].
    cbn [bind] in Hx.
    destruct (IHv _ _ Ev g _ Hk2) as (rv & Ev' & Hrv & Hlv); [lia|].
    rewrite Ev'. cbn [bind fst snd].
    pose proof (tidied_skip Hrv) as Hk3.
    pose proof (skip_ws_length rv) as L4.
    pose proof (tl_length (skip_ws rv)) as L5.
    pose proof (skip_ws_length (tl (skip_ws rv))) as L6.
    rewrite <- (@tidied_head "}"%char _ _ Hk3 eq_refl eq_refl).
    rewrite <- (@tidied_head ","%char _ _ Hk3 eq_refl eq_refl).
    destruct (head_is "}" (skip_ws (snd v))) eqn:E1.
    + injection Hx as <-. exists (tl (skip_ws rv)). cbn [fst snd length].
      repeat split; [|lia].
      exact (@tidied_tail "}"%char _ _ Hk3 E1 eq_refl eq_refl).
    + destruct (head_is "," (skip_ws (snd v))) eqn:E2; [|discriminate Hx].
      destruct (IHm _ _ _ Hx g _
                  (tidied_skip
                     (@tidied_tail ","%char _ _ Hk3 E2 eq_refl eq_refl)))
        as (rest' & E' & Hr & Hl); [lia|].
      exists rest'. rewrite E'. cbn [length].
      repeat split; [exact Hr|lia].
  - intros t x Hx g t' Ht Hg.
    destruct g as [|g]; [lia|].
    rewrite json_elements_eq in Hx |- *.
    destruct (json_value f t) as [v|e] eqn:Ev; [|discriminate Hx].
    cbn [bind] in Hx.
    destruct (IHv _ _ Ev g _ Ht) as (rv & Ev' & Hrv & Hlv); [lia|].
    rewrite Ev'. cbn [bind fst snd].
    pose proof (tidied_skip Hrv) as Hk3.
    pose proof (skip_ws_length rv) as L4.
    pose proof (tl_length (skip_ws rv)) as L5.
    pose proof (skip_ws_length (tl (skip_ws rv))) as L6.
    rewrite <- (@tidied_head "]"%char _ _ Hk3 eq_refl eq_refl).
    rewrite <- (@tidied_head ","%char _ _ Hk3 eq_refl eq_refl).
    destruct (head_is "]" (skip_ws (snd v))) eqn:E1.
    + injection Hx as <-. exists (tl (skip_ws rv)). cbn [fst snd].
      repeat split; [|lia].
      exact (@tidied_tail "]"%char _ _ Hk3 E1 eq_refl eq_refl).
    + destruct (head_is "," (skip_ws (snd v))) eqn:E2; [|discriminate Hx].
      destruct (json_elements f (skip_ws (tl (skip_ws (snd v)))))
        as [r|e] eqn:Er; [|discriminate Hx].
      cbn [bind] in Hx. injection Hx as <-.
      destruct (IHe _ _ Er g _
                  (tidied_skip
                     (@tidied_tail ","%char _ _ Hk3 E2 eq_refl eq_refl)))
        as (rest' & E' & Hr & Hl); [lia|].
      exists rest'. rewrite E'. cbn [bind fst snd].
      repeat split; [exact Hr|lia].
Qed.

(** ** What the layout rules do to a text *)

Lemma tidied_refl (t : text) : forall st, tidied st t t.
Proof.
  induction t as [|c t IH]; intros st;
    [now apply tidied_end|now apply tidied_keep].
Qed.

Lemma tidied_replace (n : nat) :
  forall st t,
    blank_brace_in_string st t = false ->
    tidied st t (replace_fuel n " {" "{" t).
Proof.
  induction n as [|n IH]; intros st t H; [apply tidied_refl|].
  destruct t as [|c s]; [now apply tidied_end|].
  cbn [blank_brace_in_string] in H. apply orb_false_elim in H as [H1 H2].
  cbn [replace_fuel].
  destruct (strip_prefix " {" (c :: s)) as [rest|] eqn:E.
  - apply strip_prefix_some in E. cbn [T list_ascii_of_string app] in E.
    injection E as -> ->.
    replace (length rest <? length (" "%char :: "{"%char :: rest)) with true
      by (symmetry; apply Nat.ltb_lt; simpl; lia).
    destruct st; [|discriminate H1|discriminate H1].
    cbn [T list_ascii_of_string app]. apply tidied_brace. apply IH.
    cbn [lexical_step blank_brace_in_string] in H2.
    change (Ascii.eqb " " DQ) with false in H2. cbn iota in H2.
    change (Ascii.eqb "{" DQ) with false in H2. exact H2.
  - apply tidied_keep. now apply IH.
Qed.

Lemma lstrip_solid (a b : text) :
  forallb is_space a = false -> lstrip (a ++ b) = lstrip a ++ b.
Proof.
  induction a as [|c a IH]; intros H; [discriminate H|].
  cbn [forallb] in H. cbn [app lstrip].
  destruct (is_space c); [now apply IH|reflexivity].
Qed.

Lemma lstrip_all (a : text) : forallb is_space a = true -> lstrip a = [].
Proof.
  induction a as [|c a IH]; intros H; [reflexivity|].
  cbn [forallb] in H. apply andb_prop in H as [Hc H].
  cbn [lstrip]. rewrite Hc. now apply IH.
Qed.

Lemma forallb_rev_eq (P : ascii -> bool) (s : text) :
  forallb P (rev s) = forallb P s.
Proof.
  destruct (forallb P s) eqn:E; [now apply forallb_rev|].
  destruct (forallb P (rev s)) eqn:E'; [|reflexivity].
  apply forallb_rev in E'. rewrite rev_involutive in E'. congruence.
Qed.

Lemma rstrip_cons (c : ascii) (x : text) :
  rstrip (c :: x)
  = if forallb is_space (c :: x) then [] else c :: rstrip x.
Proof.
  unfold rstrip. cbn [rev forallb].
  destruct (forallb is_space x) eqn:E.
  - rewrite lstrip_spaces by now rewrite forallb_rev_eq.
    rewrite (@lstrip_all (rev x)) by now rewrite forallb_rev_eq.
    cbn [lstrip]. rewrite andb_true_r. now destruct (is_space c).
  - rewrite lstrip_solid by now rewrite forallb_rev_eq.
    rewrite rev_app_distr, andb_false_r. reflexivity.
Qed.

Lemma tidied_rstrip (x : text) : forall st, tidied st x (rstrip x).
Proof.
  induction x as [|c x IH]; intros st; [now apply tidied_end|].
  rewrite rstrip_cons. destruct (forallb is_space (c :: x)) eqn:E.
  - now apply tidied_end.
  - apply tidied_keep. apply IH.
Qed.

Lemma lstrip_skip (u : text) (c : ascii) (b : text) :
  skip_ws u = c :: b -> is_space c = false -> lstrip u = c :: b.
Proof.
  induction u as [|x u IH]; intros H Hc; [discriminate H|].
  cbn [skip_ws] in H. cbn [lstrip].
  destruct (is_json_space x) eqn:E.
  - rewrite (json_space_is_space _ E). now apply IH.
  - injection H as -> ->. now rewrite Hc.
Qed.

Lemma thinned_refl (t : text) : thinned t t.
Proof. induction t; now constructor. Qed.

Lemma thinned_replace (n : nat) :
  forall t, thinned t (replace_fuel n " {" "{" t).
Proof.
  induction n as [|n IH]; intros t; [apply thinned_refl|].
  destruct t as [|c s]; [constructor|]. cbn [replace_fuel].
  destruct (strip_prefix " {" (c :: s)) as [rest|] eqn:E.
  - apply strip_prefix_some in E. cbn [T list_ascii_of_string app] in E.
    injection E as -> ->.
    replace (length rest <? length (" "%char :: "{"%char :: rest)) with true
      by (symmetry; apply Nat.ltb_lt; simpl; lia).
    cbn [T list_ascii_of_string app].
    apply thinned_drop, thinned_keep, IH.
  - apply thinned_keep, IH.
Qed.

Lemma thinned_app (a b c d : text) :
  thinned a b -> thinned c d -> thinned (a ++ c) (b ++ d).
Proof.
  induction 1; intros H'; cbn [app]; [exact H'| |];
    constructor; now apply IHthinned.
Qed.

Lemma thinned_rev (a b : text) : thinned a b -> thinned (rev a) (rev b).
Proof.
  induction 1 as [|c t t' H IH|t t' H IH]; cbn [rev].
  - constructor.
  - apply thinned_app; [exact IH|apply thinned_refl].
  - rewrite <- (app_nil_r (rev t')).
    apply thinned_app; [exact IH|]. apply thinned_drop, thinned_nil.
Qed.

Lemma thinned_lstrip (a b : text) :
  thinned a b -> thinned (lstrip a) (lstrip b).
Proof.
  induction 1 as [|c t t' H IH|t t' H IH]; cbn [lstrip].
  - constructor.
  - destruct (is_space c); [exact IH|now constructor].
  - exact IH.
Qed.

Lemma thinned_strip (a b : text) : thinned a b -> thinned (strip a) (strip b).
Proof.
  intros H. unfold strip, rstrip.
  now apply thinned_rev, thinned_lstrip, thinned_rev, thinned_lstrip.
Qed.

Lemma thinned_no_char (c : ascii) (a b : text) :
  thinned a b -> no_char c a = true -> no_char c b = true.
Proof.
  induction 1 as [|x t t' H IH|t t' H IH]; intros Ha.
  - reflexivity.
  - cbn [no_char forallb] in *. apply andb_prop in Ha as [Hx Ha].
    rewrite Hx. now apply IH.
  - cbn [no_char forallb] in Ha. apply andb_prop in Ha as [_ Ha].
    now apply IH.
Qed.

Lemma absent_no_char (c : ascii) (s : text) :
  contains [c] s = false -> no_char c s = true.
Proof.
  induction s as [|x s IH]; intros H; [reflexivity|].
  rewrite contains_unfold in H. apply orb_false_elim in H as [H1 H2].
  unfold startswith in H1. cbn [strip_prefix] in H1.
  cbn [no_char forallb]. rewrite Ascii.eqb_sym.
  destruct (Ascii.eqb c x); [discriminate H1|]. now apply IH.
Qed.

(** ** Parsing after the layout rules *)

Lemma json_loads_tidy (t : text) (v : json) :
  json_loads t = Ret v ->
  blank_brace_in_string Outside t = false ->
  json_loads (strip (replace " {" "{" t)) = Ret v.
Proof.
  intros Hv Hb. unfold json_loads in Hv.
  destruct (json_value (2 * length t + 2) (skip_ws t)) as [x|e] eqn:Ex;
    [|discriminate Hv].
  cbn [bind] in Hv.
  destruct (skip_ws (snd x)) eqn:Er; [|discriminate Hv].
  injection Hv as <-.
  set (u := replace " {" "{" t).
  assert (Hu : tidied Outside (skip_ws t) (skip_ws u)).
  { apply tidied_skip. unfold u, replace. now apply tidied_replace. }
  destruct (proj1 (tidied_parse _) _ _ Ex (2 * length (skip_ws u) + 1) _ Hu
              (le_n _)) as (r1 & E1 & Hr1 & L1).
  destruct (skip_ws u) as [|c b] eqn:Eu; [inversion L1|].
  pose proof (json_value_solid _ _ _ E1) as Hc.
  assert (Es : strip u = rstrip (c :: b)).
  { unfold strip. now rewrite (lstrip_skip _ Eu Hc). }
  destruct (proj1 (tidied_parse _) _ _ E1 (2 * length (strip u) + 2)
              (strip u)) as (r2 & E2 & Hr2 & L2).
  { rewrite Es. apply tidied_rstrip. }
  { lia. }
  unfold json_loads.
  assert (Ek : skip_ws (strip u) = strip u).
  { rewrite Es, rstrip_cons. cbn [forallb]. rewrite Hc. cbn [andb skip_ws].
    destruct (is_json_space c) eqn:Ej; [|reflexivity].
    apply json_space_is_space in Ej. congruence. }
  rewrite Ek, E2. cbn [bind fst snd].
  assert (En : skip_ws r2 = []).
  { apply skip_ws_nil. apply (tidied_json_spaces Hr2).
    apply (tidied_json_spaces Hr1). now apply skip_ws_nil. }
  now rewrite En.
Qed.

(** C2, amended.  A valid JSON document goes through [fix_json] and parses
    to what it parsed to before, provided no rule of [fix_json] changes what
    the document says: no word character stands right before a colon and no
    digit right after one, the text holds no [True], no [False], no ['] and
    no [},], no blank before a brace inside a string, and no newline between
    its first and its last character that is not white space.  Blanks
    before a brace outside the strings and white space at the two ends,
    which [fix_json] removes, do not count. *)
Theorem fix_json_keeps_valid_json (t : text) (v : json) :
  json_loads t = Ret v ->
  has_pair is_word (is_char ":") t = false ->
  has_pair (is_char ":") is_digit t = false ->
  contains "True" t = false ->
  contains "False" t = false ->
  contains "'" t = false ->
  contains "}," t = false ->
  blank_brace_in_string Outside t = false ->
  contains [NL] (strip t) = false ->
  (l <- fix_json t ;; mapM json_loads l) = Ret [v].
Proof.
  intros Hv Hkey Hdig Htrue Hfalse Hq Hbrace Hin Hnl.
  rewrite fix_json_layout by assumption. cbn [bind].
  rewrite split_on_absent.
  - cbn [mapM]. rewrite (@json_loads_tidy t v Hv Hin). reflexivity.
  - apply no_char_absent.
    apply (@thinned_no_char NL (strip t)); [|now apply absent_no_char].
    apply thinned_strip. unfold replace. apply thinned_replace.
Qed.

(** A nested document with a blank before its braces and a newline at its
    end. *)
Lemma fix_json_keeps_valid_json_witness :
  (l <- fix_json json_laid_out ;; mapM json_loads l)
  = Ret [JDict [(T "id", JDict [(T "host", JStr "ioc-a");
                                (T "up", JBool true)])]].
Proof.
  apply fix_json_keeps_valid_json; reflexivity.
Defined.
